(** * Crossword CSP solver (src/crossword/generate.py)

    A shallow embedding of [CrosswordCreator]: node consistency, arc
    revision, AC-3 propagation, the two ordering heuristics and the
    backtracking search, together with the properties the specification
    states about them.

    Python features and how they are rendered here:
    - a [dict] is an association list in insertion order with unique keys;
      a missing key raises [KeyError];
    - a [list] is a [list]; [for w in l] is the index-based list iterator,
      so that a removal inside the loop body shifts the remaining elements
      under the iterator exactly as in CPython;
    - a [set] has no order of its own: its iteration order is a parameter
      [set_iter] of the development;
    - an exception ends the whole run (nothing in the solver catches one),
      so a raised exception carries no state;
    - [while] loops and the recursion of [backtrack] take a budget; the
      budget the top-level entry points compute is shown to be enough. *)

From Stdlib Require Import List String Ascii Arith Bool Lia PeanoNat.
From Stdlib Require Import Permutation Sorted.
Import ListNotations.


(** ** Outcomes of a call *)

Inductive exn : Type :=
| KeyError
| IndexError.

Inductive result (A : Type) : Type :=
| Ok (a : A)
| Raise (e : exn)
| NoFuel.

Arguments Ok {A} a.
Arguments Raise {A} e.
Arguments NoFuel {A}.

Definition bind {A B : Type} (c : result A) (k : A -> result B) : result B :=
  match c with
  | Ok a => k a
  | Raise e => Raise e
  | NoFuel => NoFuel
  end.

Notation "x <- c ;; k" := (bind c (fun x => k))
  (at level 61, c at next level, right associativity).
Notation "' p <- c ;; k" := (bind c (fun x => match x with p => k end))
  (at level 61, p pattern, c at next level, right associativity).

Fixpoint mapM {A B : Type} (f : A -> result B) (l : list A) : result (list B) :=
  match l with
  | [] => Ok []
  | a :: t => b <- f a ;; bs <- mapM f t ;; Ok (b :: bs)
  end.

(** ** Dictionaries *)

Section Dict.
Context {K V : Type}.
Variable K_eq_dec : forall a b : K, {a = b} + {a <> b}.

Definition dict : Type := list (K * V).

Definition keys (d : dict) : list K := map fst d.

Fixpoint dict_find (k : K) (d : dict) : option V :=
  match d with
  | [] => None
  | (k', v) :: t => if K_eq_dec k k' then Some v else dict_find k t
  end.

(** [d[k]] *)
Definition dict_get (k : K) (d : dict) : result V :=
  match dict_find k d with
  | Some v => Ok v
  | None => Raise KeyError
  end.

(** [k in d] *)
Definition dict_mem (k : K) (d : dict) : bool :=
  match dict_find k d with
  | Some _ => true
  | None => false
  end.

(** [d[k] = v]: an existing key keeps its place, a new one goes last. *)
Fixpoint dict_set (k : K) (v : V) (d : dict) : dict :=
  match d with
  | [] => [(k, v)]
  | (k', v') :: t =>
      if K_eq_dec k k' then (k', v) :: t else (k', v') :: dict_set k v t
  end.

Fixpoint dict_remove (k : K) (d : dict) : dict :=
  match d with
  | [] => []
  | (k', v') :: t => if K_eq_dec k k' then t else (k', v') :: dict_remove k t
  end.

(** [del d[k]] *)
Definition dict_del (k : K) (d : dict) : result dict :=
  if dict_mem k d then Ok (dict_remove k d) else Raise KeyError.
End Dict.

Arguments dict : clear implicits.

(** [l.remove(x)] on a list that holds [x]: the first occurrence goes. *)
Fixpoint list_remove {A : Type} (A_eq_dec : forall a b : A, {a = b} + {a <> b})
    (x : A) (l : list A) : list A :=
  match l with
  | [] => []
  | y :: t => if A_eq_dec x y then t else y :: list_remove A_eq_dec x t
  end.

(** ** Puzzle description *)

Inductive Direction : Type := ACROSS | DOWN.

(** Modelled from the spec: the class of slots (crossword.py is not part of
    the sources).  A slot is identified by row, column, orientation and
    length, and two slots are equal iff all four fields match. *)
Record Var : Type := mkVar {
  var_i : nat;
  var_j : nat;
  var_direction : Direction;
  var_length : nat
}.

Definition Direction_eq_dec : forall a b : Direction, {a = b} + {a <> b}.
Proof. decide equality. Defined.

Definition Var_eq_dec : forall a b : Var, {a = b} + {a <> b}.
Proof. decide equality; try apply Nat.eq_dec; apply Direction_eq_dec. Defined.

Definition Arc : Type := (Var * Var)%type.

Definition Arc_eq_dec : forall a b : Arc, {a = b} + {a <> b}.
Proof. decide equality; apply Var_eq_dec. Defined.

(** Modelled from the spec: the puzzle description (the class that builds it
    lives in crossword.py, which is not part of the sources), with the three
    attributes the solver reads.  [crossword.variables] and
    [crossword.words] are sets, given here in their iteration order;
    [crossword.overlaps] is the dict from ordered pairs of slots to [None]
    or a pair of indices, in insertion order. *)
Record Crossword : Type := mkCrossword {
  variables : list Var;
  words : list string;
  overlaps : dict Arc (option (nat * nat))
}.

Definition Domains : Type := dict Var (list string).
Definition Assignment : Type := dict Var string.

Definition dom_get := @dict_get Var (list string) Var_eq_dec.
Definition dom_set := @dict_set Var (list string) Var_eq_dec.
Definition asg_find := @dict_find Var string Var_eq_dec.
Definition asg_mem := @dict_mem Var string Var_eq_dec.
Definition asg_set := @dict_set Var string Var_eq_dec.
Definition asg_del := @dict_del Var string Var_eq_dec.

(** [word[k]] for a non-negative index. *)
Definition letter (word : string) (k : nat) : result ascii :=
  match String.get k word with
  | Some c => Ok c
  | None => Raise IndexError
  end.

(** [v in arc] for a 2-tuple. *)
Definition in_arc (v : Var) (arc : Arc) : bool :=
  if Var_eq_dec v (fst arc) then true
  else if Var_eq_dec v (snd arc) then true else false.

Definition arc_vars (arc : Arc) : list Var := [fst arc; snd arc].

Definition var_neqb (a b : Var) : bool :=
  if Var_eq_dec a b then false else true.

Definition is_some {A : Type} (o : option A) : bool :=
  match o with Some _ => true | None => false end.

(** ** The solver *)

Section Solver.

(** Iteration order of [set(l)]. *)
Variable set_iter : list Var -> list Var.

Variable crossword : Crossword.

(** [self.crossword.overlaps[x, y]] *)
Definition overlaps_get (x y : Var) : result (option (nat * nat)) :=
  dict_get Arc_eq_dec (x, y) (overlaps crossword).

(** [__init__]: every slot starts with a copy of the dictionary. *)
Definition init_domains : Domains :=
  map (fun var => (var, words crossword)) (variables crossword).

Definition enforce_node_consistency (domains : Domains) : Domains :=
  map (fun '(var, d) =>
         (var, filter (fun word => String.length word =? var_length var) d))
      domains.

Definition can_overlap (word : string) (domain : list string)
    (overlap : nat * nat) : result bool :=
  let '(i, j) := overlap in
  overlap_y_letters <- mapM (fun d_word => letter d_word j) domain ;;
  c <- letter word i ;;
  Ok (existsb (Ascii.eqb c) overlap_y_letters).

(** The loop of [revise]: [for word in self.domains[x]] with
    [self.domains[x].remove(word)] in its body.  [idx] is the position of
    the list iterator; it advances by one at every step, whether or not
    the list shrank under it.  [n] bounds the number of steps. *)
Fixpoint revise_loop (n idx : nat) (x y : Var) (overlap : nat * nat)
    (revised : bool) (domains : Domains) : result (bool * Domains) :=
  match n with
  | 0 => NoFuel
  | S n' =>
      dx <- dom_get x domains ;;
      match nth_error dx idx with
      | None => Ok (revised, domains)
      | Some word =>
          dy <- dom_get y domains ;;
          c <- can_overlap word dy overlap ;;
          if c then revise_loop n' (S idx) x y overlap revised domains
          else revise_loop n' (S idx) x y overlap true
                 (dom_set x (list_remove string_dec word dx) domains)
      end
  end.

Definition revise (x y : Var) (domains : Domains) : result (bool * Domains) :=
  overlap <- overlaps_get x y ;;
  match overlap with
  | None => Ok (false, domains)
  | Some ov =>
      dx <- dom_get x domains ;;
      revise_loop (S (List.length dx)) 0 x y ov false domains
  end.

(** Default arc list of [ac3]: the keys of the overlap dict whose value
    is not [None], in the dict's order. *)
Definition all_arcs : list Arc :=
  map fst (filter (fun kv => is_some (snd kv)) (overlaps crossword)).

(** The set [neighbors] of [ac3]: the slots of the arcs of [arcs] (the
    initial arc list, not the queue) that hold [v1].  The source filters
    with [neighbor != (v1 or v2)]; an object whose class defines no truth
    value is truthy, so [(v1 or v2)] is [v1] and only [v1] itself is left
    out. *)
Definition ac3_neighbors (arcs : list Arc) (v1 : Var) : list Var :=
  set_iter (filter (fun neighbor => var_neqb neighbor v1)
              (flat_map arc_vars (filter (in_arc v1) arcs))).

(** [for var in neighbors: if overlaps[var, v1]: queue.append((var, v1))];
    a pair of indices is a non-empty tuple, hence truthy. *)
Fixpoint enqueue (v1 : Var) (neighbors : list Var) (queue : list Arc)
    : result (list Arc) :=
  match neighbors with
  | [] => Ok queue
  | var :: t =>
      o <- overlaps_get var v1 ;;
      if is_some o then enqueue v1 t (queue ++ [(var, v1)])
      else enqueue v1 t queue
  end.

(** What one iteration of the [while len(queue)] loop of [ac3] leaves:
    the loop has returned, or it goes on with a queue and a store. *)
Inductive ac3_outcome : Type :=
| Return (b : bool) (domains : Domains)
| Continue (queue : list Arc) (domains : Domains).

(** One evaluation of the loop test and, when it holds, of the body. *)
Definition ac3_step (arcs queue : list Arc) (domains : Domains)
    : result ac3_outcome :=
  match queue with
  | [] => Ok (Return true domains)
  | (v1, v2) :: queue' =>
      '(revised, domains') <- revise v1 v2 domains ;;
      if revised then
        d1 <- dom_get v1 domains' ;;
        if List.length d1 =? 0 then Ok (Return false domains')
        else
          queue'' <- enqueue v1 (ac3_neighbors arcs v1) queue' ;;
          Ok (Continue queue'' domains')
      else Ok (Continue queue' domains')
  end.

(** The loop; [n] bounds its iterations. *)
Fixpoint ac3_loop (n : nat) (arcs queue : list Arc) (domains : Domains)
    : result (bool * Domains) :=
  match n with
  | 0 => NoFuel
  | S n' =>
      o <- ac3_step arcs queue domains ;;
      match o with
      | Return b domains' => Ok (b, domains')
      | Continue queue' domains' => ac3_loop n' arcs queue' domains'
      end
  end.

Definition total_size (domains : Domains) : nat :=
  list_sum (map (fun kv => List.length (snd kv)) domains).

(** A bound on the iterations of the loop: every productive revision
    removes a word and enqueues at most [2 * len(arcs)] arcs. *)
Definition ac3_fuel (arcs : list Arc) (domains : Domains) : nat :=
  S (List.length arcs + total_size domains * S (2 * List.length arcs)).

Definition ac3 (arcs : option (list Arc)) (domains : Domains)
    : result (bool * Domains) :=
  let arcs := match arcs with None => all_arcs | Some a => a end in
  ac3_loop (ac3_fuel arcs domains) arcs arcs domains.

Definition assignment_complete (assignment : Assignment) : bool :=
  List.length (keys assignment) =? List.length (variables crossword).

(** First loop of [consistent]: lengths and distinctness. *)
Fixpoint consistent_words (items : Assignment) (unique_words : list string)
    : bool :=
  match items with
  | [] => true
  | (var, word) :: t =>
      if (String.length word =? var_length var)
         && negb (existsb (String.eqb word) unique_words)
      then consistent_words t (unique_words ++ [word])
      else false
  end.

(** Second loop of [consistent], inner [for v2 in assignment]. *)
Fixpoint consistent_inner (v1 : Var) (word1 : string) (items : Assignment)
    : result bool :=
  match items with
  | [] => Ok true
  | (v2, word2) :: t =>
      if Var_eq_dec v1 v2 then consistent_inner v1 word1 t
      else
        overlap <- overlaps_get v1 v2 ;;
        match overlap with
        | None => consistent_inner v1 word1 t
        | Some (i, j) =>
            a <- letter word1 i ;;
            b <- letter word2 j ;;
            if Ascii.eqb a b then consistent_inner v1 word1 t else Ok false
        end
  end.

(** Second loop of [consistent], outer [for v1 in assignment]. *)
Fixpoint consistent_outer (items assignment : Assignment) : result bool :=
  match items with
  | [] => Ok true
  | (v1, word1) :: t =>
      ok <- consistent_inner v1 word1 assignment ;;
      if ok then consistent_outer t assignment else Ok false
  end.

Definition consistent (assignment : Assignment) : result bool :=
  if consistent_words assignment [] then
    consistent_outer assignment assignment
  else Ok false.

(** [[k for (k, v) in overlaps.items() if v is not None and var in k]] *)
Definition var_arcs (var : Var) : list Arc :=
  map fst (filter (fun kv => is_some (snd kv) && in_arc var (fst kv))
             (overlaps crossword)).

(** The set [neighbors] of [order_domain_values] and of [infer]. *)
Definition unassigned_neighbors (var : Var) (assignment : Assignment)
    : list Var :=
  set_iter
    (filter (fun neighbor =>
               var_neqb neighbor var && negb (asg_mem neighbor assignment))
       (flat_map arc_vars (var_arcs var))).

(** [{key: 0 for key in d}] *)
Definition rules_out_init (d : list string) : dict string nat :=
  fold_left (fun acc key => dict_set string_dec key 0 acc) d [].

(** [for word2 in self.domains[neighbor]: if word1[i] != word2[j]: += 1] *)
Fixpoint count_mismatch (word1 : string) (i j : nat) (d : list string)
    (acc : nat) : result nat :=
  match d with
  | [] => Ok acc
  | word2 :: t =>
      a <- letter word1 i ;;
      b <- letter word2 j ;;
      count_mismatch word1 i j t (if Ascii.eqb a b then acc else S acc)
  end.

(** [for neighbor in neighbors: ...] for one [word1]. *)
Fixpoint count_ruled_out (var : Var) (word1 : string) (neighbors : list Var)
    (domains : Domains) (acc : nat) : result nat :=
  match neighbors with
  | [] => Ok acc
  | neighbor :: t =>
      overlap <- overlaps_get var neighbor ;;
      match overlap with
      | Some (i, j) =>
          d <- dom_get neighbor domains ;;
          acc' <- count_mismatch word1 i j d acc ;;
          count_ruled_out var word1 t domains acc'
      | None => count_ruled_out var word1 t domains acc
      end
  end.

(** [sorted(items, key=lambda x: x[1])]: the stable ascending sort. *)
Fixpoint insert_by_count (p : string * nat) (l : list (string * nat))
    : list (string * nat) :=
  match l with
  | [] => [p]
  | q :: t =>
      if snd p <=? snd q then p :: l else q :: insert_by_count p t
  end.

Fixpoint sorted_by_count (l : list (string * nat)) : list (string * nat) :=
  match l with
  | [] => []
  | p :: t => insert_by_count p (sorted_by_count t)
  end.

Definition order_domain_values (var : Var) (assignment : Assignment)
    (domains : Domains) : result (list string) :=
  d <- dom_get var domains ;;
  let neighbors := unassigned_neighbors var assignment in
  rules_out <-
    mapM (fun '(word1, c0) =>
            c <- count_ruled_out var word1 neighbors domains c0 ;;
            Ok (word1, c))
         (rules_out_init d) ;;
  Ok (map fst (sorted_by_count rules_out)).

(** [min_len] starts at [10e400], the float infinity: [None] here. *)
Definition lt_min_len (domain_len : nat) (min_len : option nat) : bool :=
  match min_len with
  | None => true
  | Some m => domain_len <? m
  end.

Definition eq_min_len (domain_len : nat) (min_len : option nat) : bool :=
  match min_len with
  | None => false
  | Some m => domain_len =? m
  end.

(** First loop of [select_unassigned_variable]. *)
Fixpoint min_domain_scan (vars_to_check : list Var) (domains : Domains)
    (min_domain_vars : list Var) (min_len : option nat)
    : result (list Var) :=
  match vars_to_check with
  | [] => Ok min_domain_vars
  | var :: t =>
      d <- dom_get var domains ;;
      let domain_len := List.length d in
      if lt_min_len domain_len min_len then
        min_domain_scan t domains [var] (Some domain_len)
      else if eq_min_len domain_len min_len then
        min_domain_scan t domains (min_domain_vars ++ [var]) min_len
      else min_domain_scan t domains min_domain_vars min_len
  end.

(** [len(set(neighbor for arc in arcs for neighbor in arc))] *)
Definition var_degree (var : Var) : nat :=
  List.length (set_iter (flat_map arc_vars (var_arcs var))).

(** Second loop of [select_unassigned_variable]; [highest_degree] is
    never assigned again after its initialisation. *)
Definition degree_scan (min_domain_vars : list Var) : option Var :=
  let highest_degree := 0 in
  fold_left
    (fun var_to_return var =>
       if highest_degree <? var_degree var then Some var else var_to_return)
    min_domain_vars None.

(** The result is [None] when the function returns Python's [None]. *)
Definition select_unassigned_variable (assignment : Assignment)
    (domains : Domains) : result (option Var) :=
  let vars_to_check :=
    filter (fun var => negb (asg_mem var assignment)) (variables crossword) in
  min_domain_vars <- min_domain_scan vars_to_check domains [] None ;;
  if 1 <? List.length min_domain_vars then Ok (degree_scan min_domain_vars)
  else
    match min_domain_vars with
    | [] => Raise IndexError
    | var :: _ => Ok (Some var)
    end.

(** [infer] ignores what [ac3] returns. *)
Definition infer (assignment : Assignment) (var : Var) (domains : Domains)
    : result (list Var * Domains) :=
  let neighbors := unassigned_neighbors var assignment in
  let arcs := map (fun v1 => (v1, var)) neighbors in
  '(_, domains') <- ac3 (Some arcs) domains ;;
  Ok (neighbors, domains').

(** The mutable state of a run: [self.domains] and the one [assignment]
    dict that [backtrack] passes down and mutates in place. *)
Definition State : Type := (Domains * Assignment)%type.

(** [for inf_var in inferred: self.domains[inf_var] = old_domains[inf_var]] *)
Fixpoint restore (inferred : list Var) (old_domains domains : Domains)
    : result Domains :=
  match inferred with
  | [] => Ok domains
  | inf_var :: t =>
      d <- dom_get inf_var old_domains ;;
      restore t old_domains (dom_set inf_var d domains)
  end.

Section Loop.
(** The recursive call. *)
Variable rec : State -> result (option Assignment * State).

(** Body of the [for value in ...] loop of [backtrack].  The first
    component is [Some result] when the body returns from [backtrack]. *)
Definition try_value (var : Var) (value : string) (st : State)
    : result (option Assignment * State) :=
  let '(domains, assignment) := st in
  let new_assignment := asg_set var value assignment in
  ok <- consistent new_assignment ;;
  if ok then
    let old_domains := domains in
    let assignment := asg_set var value assignment in
    let domains := dom_set var [value] domains in
    '(inferred, domains) <- infer assignment var domains ;;
    '(res, (domains, assignment)) <- rec (domains, assignment) ;;
    match res with
    | Some r => Ok (Some r, (domains, assignment))
    | None =>
        d <- dom_get var old_domains ;;
        let domains := dom_set var d domains in
        assignment <- asg_del var assignment ;;
        domains <- restore inferred old_domains domains ;;
        Ok (None, (domains, assignment))
    end
  else Ok (None, st).

Fixpoint try_values (var : Var) (values : list string) (st : State)
    : result (option Assignment * State) :=
  match values with
  | [] => Ok (None, st)
  | value :: t =>
      '(res, st') <- try_value var value st ;;
      match res with
      | Some r => Ok (Some r, st')
      | None => try_values var t st'
      end
  end.
End Loop.

(** [backtrack]; [n] bounds the depth of the recursion.  The result is
    [None] for Python's [None].  When [select_unassigned_variable] returns
    [None], [order_domain_values] evaluates [self.domains[None]]. *)
Fixpoint backtrack (n : nat) (st : State)
    : result (option Assignment * State) :=
  match n with
  | 0 => NoFuel
  | S n' =>
      let '(domains, assignment) := st in
      if assignment_complete assignment then Ok (Some assignment, st)
      else
        var <- select_unassigned_variable assignment domains ;;
        match var with
        | None => Raise KeyError
        | Some var =>
            values <- order_domain_values var assignment domains ;;
            try_values (backtrack n') var values st
        end
  end.

(** [solve]; the depth of the search never exceeds the number of slots. *)
Definition solve : result (option Assignment) :=
  let domains := enforce_node_consistency init_domains in
  '(_, domains) <- ac3 None domains ;;
  '(res, _) <- backtrack (S (List.length (variables crossword)))
                 (domains, []) ;;
  Ok res.

End Solver.

(** ** Small puzzles *)

(** An iteration order for sets: the order of [List.nodup]. *)
Definition set_list (l : list Var) : list Var := nodup Var_eq_dec l.

(** A grid whose first row and first column are open: one slot across and
    one slot down, crossing in their first letters. *)
Definition slot_a : Var := mkVar 0 0 ACROSS 3.
Definition slot_d : Var := mkVar 0 0 DOWN 3.

Definition cross (dictionary : list string) : Crossword :=
  mkCrossword [slot_a; slot_d] dictionary
    [((slot_a, slot_d), Some (0, 0)); ((slot_d, slot_a), Some (0, 0))].

(** A state in which trying CAT for the across slot prunes DOG from the
    down slot and then fails: the only word left there is CAT again. *)
Definition branch_state : State :=
  ([(slot_a, ["CAT"]); (slot_d, ["CAT"; "DOG"])], [])%string.

(** A store on which CAT and EGG tie for the across slot. *)
Definition ties_store : Domains :=
  [(slot_a, ["CAT"; "DOG"; "EGG"]); (slot_d, ["EEL"; "CAT"])]%string.

(** A store of the crossing grid in which no word of the across slot has a
    partner in the down slot. *)
Definition unsupported_store : Domains :=
  [(slot_a, ["CAT"; "DOG"]); (slot_d, ["EEL"])]%string.

(** A store in which only EGG has a partner. *)
Definition egg_store : Domains :=
  [(slot_a, ["CAT"; "DOG"; "EGG"]); (slot_d, ["EEL"])]%string.

(** A grid with two open rows that do not touch: two slots across, no
    overlap. *)
Definition slot_b : Var := mkVar 2 0 ACROSS 3.

Definition parallel (dictionary : list string) : Crossword :=
  mkCrossword [slot_a; slot_b] dictionary
    [((slot_a, slot_b), None); ((slot_b, slot_a), None)].

(** A grid with an open first row, first column and third column: the slot
    across meets two slots down, which do not meet each other. *)
Definition slot_e : Var := mkVar 0 2 DOWN 3.

Definition fork (dictionary : list string) : Crossword :=
  mkCrossword [slot_a; slot_d; slot_e] dictionary
    [((slot_a, slot_d), Some (0, 0)); ((slot_a, slot_e), Some (2, 0));
     ((slot_d, slot_a), Some (0, 0)); ((slot_d, slot_e), None);
     ((slot_e, slot_a), Some (0, 2)); ((slot_e, slot_d), None)].

(** Duplicate-freeness as a computation. *)
Fixpoint nodupb (l : list Var) : bool :=
  match l with
  | [] => true
  | x :: t => negb (existsb (fun y => negb (var_neqb x y)) t) && nodupb t
  end.

(** ** Notions the properties are stated with *)

Definition dom_find := @dict_find Var (list string) Var_eq_dec.

(** [shrinks d' d]: the store [d'] has the slots of [d], and every slot's
    domain in [d'] is a subset of its domain in [d]. *)
Definition shrinks (domains' domains : Domains) : Prop :=
  keys domains' = keys domains /\
  forall v d', dom_find v domains' = Some d' ->
    exists d, dom_find v domains = Some d /\ incl d' d.

(** One call of [revise] or of [ac3] (on any arc list), and sequences of
    such calls. *)
Inductive propagation (set_iter : list Var -> list Var) (cw : Crossword)
    : Domains -> Domains -> Prop :=
| prop_none : forall d, propagation set_iter cw d d
| prop_revise : forall x y d b d1 d2,
    revise cw x y d = Ok (b, d1) ->
    propagation set_iter cw d1 d2 ->
    propagation set_iter cw d d2
| prop_ac3 : forall arcs d b d1 d2,
    ac3 set_iter cw arcs d = Ok (b, d1) ->
    propagation set_iter cw d1 d2 ->
    propagation set_iter cw d d2.

(** A recursive call that fails leaves the state as it found it. *)
Definition restoring (rec : State -> result (option Assignment * State)) : Prop :=
  forall st st', NoDup (keys (fst st)) -> rec st = Ok (None, st') -> st' = st.

(** [sound cw a]: every assigned word has the length of its slot, distinct
    slots hold distinct words, and two assigned slots with an overlap
    [(i, j)] agree on the shared letter. *)
Definition sound (cw : Crossword) (a : Assignment) : Prop :=
  (forall v w, In (v, w) a -> String.length w = var_length v) /\
  (forall v1 w1 v2 w2,
     In (v1, w1) a -> In (v2, w2) a -> v1 <> v2 -> w1 <> w2) /\
  (forall v1 w1 v2 w2 i j,
     In (v1, w1) a -> In (v2, w2) a -> v1 <> v2 ->
     dict_find Arc_eq_dec (v1, v2) (overlaps cw) = Some (Some (i, j)) ->
     exists c, String.get i w1 = Some c /\ String.get j w2 = Some c).

(** What a call returns was checked by [consistent], unless it is the
    assignment the call was entered with. *)
Definition checking (cw : Crossword)
    (rec : State -> result (option Assignment * State)) : Prop :=
  forall st a st', rec st = Ok (Some a, st') ->
    a = snd st \/ consistent cw a = Ok true.

(** The words of a list in the order of their first occurrences, leaving
    out the words of [seen]. *)
Fixpoint first_occurrences (seen l : list string) : list string :=
  match l with
  | [] => []
  | w :: t =>
      if in_dec string_dec w seen then first_occurrences seen t
      else w :: first_occurrences (seen ++ [w]) t
  end.

(** The letter of [word1] at [i] and the letter of [word2] at [j] differ. *)
Definition letters_differ (word1 : string) (i : nat) (word2 : string) (j : nat)
    : bool :=
  match String.get i word1, String.get j word2 with
  | Some a, Some b => negb (Ascii.eqb a b)
  | _, _ => true
  end.

(** Whether [overlaps[var, n]] is a pair of indices. *)
Definition has_overlap (cw : Crossword) (var n : Var) : bool :=
  match dict_find Arc_eq_dec (var, n) (overlaps cw) with
  | Some (Some _) => true
  | _ => false
  end.

(** The slots that occur in the overlap dict, each once. *)
Definition overlap_slots (cw : Crossword) : list Var :=
  nodup Var_eq_dec (flat_map arc_vars (keys (overlaps cw))).

(** The unassigned neighbours of [var]: the slots other than [var] that
    have an overlap with it and no word yet. *)
Definition overlapping_unassigned (cw : Crossword) (assignment : Assignment)
    (var : Var) : list Var :=
  filter (fun n =>
            var_neqb n var && negb (asg_mem n assignment) && has_overlap cw var n)
    (overlap_slots cw).

(** How many words of the neighbour's domain the candidate [word1]
    conflicts with. *)
Definition eliminated (cw : Crossword) (domains : Domains) (var : Var)
    (word1 : string) (n : Var) : nat :=
  match dict_find Arc_eq_dec (var, n) (overlaps cw), dom_find n domains with
  | Some (Some (i, j)), Some d =>
      List.length (filter (fun word2 => letters_differ word1 i word2 j) d)
  | _, _ => 0
  end.

(** Conflicts of a candidate, summed over the unassigned neighbours. *)
Definition ruled_out (cw : Crossword) (domains : Domains)
    (assignment : Assignment) (var : Var) (word1 : string) : nat :=
  list_sum (map (eliminated cw domains var word1)
              (overlapping_unassigned cw assignment var)).

(** The order [sorted] sorts by. *)
Definition le_count (p q : string * nat) : Prop := snd p <= snd q.

(** A complete consistent assignment: sound, and every slot holds a word
    of the dictionary. *)
Definition solution (cw : Crossword) (a : Assignment) : Prop :=
  sound cw a /\
  forall v, In v (variables cw) -> exists w, In (v, w) a /\ In w (words cw).

(** A call that stays within its budget. *)
Definition fueled {A : Type} (r : result A) : Prop := r <> NoFuel.

(** The slots of the puzzle that have no word yet. *)
Definition unassigned (cw : Crossword) (assignment : Assignment) : list Var :=
  filter (fun var => negb (asg_mem var assignment)) (variables cw).

(** The keys of an assignment under construction: slots of the puzzle,
    each at most once. *)
Definition partial (cw : Crossword) (a : Assignment) : Prop :=
  NoDup (keys a) /\ incl (keys a) (variables cw).

(** A call that returns an assignment returns a complete one. *)
Definition completing (cw : Crossword)
    (rec : State -> result (option Assignment * State)) : Prop :=
  forall d a0 a st',
    NoDup (keys d) -> partial cw a0 ->
    rec (d, a0) = Ok (Some a, st') ->
    partial cw a /\ assignment_complete cw a = true.

(** No slot of the store has an empty domain. *)
Definition all_nonempty (domains : Domains) : Prop :=
  forall v d, dom_find v domains = Some d -> d <> [].

(** ** The letter grid *)

(** The 2D array of [letter_grid]: rows of cells, a cell holding [None] or
    a letter. *)
Definition Grid : Type := list (list (option ascii)).

(** [l[k] = x] on a list; [IndexError] past the end. *)
Fixpoint list_assign {A : Type} (k : nat) (x : A) (l : list A)
    : result (list A) :=
  match l, k with
  | [], _ => Raise IndexError
  | _ :: t, 0 => Ok (x :: t)
  | a :: t, S k' => t' <- list_assign k' x t ;; Ok (a :: t')
  end.

(** [letters[i][j] = c]: the row is looked up, then assigned in place. *)
Definition grid_assign (i j : nat) (c : ascii) (letters : Grid) : result Grid :=
  match nth_error letters i with
  | None => Raise IndexError
  | Some row =>
      row' <- list_assign j (Some c) row ;;
      list_assign i row' letters
  end.

(** The cell of the [k]-th letter of a slot:
    [i = variable.i + (k if direction == DOWN else 0)],
    [j = variable.j + (k if direction == ACROSS else 0)]. *)
Definition cell (variable : Var) (k : nat) : nat * nat :=
  (var_i variable + match var_direction variable with DOWN => k | ACROSS => 0 end,
   var_j variable + match var_direction variable with ACROSS => k | DOWN => 0 end).

(** [for k in range(len(word)): letters[i][j] = word[k]], from index [k]
    on; [word] is the part of the word not yet written. *)
Fixpoint write_word (variable : Var) (word : string) (k : nat) (letters : Grid)
    : result Grid :=
  match word with
  | EmptyString => Ok letters
  | String c rest =>
      let '(i, j) := cell variable k in
      letters' <- grid_assign i j c letters ;;
      write_word variable rest (S k) letters'
  end.

(** [for variable, word in assignment.items(): ...] *)
Fixpoint write_words (items : Assignment) (letters : Grid) : result Grid :=
  match items with
  | [] => Ok letters
  | (variable, word) :: t =>
      letters' <- write_word variable word 0 letters ;;
      write_words t letters'
  end.

(** [letter_grid]; [height] and [width] are [self.crossword.height] and
    [self.crossword.width]. *)
Definition letter_grid (height width : nat) (assignment : Assignment)
    : result Grid :=
  write_words assignment (repeat (repeat None width) height).

(** [letters[i][j]] read back, [None] outside the grid. *)
Definition grid_at (letters : Grid) (i j : nat) : option (option ascii) :=
  match nth_error letters i with
  | Some row => nth_error row j
  | None => None
  end.

(** ** Notions for the further properties *)

(** [s] gives every slot of the store a word of that slot's domain. *)
Definition chooses (s : Assignment) (domains : Domains) : Prop :=
  forall v d, dom_find v domains = Some d ->
    exists w, asg_find v s = Some w /\ In w d.

(** The words [s] gives to the two slots of an overlap carry the same
    letter at the two indices. *)
Definition agrees (cw : Crossword) (s : Assignment) : Prop :=
  forall v1 v2 i j w1 w2,
    dict_find Arc_eq_dec (v1, v2) (overlaps cw) = Some (Some (i, j)) ->
    asg_find v1 s = Some w1 -> asg_find v2 s = Some w2 ->
    exists c, String.get i w1 = Some c /\ String.get j w2 = Some c.

(** The word [w] has a partner in [dy] for the overlap [(i, j)]. *)
Definition supported (w : string) (dy : list string) (i j : nat) : Prop :=
  exists v c, In v dy /\ String.get i w = Some c /\ String.get j v = Some c.

(** A call that returns an assignment returns the assignment of its final
    state, and that assignment starts with the one the call was given. *)
Definition extending (rec : State -> result (option Assignment * State))
    : Prop :=
  forall d a0 a st',
    NoDup (keys d) -> rec (d, a0) = Ok (Some a, st') ->
    snd st' = a /\ exists rest, a = a0 ++ rest.

(** Every word of every domain is a word of the dictionary. *)
Definition in_dictionary (cw : Crossword) (domains : Domains) : Prop :=
  forall v d w, dom_find v domains = Some d -> In w d -> In w (words cw).

(** Every word of the assignment is a word of the dictionary. *)
Definition words_of (cw : Crossword) (a : Assignment) : Prop :=
  forall v w, In (v, w) a -> In w (words cw).

(** A call that returns an assignment returns dictionary words only. *)
Definition lexical (cw : Crossword)
    (rec : State -> result (option Assignment * State)) : Prop :=
  forall d a0 a st',
    NoDup (keys d) -> in_dictionary cw d -> words_of cw a0 ->
    rec (d, a0) = Ok (Some a, st') -> words_of cw a.

(** The entries of [a] are entries of [s]. *)
Definition within (a s : Assignment) : Prop :=
  forall v w, In (v, w) a -> asg_find v s = Some w.

(** A call started inside the solution [s] does not return [None]. *)
Definition finding (s : Assignment)
    (rec : State -> result (option Assignment * State)) : Prop :=
  forall d a0 st',
    NoDup (keys d) -> chooses s d -> within a0 s -> NoDup (keys a0) ->
    rec (d, a0) <> Ok (None, st').

(** A call whose only failure is [IndexError]. *)
Definition index_only {A : Type} (r : result A) : Prop :=
  match r with
  | Ok _ => True
  | Raise e => e = IndexError
  | NoFuel => False
  end.

(** ** Facts about outcomes and dictionaries *)

Lemma bind_Ok {A B : Type} (c : result A) (k : A -> result B) (r : B) :
  bind c k = Ok r -> exists a, c = Ok a /\ k a = Ok r.
Proof.
  destruct c as [a | e |]; simpl; intros H; try discriminate.
  exists a; split; [reflexivity | exact H].
Qed.

Ltac splits := repeat match goal with |- _ /\ _ => split end.

Ltac bind_inv H :=
  let a := fresh "a" in
  let E := fresh "E" in
  apply bind_Ok in H; destruct H as (a & E & H).

Section DictFacts.
Context {K V : Type}.
Variable K_eq_dec : forall a b : K, {a = b} + {a <> b}.

Lemma dict_get_Ok (k : K) (d : dict K V) (v : V) :
  dict_get K_eq_dec k d = Ok v <-> dict_find K_eq_dec k d = Some v.
Proof.
  unfold dict_get. destruct (dict_find K_eq_dec k d); split; intros H; congruence.
Qed.

Lemma dict_find_In (k : K) (d : dict K V) (v : V) :
  dict_find K_eq_dec k d = Some v -> In (k, v) d.
Proof.
  induction d as [| [k' v'] t IH]; simpl; [discriminate |].
  destruct (K_eq_dec k k') as [-> | _].
  - intros [= ->]. now left.
  - intros H. right. auto.
Qed.

Lemma dict_find_None (k : K) (d : dict K V) :
  dict_find K_eq_dec k d = None <-> ~ In k (keys d).
Proof.
  induction d as [| [k' v'] t IH]; simpl.
  - tauto.
  - destruct (K_eq_dec k k') as [-> | n].
    + split; [discriminate | intros H; exfalso; apply H; now left].
    + rewrite IH. split; intros H; [intros [E | I]; [congruence | tauto] | tauto].
Qed.

Lemma dict_find_Some_key (k : K) (d : dict K V) (v : V) :
  dict_find K_eq_dec k d = Some v -> In k (keys d).
Proof.
  intros H. apply dict_find_In in H. unfold keys.
  change k with (fst (k, v)). now apply in_map.
Qed.

Lemma dict_find_set_same (k : K) (v : V) (d : dict K V) :
  dict_find K_eq_dec k (dict_set K_eq_dec k v d) = Some v.
Proof.
  induction d as [| [k' v'] t IH]; simpl.
  - destruct (K_eq_dec k k); congruence.
  - destruct (K_eq_dec k k') as [e | n]; simpl.
    + destruct (K_eq_dec k k'); congruence.
    + destruct (K_eq_dec k k'); congruence.
Qed.

Lemma dict_find_set_other (k k0 : K) (v : V) (d : dict K V) :
  k0 <> k -> dict_find K_eq_dec k0 (dict_set K_eq_dec k v d) = dict_find K_eq_dec k0 d.
Proof.
  intros n. induction d as [| [k' v'] t IH]; simpl.
  - destruct (K_eq_dec k0 k); congruence.
  - destruct (K_eq_dec k k') as [e | n']; simpl.
    + subst. destruct (K_eq_dec k0 k'); congruence.
    + destruct (K_eq_dec k0 k'); congruence.
Qed.

Lemma keys_dict_set (k : K) (v v0 : V) (d : dict K V) :
  dict_find K_eq_dec k d = Some v0 -> keys (dict_set K_eq_dec k v d) = keys d.
Proof.
  induction d as [| [k' v'] t IH]; simpl; [discriminate |].
  destruct (K_eq_dec k k') as [e | n]; simpl; [reflexivity |].
  intros H. f_equal. auto.
Qed.

Lemma dict_set_fresh (k : K) (v : V) (d : dict K V) :
  dict_find K_eq_dec k d = None -> dict_set K_eq_dec k v d = d ++ [(k, v)].
Proof.
  induction d as [| [k' v'] t IH]; simpl; [reflexivity |].
  destruct (K_eq_dec k k') as [e | n]; [discriminate |].
  intros H. f_equal. auto.
Qed.

Lemma dict_remove_set_fresh (k : K) (v : V) (d : dict K V) :
  dict_find K_eq_dec k d = None -> dict_remove K_eq_dec k (dict_set K_eq_dec k v d) = d.
Proof.
  induction d as [| [k' v'] t IH]; simpl.
  - destruct (K_eq_dec k k); congruence.
  - destruct (K_eq_dec k k') as [e | n]; [discriminate |]. simpl.
    destruct (K_eq_dec k k'); [contradiction |].
    intros H. f_equal. auto.
Qed.

Lemma dict_del_set_fresh (k : K) (v : V) (d : dict K V) :
  dict_find K_eq_dec k d = None -> dict_del K_eq_dec k (dict_set K_eq_dec k v d) = Ok d.
Proof.
  intros H. unfold dict_del, dict_mem.
  rewrite dict_find_set_same. now rewrite dict_remove_set_fresh.
Qed.

(** Two dictionaries with the same keys in the same order and the same
    value under every key are equal. *)
Lemma dict_ext (d1 d2 : dict K V) :
  NoDup (keys d1) -> keys d1 = keys d2 ->
  (forall k, dict_find K_eq_dec k d1 = dict_find K_eq_dec k d2) -> d1 = d2.
Proof.
  revert d2. induction d1 as [| [k1 v1] t1 IH]; intros [| [k2 v2] t2];
    simpl; intros ND HK HF; try discriminate; [reflexivity |].
  injection HK as -> HK. inversion ND as [| ? ? Hnotin ND']; subst.
  assert (v1 = v2) as ->.
  { specialize (HF k2). destruct (K_eq_dec k2 k2); congruence. }
  f_equal. apply IH; auto.
  intros k. specialize (HF k).
  destruct (K_eq_dec k k2) as [-> | n]; [| exact HF].
  assert (dict_find K_eq_dec k2 t1 = None) as -> by now apply dict_find_None.
  symmetry. apply dict_find_None. now rewrite <- HK.
Qed.
End DictFacts.

(** ** Arc revision only removes words *)

Lemma list_remove_incl {A : Type} (dec : forall a b : A, {a = b} + {a <> b})
    (x : A) (l : list A) :
  incl (list_remove dec x l) l.
Proof.
  induction l as [| y t IH]; simpl; [apply incl_refl |].
  destruct (dec x y).
  - apply incl_tl, incl_refl.
  - intros z [-> | Hz]; [now left | right; now apply IH].
Qed.

Lemma list_remove_length {A : Type} (dec : forall a b : A, {a = b} + {a <> b})
    (x : A) (l : list A) :
  In x l -> S (List.length (list_remove dec x l)) = List.length l.
Proof.
  induction l as [| y t IH]; simpl; [tauto |].
  destruct (dec x y) as [-> | n]; [reflexivity |].
  intros [E | Hx]; [congruence |]. simpl. f_equal. auto.
Qed.

Lemma total_size_set (x : Var) (d d' : list string) (domains : Domains) :
  dom_find x domains = Some d ->
  total_size (dom_set x d' domains) + List.length d
  = total_size domains + List.length d'.
Proof.
  unfold total_size, dom_find, dom_set.
  induction domains as [| [k v] t IH]; simpl; [discriminate |].
  destruct (Var_eq_dec x k) as [-> | n]; simpl.
  - intros [= ->]. lia.
  - intros H. specialize (IH H). lia.
Qed.

Lemma dom_get_Ok (x : Var) (domains : Domains) (d : list string) :
  dom_get x domains = Ok d <-> dom_find x domains = Some d.
Proof. apply dict_get_Ok. Qed.

Lemma revise_loop_inv (n : nat) :
  forall idx x y ov revised domains b domains',
    revise_loop n idx x y ov revised domains = Ok (b, domains') ->
    keys domains' = keys domains /\
    (forall v, v <> x -> dom_find v domains' = dom_find v domains) /\
    (forall dx, dom_find x domains = Some dx ->
       exists dx', dom_find x domains' = Some dx' /\ incl dx' dx) /\
    total_size domains' <= total_size domains /\
    (b = false -> revised = false /\ domains' = domains) /\
    (revised = false -> b = true -> total_size domains' < total_size domains).
Proof.
  induction n as [| n IH]; simpl; intros idx x y ov revised domains b domains' H;
    [discriminate |].
  bind_inv H. rename a into dx. apply dom_get_Ok in E.
  destruct (nth_error dx idx) as [word |] eqn:Hnth.
  - bind_inv H. rename a into dy. bind_inv H. destruct a.
    + apply IH in H. exact H.
    + apply IH in H.
      destruct H as (HK & HO & HX & HT & HF & _).
      pose proof (total_size_set x dx (list_remove string_dec word dx) domains E)
        as HS.
      pose proof (list_remove_length string_dec word dx (nth_error_In _ _ Hnth))
        as HL.
      splits.
      * rewrite HK. unfold dom_set. eapply keys_dict_set. exact E.
      * intros v Hv. rewrite (HO v Hv). unfold dom_find, dom_set.
        now apply dict_find_set_other.
      * intros dx0 Hdx0. rewrite E in Hdx0. injection Hdx0 as <-.
        destruct (HX (list_remove string_dec word dx)) as (dx' & Hdx' & Hincl).
        { unfold dom_find, dom_set. apply dict_find_set_same. }
        exists dx'. split; [exact Hdx' |].
        eapply incl_tran; [exact Hincl | apply list_remove_incl].
      * lia.
      * intros Hb. destruct (HF Hb) as [Hc _]. discriminate.
      * intros _ _. lia.
  - injection H as <- <-. splits; auto.
    + intros dx0 Hdx0. exists dx0. split; [exact Hdx0 | apply incl_refl].
    + intros -> Hb. discriminate.
Qed.

Section ReviseFacts.
Variable cw : Crossword.

Lemma revise_inv (x y : Var) (domains : Domains) (b : bool) (domains' : Domains) :
  revise cw x y domains = Ok (b, domains') ->
  keys domains' = keys domains /\
  (forall v, v <> x -> dom_find v domains' = dom_find v domains) /\
  (forall dx, dom_find x domains = Some dx ->
     exists dx', dom_find x domains' = Some dx' /\ incl dx' dx) /\
  (b = false -> domains' = domains) /\
  (b = true -> total_size domains' < total_size domains).
Proof.
  unfold revise. intros H. bind_inv H. destruct a as [ov |].
  - bind_inv H. apply revise_loop_inv in H.
    destruct H as (HK & HO & HX & _ & HF & HT).
    splits; auto.
    + intros Hb. now destruct (HF Hb).
  - injection H as <- <-. splits; auto.
    + intros dx Hdx. exists dx. split; [exact Hdx | apply incl_refl].
    + discriminate.
Qed.

Lemma revise_shrinks (x y : Var) (domains : Domains) (b : bool)
    (domains' : Domains) :
  revise cw x y domains = Ok (b, domains') -> shrinks domains' domains.
Proof.
  intros H. apply revise_inv in H. destruct H as (HK & HO & HX & _).
  split; [exact HK |].
  intros v d' Hv. destruct (Var_eq_dec v x) as [-> | n].
  - destruct (dom_find x domains) as [dx |] eqn:Hx.
    + destruct (HX dx eq_refl) as (dx' & Hdx' & Hincl).
      exists dx. split; [reflexivity |].
      rewrite Hv in Hdx'. injection Hdx' as <-. exact Hincl.
    + exfalso. apply dict_find_Some_key in Hv. rewrite HK in Hv.
      apply dict_find_None in Hx. contradiction.
  - exists d'. rewrite <- (HO v n). split; [exact Hv | apply incl_refl].
Qed.
End ReviseFacts.

Lemma shrinks_refl (d : Domains) : shrinks d d.
Proof.
  split; [reflexivity |]. intros v d' H. exists d'. split; [exact H | apply incl_refl].
Qed.

Lemma shrinks_trans (d1 d2 d3 : Domains) :
  shrinks d1 d2 -> shrinks d2 d3 -> shrinks d1 d3.
Proof.
  intros [K1 H1] [K2 H2]. split; [congruence |].
  intros v d' Hv. destruct (H1 v d' Hv) as (d & Hd & I1).
  destruct (H2 v d Hd) as (d0 & Hd0 & I2).
  exists d0. split; [exact Hd0 | eapply incl_tran; eassumption].
Qed.

(** ** What AC-3 touches *)

Section Ac3Facts.
Variable set_iter : list Var -> list Var.
Variable cw : Crossword.

Lemma enqueue_inv (v1 : Var) (neighbors : list Var) :
  forall queue queue',
    enqueue cw v1 neighbors queue = Ok queue' ->
    (forall a, In a queue' ->
       In a queue \/ (In (fst a) neighbors /\ snd a = v1)) /\
    List.length queue' <= List.length queue + List.length neighbors.
Proof.
  induction neighbors as [| var t IH]; simpl; intros queue queue' H.
  - injection H as <-. split; [auto | lia].
  - bind_inv H. destruct (is_some a).
    + apply IH in H. destruct H as [HI HL]. split.
      * intros arc Harc. destruct (HI arc Harc) as [Hq | [Hn Hs]].
        -- apply in_app_or in Hq. destruct Hq as [Hq | [<- | []]]; auto.
        -- auto.
      * rewrite length_app in HL. simpl in HL. lia.
    + apply IH in H. destruct H as [HI HL]. split.
      * intros arc Harc. destruct (HI arc Harc) as [Hq | [Hn Hs]]; auto.
      * lia.
Qed.

Lemma in_flat_map_arc_vars (v : Var) (f : Arc -> bool) (arcs : list Arc) :
  In v (flat_map arc_vars (filter f arcs)) -> In v (flat_map arc_vars arcs).
Proof.
  rewrite !in_flat_map. intros (a & Ha & Hv). exists a.
  apply filter_In in Ha. tauto.
Qed.

Lemma ac3_step_shrinks (arcs queue : list Arc) (domains : Domains)
    (o : ac3_outcome) :
  ac3_step set_iter cw arcs queue domains = Ok o ->
  match o with
  | Return _ domains' => shrinks domains' domains
  | Continue _ domains' => shrinks domains' domains
  end.
Proof.
  unfold ac3_step. destruct queue as [| [v1 v2] queue'].
  - intros [= <-]. apply shrinks_refl.
  - intros H. bind_inv H. destruct a as [revised domains'].
    pose proof (revise_shrinks cw v1 v2 domains revised domains' E) as HS.
    destruct revised.
    + bind_inv H. destruct (List.length a =? 0).
      * injection H as <-. exact HS.
      * bind_inv H. injection H as <-. exact HS.
    + injection H as <-. exact HS.
Qed.

Lemma ac3_loop_shrinks (n : nat) :
  forall arcs queue domains b domains',
    ac3_loop set_iter cw n arcs queue domains = Ok (b, domains') ->
    shrinks domains' domains.
Proof.
  induction n as [| n IH]; simpl; intros arcs queue domains b domains' H;
    [discriminate |].
  bind_inv H. apply ac3_step_shrinks in E. destruct a as [b0 d0 | q0 d0].
  - injection H as <- <-. exact E.
  - apply IH in H. eapply shrinks_trans; eassumption.
Qed.

Lemma ac3_shrinks (arcs : option (list Arc)) (domains : Domains) (b : bool)
    (domains' : Domains) :
  ac3 set_iter cw arcs domains = Ok (b, domains') -> shrinks domains' domains.
Proof. unfold ac3. apply ac3_loop_shrinks. Qed.

Lemma propagation_shrinks (d d' : Domains) :
  propagation set_iter cw d d' -> shrinks d' d.
Proof.
  induction 1 as [d | x y d b d1 d2 H _ IH | arcs d b d1 d2 H _ IH].
  - apply shrinks_refl.
  - eapply shrinks_trans; [exact IH | eapply revise_shrinks; exact H].
  - eapply shrinks_trans; [exact IH | eapply ac3_shrinks; exact H].
Qed.

(** From here on the iteration of a set yields only members of the set. *)
Hypothesis set_iter_sub : forall l x, In x (set_iter l) -> In x l.

Lemma ac3_neighbors_sub (arcs : list Arc) (v1 z : Var) :
  In z (ac3_neighbors set_iter arcs v1) -> In z (flat_map arc_vars arcs).
Proof.
  unfold ac3_neighbors. intros H. apply set_iter_sub in H.
  apply filter_In in H. destruct H as [H _].
  eapply in_flat_map_arc_vars. exact H.
Qed.

(** A step changes the domain of the first slot of the popped arc only, and
    the arcs it enqueues start at slots of the initial arc list. *)
Lemma ac3_step_frame (arcs queue : list Arc) (domains : Domains)
    (o : ac3_outcome) :
  ac3_step set_iter cw arcs queue domains = Ok o ->
  match o with
  | Return _ domains' =>
      forall v, ~ In v (map fst queue) -> dom_find v domains' = dom_find v domains
  | Continue queue' domains' =>
      (forall v, ~ In v (map fst queue) ->
         dom_find v domains' = dom_find v domains) /\
      (forall v, In v (map fst queue') ->
         In v (map fst queue) \/ In v (flat_map arc_vars arcs))
  end.
Proof.
  unfold ac3_step. destruct queue as [| [v1 v2] queue'].
  - intros [= <-]. reflexivity.
  - intros H. bind_inv H. destruct a as [revised domains'].
    apply revise_inv in E. destruct E as (_ & HO & _).
    assert (HF : forall v, ~ In v (map fst ((v1, v2) :: queue')) ->
                   dom_find v domains' = dom_find v domains).
    { intros v Hv. apply HO. intros ->. apply Hv. now left. }
    destruct revised.
    + bind_inv H. destruct (List.length a =? 0).
      * injection H as <-. exact HF.
      * bind_inv H. injection H as <-. split; [exact HF |].
        apply enqueue_inv in E0. destruct E0 as [HI _].
        intros v Hv. apply in_map_iff in Hv. destruct Hv as (arc & <- & Harc).
        destruct (HI arc Harc) as [Hq | [Hn _]].
        -- left. simpl. right. now apply in_map.
        -- right. eapply ac3_neighbors_sub. exact Hn.
    + injection H as <-. split; [exact HF |].
      intros v Hv. left. simpl. now right.
Qed.

Lemma ac3_loop_frame (n : nat) :
  forall arcs queue domains b domains',
    ac3_loop set_iter cw n arcs queue domains = Ok (b, domains') ->
    forall v, ~ In v (map fst queue) -> ~ In v (flat_map arc_vars arcs) ->
      dom_find v domains' = dom_find v domains.
Proof.
  induction n as [| n IH]; simpl; intros arcs queue domains b domains' H;
    [discriminate |].
  bind_inv H. apply ac3_step_frame in E. destruct a as [b0 d0 | q0 d0].
  - injection H as <- <-. intros v Hq _. now apply E.
  - destruct E as [HF HQ]. intros v Hq Ha.
    rewrite (IH _ _ _ _ _ H v); [now apply HF | | exact Ha].
    intros Hv. destruct (HQ v Hv); contradiction.
Qed.

Lemma ac3_frame (arcs : list Arc) (domains : Domains) (b : bool)
    (domains' : Domains) :
  ac3 set_iter cw (Some arcs) domains = Ok (b, domains') ->
  forall v, ~ In v (flat_map arc_vars arcs) ->
    dom_find v domains' = dom_find v domains.
Proof.
  unfold ac3. intros H v Hv. eapply ac3_loop_frame; [exact H | | exact Hv].
  intros Hf. apply Hv. apply in_map_iff in Hf. destruct Hf as ([a b0] & <- & Hin).
  apply in_flat_map. exists (a, b0). split; [exact Hin | now left].
Qed.
End Ac3Facts.

Lemma nodupb_sound (l : list Var) : nodupb l = true -> NoDup l.
Proof.
  induction l as [| x t IH]; simpl; intros H; [constructor |].
  apply andb_true_iff in H. destruct H as [Hx Ht].
  constructor; [| now apply IH].
  intros Hin. apply negb_true_iff in Hx.
  assert (existsb (fun y => negb (var_neqb x y)) t = true) as Hc; [| congruence].
  apply existsb_exists. exists x. split; [exact Hin |].
  unfold var_neqb. destruct (Var_eq_dec x x); [reflexivity | contradiction].
Qed.

Lemma set_list_sub (l : list Var) (x : Var) : In x (set_list l) -> In x l.
Proof. unfold set_list. apply nodup_In. Qed.

Lemma set_list_sup (l : list Var) (x : Var) : In x l -> In x (set_list l).
Proof. unfold set_list. apply nodup_In. Qed.

Lemma set_list_nodup (l : list Var) : NoDup (set_list l).
Proof. unfold set_list. apply NoDup_nodup. Qed.

(** ** Domain monotonicity *)

(** C8. Domain monotonicity: after a call of [revise], a call of [ac3] on
    any arc list, or any sequence of such calls, every slot's domain is a
    subset of the domain the slot had before; words are removed, never
    added. *)
Theorem domain_monotonicity (set_iter : list Var -> list Var) (cw : Crossword)
    (domains domains' : Domains) :
  propagation set_iter cw domains domains' ->
  forall slot d', dom_find slot domains' = Some d' ->
    exists d, dom_find slot domains = Some d /\ incl d' d.
Proof.
  intros H. apply propagation_shrinks in H. destruct H as [_ H]. exact H.
Qed.

Lemma domain_monotonicity_witness :
  propagation set_list (cross [])
    [(slot_a, ["CAT"; "DOG"; "EGG"]); (slot_d, ["EEL"])]%string
    [(slot_a, ["EGG"]); (slot_d, ["EEL"])]%string /\
  exists d,
    dom_find slot_a [(slot_a, ["CAT"; "DOG"; "EGG"]); (slot_d, ["EEL"])]%string
    = Some d /\ incl ["EGG"%string] d.
Proof.
  assert (P : propagation set_list (cross [])
                [(slot_a, ["CAT"; "DOG"; "EGG"]); (slot_d, ["EEL"])]%string
                [(slot_a, ["EGG"]); (slot_d, ["EEL"])]%string).
  { eapply prop_revise with (x := slot_a) (y := slot_d); [reflexivity |].
    eapply prop_ac3 with (arcs := None); [reflexivity |].
    apply prop_none. }
  split; [exact P |].
  apply (domain_monotonicity set_list (cross []) _ _ P slot_a). reflexivity.
Defined.

(** ** Variable selection returns unassigned slots *)

Section SelectFacts.
Variable set_iter : list Var -> list Var.
Variable cw : Crossword.

Lemma min_domain_scan_sub (vars : list Var) (domains : Domains) :
  forall acc min_len l,
    min_domain_scan vars domains acc min_len = Ok l ->
    forall v, In v l -> In v acc \/ In v vars.
Proof.
  induction vars as [| var t IH]; simpl; intros acc min_len l H v Hv.
  - injection H as <-. now left.
  - bind_inv H.
    destruct (lt_min_len (List.length a) min_len).
    + destruct (IH _ _ _ H v Hv) as [[<- | []] | Ht]; auto.
    + destruct (eq_min_len (List.length a) min_len).
      * destruct (IH _ _ _ H v Hv) as [Ha | Ht]; auto.
        apply in_app_or in Ha. destruct Ha as [Ha | [<- | []]]; auto.
      * destruct (IH _ _ _ H v Hv) as [Ha | Ht]; auto.
Qed.

Lemma degree_scan_sub (l : list Var) (v : Var) :
  degree_scan set_iter cw l = Some v -> In v l.
Proof.
  unfold degree_scan.
  assert (G : forall init,
             fold_left
               (fun var_to_return var =>
                  if 0 <? var_degree set_iter cw var then Some var
                  else var_to_return) l init = Some v ->
             init = Some v \/ In v l).
  { induction l as [| x t IH]; simpl; intros init H; [now left |].
    apply IH in H. destruct H as [H | H]; [| auto].
    destruct (0 <? var_degree set_iter cw x).
    - injection H as <-. auto.
    - auto. }
  intros H. apply G in H. destruct H as [H | H]; [discriminate | exact H].
Qed.

Lemma select_unassigned_variable_sub (assignment : Assignment)
    (domains : Domains) (v : Var) :
  select_unassigned_variable set_iter cw assignment domains = Ok (Some v) ->
  asg_find v assignment = None /\ In v (variables cw).
Proof.
  unfold select_unassigned_variable. intros H. bind_inv H. rename a into l.
  assert (Hin : In v l).
  { destruct (1 <? List.length l).
    - injection H as H. now apply degree_scan_sub in H.
    - destruct l as [| x t]; [discriminate |]. injection H as ->. now left. }
  destruct (min_domain_scan_sub _ _ _ _ _ E v Hin) as [[] | Hf].
  apply filter_In in Hf. destruct Hf as [Hv Hm]. split; [| exact Hv].
  unfold asg_mem, dict_mem in Hm. unfold asg_find.
  destruct (dict_find Var_eq_dec v assignment); [discriminate | reflexivity].
Qed.
End SelectFacts.

(** ** Undoing a failed branch *)

Lemma dict_find_key (k : Var) (d : Domains) :
  In k (keys d) -> exists v, dom_find k d = Some v.
Proof.
  intros H. destruct (dom_find k d) as [v |] eqn:E; [now exists v |].
  apply dict_find_None in E. contradiction.
Qed.

Lemma restore_inv (inferred : list Var) (old_domains : Domains) :
  forall domains domains',
    restore inferred old_domains domains = Ok domains' ->
    keys domains = keys old_domains ->
    keys domains' = keys old_domains /\
    (forall v, In v inferred -> dom_find v domains' = dom_find v old_domains) /\
    (forall v, ~ In v inferred -> dom_find v domains' = dom_find v domains).
Proof.
  induction inferred as [| n t IH]; simpl; intros domains domains' H HK.
  - injection H as <-. splits; [exact HK | tauto | reflexivity].
  - bind_inv H. rename a into d. apply dom_get_Ok in E.
    assert (Hn : exists d0, dom_find n domains = Some d0).
    { apply dict_find_key. rewrite HK. eapply dict_find_Some_key. exact E. }
    destruct Hn as (d0 & Hd0).
    assert (HK1 : keys (dom_set n d domains) = keys old_domains).
    { rewrite <- HK. unfold dom_set. eapply keys_dict_set. exact Hd0. }
    destruct (IH _ _ H HK1) as (HK' & HI & HO). splits.
    + exact HK'.
    + intros v [<- | Hv].
      * destruct (in_dec Var_eq_dec n t) as [Hin | Hout]; [now apply HI |].
        rewrite (HO n Hout). unfold dom_find, dom_set.
        rewrite dict_find_set_same. symmetry. exact E.
      * now apply HI.
    + intros v Hv. rewrite HO by tauto.
      unfold dom_find, dom_set. apply dict_find_set_other.
      intros ->. apply Hv. now left.
Qed.

Section RestoreFacts.
Variable set_iter : list Var -> list Var.
Variable cw : Crossword.
Hypothesis set_iter_sub : forall l x, In x (set_iter l) -> In x l.

Lemma try_value_restores (rec : State -> result (option Assignment * State))
    (var : Var) (value : string) (domains : Domains) (assignment : Assignment)
    (st' : State) :
  restoring rec ->
  NoDup (keys domains) ->
  asg_find var assignment = None ->
  try_value set_iter cw rec var value (domains, assignment) = Ok (None, st') ->
  st' = (domains, assignment).
Proof.
  intros Hrec ND Hfresh H. unfold try_value in H.
  bind_inv H. destruct a; [| now injection H as <-].
  bind_inv H. destruct a as [inferred domains2].
  unfold infer in E0. bind_inv E0. destruct a as [b d2].
  injection E0 as <- <-.
  bind_inv H. destruct a as [res [domains3 assignment3]].
  destruct res as [r |]; [discriminate |].
  bind_inv H. rename a into d. apply dom_get_Ok in E2.
  bind_inv H. rename a into assignment4.
  bind_inv H. rename a into domains5. injection H as <-.
  set (domains1 := dom_set var [value] domains) in *.
  assert (HK1 : keys domains1 = keys domains).
  { unfold domains1, dom_set. eapply keys_dict_set. exact E2. }
  pose proof (ac3_shrinks _ _ _ _ _ _ E1) as [HK2 _].
  assert (ND2 : NoDup (keys d2)) by (rewrite HK2, HK1; exact ND).
  pose proof (Hrec (d2, asg_set var value assignment) _ ND2 E0) as Hst.
  injection Hst as -> ->.
  unfold asg_del, asg_set in E3. rewrite dict_del_set_fresh in E3 by exact Hfresh.
  injection E3 as <-.
  assert (Hvar2 : exists d0, dom_find var d2 = Some d0).
  { apply dict_find_key. rewrite HK2, HK1. eapply dict_find_Some_key. exact E2. }
  destruct Hvar2 as (d0 & Hd0).
  assert (HK4 : keys (dom_set var d d2) = keys domains).
  { rewrite <- HK1, <- HK2. unfold dom_set. eapply keys_dict_set. exact Hd0. }
  destruct (restore_inv _ _ _ _ E4 HK4) as (HK5 & HI & HO).
  f_equal. apply (dict_ext Var_eq_dec).
  - rewrite HK5. exact ND.
  - exact HK5.
  - intros k. change (dom_find k domains5 = dom_find k domains).
    destruct (in_dec Var_eq_dec k
                (unassigned_neighbors set_iter cw var
                   (asg_set var value assignment))) as [Hin | Hout].
    + now apply HI.
    + rewrite (HO k Hout). destruct (Var_eq_dec k var) as [-> | Hne].
      * unfold dom_find, dom_set. rewrite dict_find_set_same.
        symmetry. exact E2.
      * unfold dom_find at 1. unfold dom_set.
        rewrite dict_find_set_other by exact Hne.
        change (dom_find k d2 = dom_find k domains).
        rewrite (ac3_frame set_iter cw set_iter_sub _ _ _ _ E1 k).
        -- unfold domains1, dom_find, dom_set.
           now apply dict_find_set_other.
        -- intros Hk. apply in_flat_map in Hk. destruct Hk as (arc & Harc & Hk).
           apply in_map_iff in Harc. destruct Harc as (v1 & <- & Hv1).
           simpl in Hk. destruct Hk as [<- | [<- | []]]; [contradiction | congruence].
Qed.

Lemma try_values_restores (rec : State -> result (option Assignment * State))
    (var : Var) (values : list string) :
  restoring rec ->
  forall domains assignment st',
    NoDup (keys domains) ->
    asg_find var assignment = None ->
    try_values set_iter cw rec var values (domains, assignment) = Ok (None, st') ->
    st' = (domains, assignment).
Proof.
  intros Hrec. induction values as [| value t IH]; simpl;
    intros domains assignment st' ND Hfresh H.
  - now injection H as <-.
  - bind_inv H. destruct a as [res st1]. destruct res as [r |]; [discriminate |].
    apply try_value_restores in E; auto. subst st1. now apply IH.
Qed.

Lemma backtrack_restores (n : nat) : restoring (backtrack set_iter cw n).
Proof.
  induction n as [| n IH]; intros [domains assignment] st' ND H; simpl in H;
    [discriminate |].
  destruct (assignment_complete cw assignment); [discriminate |].
  bind_inv H. destruct a as [var |]; [| discriminate].
  bind_inv H. rename a into values.
  apply select_unassigned_variable_sub in E. destruct E as [Hfresh _].
  eapply try_values_restores; eauto.
Qed.
End RestoreFacts.

(** C5. Backtrack restoration: when a candidate word is tried for the
    selected (unassigned) slot and the loop body does not return a result,
    in particular when the recursive call on the extended assignment returns
    [None] and the restoration step has run, the domain store and the
    assignment are exactly the ones from before the candidate was tried. *)
Theorem backtrack_restoration (set_iter : list Var -> list Var)
    (cw : Crossword) (n : nat) (var : Var) (value : string)
    (domains : Domains) (assignment : Assignment) (st' : State) :
  (forall l x, In x (set_iter l) -> In x l) ->
  NoDup (keys domains) ->
  asg_find var assignment = None ->
  try_value set_iter cw (backtrack set_iter cw n) var value
    (domains, assignment) = Ok (None, st') ->
  st' = (domains, assignment).
Proof.
  intros Hsub ND Hfresh H.
  eapply try_value_restores; eauto using backtrack_restores.
Qed.

Lemma backtrack_restoration_witness :
  (forall l x, In x (set_list l) -> In x l) /\
  NoDup (keys (fst branch_state)) /\
  asg_find slot_a (snd branch_state) = None /\
  try_value set_list (cross []) (backtrack set_list (cross []) 2)
    slot_a "CAT" branch_state = Ok (None, branch_state) /\
  branch_state = branch_state.
Proof.
  assert (ND : NoDup (keys (fst branch_state)))
    by (apply nodupb_sound; reflexivity).
  splits; [exact set_list_sub | exact ND | reflexivity | reflexivity |].
  apply (backtrack_restoration set_list (cross []) 2 slot_a "CAT"
           (fst branch_state) (snd branch_state) branch_state
           set_list_sub ND); reflexivity.
Defined.

(** ** Soundness of the search *)

Section SoundFacts.
Variable set_iter : list Var -> list Var.
Variable cw : Crossword.

Lemma consistent_words_inv (items : Assignment) :
  forall acc,
    consistent_words items acc = true ->
    NoDup acc ->
    NoDup (acc ++ map snd items) /\
    (forall v w, In (v, w) items -> String.length w = var_length v).
Proof.
  induction items as [| [var word] t IH]; simpl; intros acc H ND.
  - rewrite app_nil_r. split; [exact ND | tauto].
  - destruct (String.length word =? var_length var) eqn:HL; simpl in H;
      [| discriminate].
    destruct (existsb (String.eqb word) acc) eqn:HE; simpl in H;
      [discriminate |].
    assert (Hnot : ~ In word acc).
    { intros Hin.
      assert (existsb (String.eqb word) acc = true) as Hc; [| congruence].
      apply existsb_exists. exists word. split; [exact Hin |].
      apply String.eqb_refl. }
    assert (ND' : NoDup (acc ++ [word])).
    { apply NoDup_app; [exact ND | repeat constructor; simpl; tauto |].
      intros a Ha [<- | []]. contradiction. }
    destruct (IH _ H ND') as [HN HF]. split.
    + rewrite <- app_assoc in HN. exact HN.
    + intros v w [[= <- <-] | Hin]; [now apply Nat.eqb_eq | now apply HF].
Qed.

Lemma consistent_inner_inv (v1 : Var) (word1 : string) (items : Assignment) :
  consistent_inner cw v1 word1 items = Ok true ->
  forall v2 word2 i j,
    In (v2, word2) items -> v1 <> v2 ->
    dict_find Arc_eq_dec (v1, v2) (overlaps cw) = Some (Some (i, j)) ->
    exists c, String.get i word1 = Some c /\ String.get j word2 = Some c.
Proof.
  induction items as [| [v w] t IH]; simpl; intros H v2 word2 i j Hin Hne Hov;
    [contradiction |].
  destruct (Var_eq_dec v1 v) as [-> | n].
  - destruct Hin as [[= <- <-] | Hin]; [contradiction | eauto].
  - bind_inv H. apply dict_get_Ok in E.
    destruct Hin as [[= -> ->] | Hin].
    + rewrite Hov in E. injection E as <-.
      bind_inv H. bind_inv H. rename a into c1, a0 into c2.
      destruct (Ascii.eqb c1 c2) eqn:Hc; [| discriminate].
      apply Ascii.eqb_eq in Hc. subst c2. exists c1.
      unfold letter in E, E0.
      destruct (String.get i word1); [| discriminate].
      destruct (String.get j word2); [| discriminate]. split; congruence.
    + destruct a as [[i0 j0] |]; [| eauto].
      bind_inv H. bind_inv H.
      destruct (Ascii.eqb a a0); [eauto | discriminate].
Qed.

Lemma consistent_outer_inv (items assignment : Assignment) :
  consistent_outer cw items assignment = Ok true ->
  forall v1 word1, In (v1, word1) items ->
    consistent_inner cw v1 word1 assignment = Ok true.
Proof.
  induction items as [| [v w] t IH]; simpl; intros H v1 word1 Hin;
    [contradiction |].
  bind_inv H. destruct a; [| discriminate].
  destruct Hin as [[= <- <-] | Hin]; [exact E | eauto].
Qed.

Lemma NoDup_map_snd_distinct (a : Assignment) (v1 v2 : Var) (w : string) :
  NoDup (map snd a) -> In (v1, w) a -> In (v2, w) a -> v1 = v2.
Proof.
  induction a as [| [v0 w0] t IH]; simpl; intros ND H1 H2; [contradiction |].
  inversion ND as [| ? ? Hnot ND']; subst.
  assert (Hsnd : forall v, In (v, w0) t -> False).
  { intros v Hv. apply Hnot. change w0 with (snd (v, w0)). now apply in_map. }
  destruct H1 as [H1 | H1], H2 as [H2 | H2].
  - congruence.
  - injection H1 as _ ->. exfalso. eauto.
  - injection H2 as _ ->. exfalso. eauto.
  - auto.
Qed.

Lemma consistent_sound (a : Assignment) :
  consistent cw a = Ok true -> sound cw a.
Proof.
  unfold consistent. destruct (consistent_words a []) eqn:HW; [| discriminate].
  intros HO. apply consistent_words_inv in HW; [| constructor].
  destruct HW as [ND HL]. simpl in ND. unfold sound. splits.
  - exact HL.
  - intros v1 w1 v2 w2 H1 H2 Hne ->. apply Hne.
    eapply NoDup_map_snd_distinct; eassumption.
  - intros v1 w1 v2 w2 i j H1 H2 Hne Hov.
    eapply consistent_inner_inv; eauto.
    eapply consistent_outer_inv; eauto.
Qed.

Lemma sound_nil : sound cw [].
Proof. unfold sound. splits; intros; contradiction. Qed.

Lemma try_value_checked (rec : State -> result (option Assignment * State))
    (var : Var) (value : string) (st : State) (a : Assignment) (st' : State) :
  checking cw rec ->
  try_value set_iter cw rec var value st = Ok (Some a, st') ->
  consistent cw a = Ok true.
Proof.
  intros Hrec H. destruct st as [domains assignment]. unfold try_value in H.
  bind_inv H. destruct a0; [| discriminate].
  bind_inv H. destruct a0 as [inferred domains2].
  bind_inv H. destruct a0 as [res [domains3 assignment3]].
  destruct res as [r |].
  - injection H as <- <-. apply Hrec in E1. simpl in E1.
    destruct E1 as [-> | E1]; assumption.
  - bind_inv H. bind_inv H. bind_inv H. discriminate.
Qed.

Lemma try_values_checked (rec : State -> result (option Assignment * State))
    (var : Var) (values : list string) :
  checking cw rec ->
  forall st a st',
    try_values set_iter cw rec var values st = Ok (Some a, st') ->
    consistent cw a = Ok true.
Proof.
  intros Hrec. induction values as [| value t IH]; simpl; intros st a st' H;
    [discriminate |].
  bind_inv H. destruct a0 as [res st1]. destruct res as [r |].
  - injection H as <- <-. eapply try_value_checked; eauto.
  - eauto.
Qed.

Lemma backtrack_checked (n : nat) : checking cw (backtrack set_iter cw n).
Proof.
  induction n as [| n IH]; intros [domains assignment] a st' H; simpl in H;
    [discriminate |].
  destruct (assignment_complete cw assignment).
  - injection H as <- _. now left.
  - bind_inv H. destruct a0 as [var |]; [| discriminate].
    bind_inv H. right. eapply try_values_checked; eauto.
Qed.
End SoundFacts.

(** C1. Soundness of solver output: in every assignment that [solve]
    returns, each assigned word has the length of its slot, distinct slots
    hold distinct words, and any two assigned slots with an overlap [(i, j)]
    carry the same letter at positions [i] and [j]. *)
Theorem solve_sound (set_iter : list Var -> list Var) (cw : Crossword)
    (a : Assignment) :
  solve set_iter cw = Ok (Some a) -> sound cw a.
Proof.
  unfold solve. intros H. bind_inv H. destruct a0 as [b domains].
  bind_inv H. destruct a0 as [res st']. injection H as ->.
  apply backtrack_checked in E0. simpl in E0. destruct E0 as [-> | E0].
  - apply sound_nil.
  - now apply consistent_sound.
Qed.

Lemma solve_sound_witness :
  solve set_list (cross ["CAT"; "DOG"; "EEL"; "EGG"]%string)
  = Ok (Some [(slot_d, "EEL"); (slot_a, "EGG")]%string) /\
  sound (cross ["CAT"; "DOG"; "EEL"; "EGG"]%string)
    [(slot_d, "EEL"); (slot_a, "EGG")]%string.
Proof.
  assert (E : solve set_list (cross ["CAT"; "DOG"; "EEL"; "EGG"]%string)
              = Ok (Some [(slot_d, "EEL"); (slot_a, "EGG")]%string))
    by reflexivity.
  split; [exact E |].
  exact (solve_sound set_list (cross ["CAT"; "DOG"; "EEL"; "EGG"]%string) _ E).
Defined.

(** ** Value ordering *)

Lemma first_occurrences_In (l : list string) :
  forall seen w,
    In w (first_occurrences seen l) <-> In w l /\ ~ In w seen.
Proof.
  induction l as [| x t IH]; simpl; intros seen w; [tauto |].
  destruct (in_dec string_dec x seen) as [Hin | Hout].
  - rewrite IH. split.
    + intros [H1 H2]. auto.
    + intros [[<- | H1] H2]; [contradiction | auto].
  - simpl. rewrite IH, in_app_iff. simpl. split.
    + intros [<- | [H1 H2]]; [auto | tauto].
    + intros [[<- | H1] H2]; [now left |].
      destruct (string_dec x w) as [-> | n]; [now left | right].
      split; [exact H1 | tauto].
Qed.

Lemma first_occurrences_NoDup (l : list string) :
  forall seen, NoDup (first_occurrences seen l).
Proof.
  induction l as [| x t IH]; simpl; intros seen; [constructor |].
  destruct (in_dec string_dec x seen); [apply IH |].
  constructor; [| apply IH].
  rewrite first_occurrences_In. intros [_ H]. apply H.
  apply in_or_app. right. now left.
Qed.

Lemma dict_set_In (k0 : string) (v0 : nat) (d : dict string nat)
    (k : string) (v : nat) :
  In (k, v) (dict_set string_dec k0 v0 d) -> In (k, v) d \/ v = v0.
Proof.
  induction d as [| [k' v'] t IH]; simpl.
  - intros [[= <- <-] | []]. now right.
  - destruct (string_dec k0 k') as [-> | n]; simpl.
    + intros [[= <- <-] | H]; auto.
    + intros [H | H]; [auto |]. destruct (IH H); auto.
Qed.

Lemma rules_out_fold (d : list string) :
  forall acc : dict string nat,
    (forall k v, In (k, v) acc -> v = 0) ->
    let r := fold_left (fun acc key => dict_set string_dec key 0 acc) d acc in
    keys r = keys acc ++ first_occurrences (keys acc) d /\
    (forall k v, In (k, v) r -> v = 0).
Proof.
  induction d as [| w t IH]; simpl; intros acc Hz.
  - rewrite app_nil_r. auto.
  - assert (Hz' : forall k v, In (k, v) (dict_set string_dec w 0 acc) -> v = 0).
    { intros k v H. apply dict_set_In in H. destruct H; eauto. }
    destruct (IH _ Hz') as [HK HV]. split; [| exact HV].
    rewrite HK. destruct (in_dec string_dec w (keys acc)) as [Hin | Hout].
    + destruct (dict_find string_dec w acc) as [v0 |] eqn:E.
      * now rewrite (keys_dict_set string_dec w 0 v0 acc E).
      * apply dict_find_None in E. contradiction.
    + apply (proj2 (dict_find_None string_dec w acc)) in Hout.
      rewrite (dict_set_fresh string_dec w 0 acc Hout).
      unfold keys. rewrite map_app. simpl. now rewrite <- app_assoc.
Qed.

Lemma rules_out_init_spec (d : list string) :
  rules_out_init d = map (fun w => (w, 0)) (first_occurrences [] d).
Proof.
  destruct (rules_out_fold d [] (fun k v (H : In (k, v) []) => match H with end))
    as [HK HV].
  simpl in HK, HV. fold (rules_out_init d) in HK, HV.
  revert HK HV. generalize (first_occurrences [] d), (rules_out_init d).
  intros l r. revert l. induction r as [| [k v] t IH]; intros [| w l];
    simpl; intros HK HV; try discriminate; [reflexivity |].
  injection HK as -> HK. rewrite (HV w v) by now left.
  f_equal. apply IH; [exact HK |]. intros k0 v0 H. apply (HV k0 v0). now right.
Qed.

Lemma mapM_map {A B : Type} (f : A -> result B) (g : A -> B) (l : list A)
    (r : list B) :
  (forall a b, In a l -> f a = Ok b -> b = g a) ->
  mapM f l = Ok r -> r = map g l.
Proof.
  revert r. induction l as [| a t IH]; simpl; intros r Hf H.
  - now injection H as <-.
  - bind_inv H. bind_inv H. injection H as <-.
    f_equal; [apply Hf; auto | apply IH; auto].
Qed.

Lemma count_mismatch_spec (word1 : string) (i j : nat) (d : list string) :
  forall acc c,
    count_mismatch word1 i j d acc = Ok c ->
    c = acc
        + List.length (filter (fun word2 => letters_differ word1 i word2 j) d).
Proof.
  induction d as [| word2 t IH]; simpl; intros acc c H.
  - injection H as <-. lia.
  - bind_inv H. bind_inv H. apply IH in H.
    unfold letter in E, E0. unfold letters_differ at 1.
    destruct (String.get i word1); [| discriminate].
    destruct (String.get j word2); [| discriminate].
    injection E as ->. injection E0 as ->.
    destruct (Ascii.eqb a a0); simpl; lia.
Qed.

Section OrderFacts.
Variable set_iter : list Var -> list Var.
Variable cw : Crossword.
Hypothesis set_iter_nodup : forall l, NoDup (set_iter l).
Hypothesis set_iter_in : forall l x, In x (set_iter l) <-> In x l.

Lemma count_ruled_out_spec (domains : Domains) (var : Var) (word1 : string)
    (neighbors : list Var) :
  forall acc c,
    count_ruled_out cw var word1 neighbors domains acc = Ok c ->
    c = acc + list_sum (map (eliminated cw domains var word1) neighbors).
Proof.
  induction neighbors as [| n t IH]; simpl; intros acc c H.
  - injection H as <-. lia.
  - bind_inv H. apply dict_get_Ok in E. unfold eliminated at 1. rewrite E.
    destruct a as [[i j] |].
    + bind_inv H. apply dom_get_Ok in E0. rewrite E0.
      bind_inv H. apply count_mismatch_spec in E1. apply IH in H. lia.
    + apply IH in H. lia.
Qed.

Lemma sum_filter_zero (f : Var -> nat) (p : Var -> bool) (l : list Var) :
  (forall x, p x = false -> f x = 0) ->
  list_sum (map f l) = list_sum (map f (filter p l)).
Proof.
  intros Hz. induction l as [| x t IH]; simpl; [reflexivity |].
  destruct (p x) eqn:E; simpl; [now rewrite IH |].
  now rewrite (Hz x E), IH.
Qed.

Lemma has_overlap_slots (var n : Var) :
  has_overlap cw var n = true ->
  In n (flat_map arc_vars (var_arcs cw var)) /\ In n (overlap_slots cw).
Proof.
  unfold has_overlap.
  destruct (dict_find Arc_eq_dec (var, n) (overlaps cw)) as [[ij |] |] eqn:E;
    try discriminate.
  intros _. apply dict_find_In in E. split.
  - apply in_flat_map. exists (var, n). split; [| simpl; auto].
    unfold var_arcs. change (var, n) with (fst ((var, n), Some ij)).
    apply in_map. apply filter_In. split; [exact E |]. simpl.
    unfold in_arc. simpl. destruct (Var_eq_dec var var); [reflexivity | contradiction].
  - unfold overlap_slots. apply nodup_In. apply in_flat_map.
    exists (var, n). split; [| simpl; auto].
    unfold keys. change (var, n) with (fst ((var, n), Some ij)).
    now apply in_map.
Qed.

Lemma neighbors_permutation (assignment : Assignment) (var : Var) :
  Permutation
    (filter (has_overlap cw var) (unassigned_neighbors set_iter cw var assignment))
    (overlapping_unassigned cw assignment var).
Proof.
  apply NoDup_Permutation.
  - apply NoDup_filter, set_iter_nodup.
  - apply NoDup_filter. unfold overlap_slots. apply NoDup_nodup.
  - intros n. unfold unassigned_neighbors, overlapping_unassigned.
    rewrite !filter_In, set_iter_in, filter_In, !andb_true_iff. split.
    + intros [[Hn [H1 H2]] H3]. destruct (has_overlap_slots _ _ H3). tauto.
    + intros [Hn [[H1 H2] H3]]. destruct (has_overlap_slots _ _ H3). tauto.
Qed.

Lemma neighbors_sum (domains : Domains) (assignment : Assignment) (var : Var)
    (word1 : string) :
  list_sum (map (eliminated cw domains var word1)
              (unassigned_neighbors set_iter cw var assignment))
  = ruled_out cw domains assignment var word1.
Proof.
  unfold ruled_out.
  rewrite (sum_filter_zero _ (has_overlap cw var)).
  - apply Permutation_list_sum, Permutation_map, neighbors_permutation.
  - intros n. unfold has_overlap, eliminated.
    destruct (dict_find Arc_eq_dec (var, n) (overlaps cw)) as [[ij |] |];
      [discriminate | reflexivity | reflexivity].
Qed.
End OrderFacts.

(** *** The stable sort *)

Lemma insert_by_count_perm (p : string * nat) (l : list (string * nat)) :
  Permutation (insert_by_count p l) (p :: l).
Proof.
  induction l as [| q t IH]; simpl; [apply Permutation_refl |].
  destruct (snd p <=? snd q); [apply Permutation_refl |].
  eapply perm_trans; [apply perm_skip, IH | apply perm_swap].
Qed.

Lemma sorted_by_count_perm (l : list (string * nat)) :
  Permutation (sorted_by_count l) l.
Proof.
  induction l as [| p t IH]; simpl; [apply perm_nil |].
  eapply perm_trans; [apply insert_by_count_perm | now apply perm_skip].
Qed.

Lemma insert_by_count_sorted (p : string * nat) (l : list (string * nat)) :
  Sorted le_count l -> Sorted le_count (insert_by_count p l).
Proof.
  induction l as [| q t IH]; simpl; intros HS.
  - repeat constructor.
  - destruct (snd p <=? snd q) eqn:E.
    + apply Nat.leb_le in E. constructor; [exact HS | now constructor].
    + apply Nat.leb_gt in E. inversion HS as [| ? ? HS' HR]; subst.
      constructor; [now apply IH |].
      destruct t as [| q' t']; simpl.
      * constructor. unfold le_count. lia.
      * destruct (snd p <=? snd q').
        -- constructor. unfold le_count. lia.
        -- inversion HR; subst. now constructor.
Qed.

Lemma sorted_by_count_sorted (l : list (string * nat)) :
  Sorted le_count (sorted_by_count l).
Proof.
  induction l as [| p t IH]; simpl; [constructor |].
  now apply insert_by_count_sorted.
Qed.

Lemma insert_by_count_stable (c : nat) (p : string * nat)
    (l : list (string * nat)) :
  filter (fun q => snd q =? c) (insert_by_count p l)
  = filter (fun q => snd q =? c) (p :: l).
Proof.
  induction l as [| q t IH]; simpl; [reflexivity |].
  destruct (snd p <=? snd q) eqn:E; [reflexivity |].
  apply Nat.leb_gt in E. simpl. rewrite IH. simpl.
  destruct (snd p =? c) eqn:Ep; [| reflexivity].
  apply Nat.eqb_eq in Ep.
  assert ((snd q =? c) = false) as -> by (apply Nat.eqb_neq; lia).
  reflexivity.
Qed.

Lemma sorted_by_count_stable (c : nat) (l : list (string * nat)) :
  filter (fun q => snd q =? c) (sorted_by_count l)
  = filter (fun q => snd q =? c) l.
Proof.
  induction l as [| p t IH]; simpl; [reflexivity |].
  rewrite insert_by_count_stable. simpl. now rewrite IH.
Qed.

Lemma sorted_map_fst (cnt : string -> nat) (l : list (string * nat)) :
  (forall p, In p l -> snd p = cnt (fst p)) ->
  StronglySorted le_count l ->
  StronglySorted (fun w1 w2 => cnt w1 <= cnt w2) (map fst l).
Proof.
  intros Hc HS. induction HS as [| p t HS IH HF]; simpl; constructor.
  - apply IH. intros q Hq. apply Hc. now right.
  - apply Forall_forall. intros w Hw. apply in_map_iff in Hw.
    destruct Hw as (q & <- & Hq).
    rewrite Forall_forall in HF. specialize (HF q Hq). unfold le_count in HF.
    rewrite <- (Hc p) by now left. rewrite <- (Hc q) by now right. exact HF.
Qed.

Lemma filter_map_fst (cnt : string -> nat) (c : nat) (l : list (string * nat)) :
  (forall p, In p l -> snd p = cnt (fst p)) ->
  filter (fun w => cnt w =? c) (map fst l)
  = map fst (filter (fun p => snd p =? c) l).
Proof.
  induction l as [| p t IH]; simpl; intros Hc; [reflexivity |].
  rewrite <- (Hc p) by now left.
  rewrite IH by (intros q Hq; apply Hc; now right).
  now destruct (snd p =? c).
Qed.

(** C9. Value ordering: [order_domain_values] returns the words of the
    slot's current domain, each once, sorted in ascending order of the
    number of conflicts [ruled_out] (over the unassigned overlapping
    neighbours, the words of the neighbour's domain whose letter at the
    overlap position differs from the candidate's), and words with equal
    counts keep the relative order they have in the domain. *)
Theorem order_domain_values_sorted (set_iter : list Var -> list Var)
    (cw : Crossword) (var : Var) (assignment : Assignment) (domains : Domains)
    (l : list string) :
  (forall l0, NoDup (set_iter l0)) ->
  (forall l0 x, In x (set_iter l0) <-> In x l0) ->
  order_domain_values set_iter cw var assignment domains = Ok l ->
  exists d,
    dom_find var domains = Some d /\
    NoDup l /\
    (forall w, In w l <-> In w d) /\
    StronglySorted
      (fun w1 w2 =>
         ruled_out cw domains assignment var w1
         <= ruled_out cw domains assignment var w2) l /\
    (forall c,
       filter (fun w => ruled_out cw domains assignment var w =? c) l
       = filter (fun w => ruled_out cw domains assignment var w =? c)
           (first_occurrences [] d)).
Proof.
  intros Hnd Hin H. unfold order_domain_values in H.
  bind_inv H. rename a into d. apply dom_get_Ok in E. exists d.
  bind_inv H. rename a into rules_out. injection H as <-.
  set (cnt := ruled_out cw domains assignment var).
  assert (HR : rules_out = map (fun w => (w, cnt w)) (first_occurrences [] d)).
  { rewrite rules_out_init_spec in E0.
    apply (mapM_map _ (fun p : string * nat => (fst p, cnt (fst p)))) in E0.
    - rewrite E0, map_map. reflexivity.
    - intros [word1 c0] b Ha Hb. apply in_map_iff in Ha.
      destruct Ha as (w & [= <- <-] & _). bind_inv Hb. injection Hb as <-.
      apply (count_ruled_out_spec cw) in E1. simpl. f_equal.
      rewrite E1. simpl. unfold cnt. now apply neighbors_sum. }
  assert (Hc : forall p, In p (sorted_by_count rules_out) -> snd p = cnt (fst p)).
  { intros p Hp.
    apply (Permutation_in _ (sorted_by_count_perm rules_out)) in Hp.
    rewrite HR in Hp. apply in_map_iff in Hp. now destruct Hp as (w & <- & _). }
  assert (HP : Permutation (map fst (sorted_by_count rules_out))
                 (first_occurrences [] d)).
  { eapply perm_trans; [apply Permutation_map, sorted_by_count_perm |].
    rewrite HR, map_map. simpl. rewrite map_id. apply Permutation_refl. }
  splits.
  - exact E.
  - eapply Permutation_NoDup; [apply Permutation_sym, HP |].
    apply first_occurrences_NoDup.
  - intros w. split; intros Hw.
    + apply (Permutation_in _ HP) in Hw.
      apply first_occurrences_In in Hw. tauto.
    + apply (Permutation_in _ (Permutation_sym HP)).
      apply first_occurrences_In. simpl. tauto.
  - apply sorted_map_fst; [exact Hc |].
    apply Sorted_StronglySorted; [| apply sorted_by_count_sorted].
    intros x y z. unfold le_count. lia.
  - intros c. rewrite (filter_map_fst cnt c _ Hc), sorted_by_count_stable.
    rewrite <- (filter_map_fst cnt c).
    + rewrite HR, map_map. simpl. now rewrite map_id.
    + intros p Hp. rewrite HR in Hp. apply in_map_iff in Hp.
      now destruct Hp as (w & <- & _).
Qed.

Lemma set_list_in (l : list Var) (x : Var) : In x (set_list l) <-> In x l.
Proof. unfold set_list. apply nodup_In. Qed.

Lemma order_domain_values_sorted_witness :
  (forall l0, NoDup (set_list l0)) /\
  (forall l0 x, In x (set_list l0) <-> In x l0) /\
  order_domain_values set_list (cross []) slot_a [] ties_store
  = Ok ["CAT"; "EGG"; "DOG"]%string /\
  exists d,
    dom_find slot_a ties_store = Some d /\
    NoDup ["CAT"; "EGG"; "DOG"]%string /\
    (forall w, In w ["CAT"; "EGG"; "DOG"]%string <-> In w d) /\
    StronglySorted
      (fun w1 w2 =>
         ruled_out (cross []) ties_store [] slot_a w1
         <= ruled_out (cross []) ties_store [] slot_a w2)
      ["CAT"; "EGG"; "DOG"]%string /\
    (forall c,
       filter (fun w => ruled_out (cross []) ties_store [] slot_a w =? c)
         ["CAT"; "EGG"; "DOG"]%string
       = filter (fun w => ruled_out (cross []) ties_store [] slot_a w =? c)
           (first_occurrences [] d)).
Proof.
  splits; [exact set_list_nodup | exact set_list_in | reflexivity |].
  apply (order_domain_values_sorted set_list (cross []) slot_a [] ties_store
           ["CAT"; "EGG"; "DOG"]%string set_list_nodup set_list_in).
  reflexivity.
Defined.

(** ** Where the code departs from its documentation *)

(** C2. [revise] on the crossing grid with the across slot holding CAT and
    DOG and the down slot holding EEL: CAT is removed, the iterator then
    stands past the end of the shortened list, and DOG stays although EEL
    offers no D. *)
Theorem revise_skips_after_removal :
  revise (cross []) slot_a slot_d unsupported_store
  = Ok (true, [(slot_a, ["DOG"]); (slot_d, ["EEL"])]%string) /\
  can_overlap "DOG" ["EEL"%string] (0, 0) = Ok false.
Proof. split; reflexivity. Qed.

(** C3. [select_unassigned_variable] on ties: with two slots that take
    part in no overlap it returns [None]; on the fork, where all three
    slots tie on domain size, it returns the last slot down, whose degree
    is below that of the slot across. *)
Theorem select_unassigned_variable_ties :
  select_unassigned_variable set_list (parallel []) []
    [(slot_a, ["CAT"]); (slot_b, ["CAT"])]%string = Ok None /\
  select_unassigned_variable set_list (fork []) []
    [(slot_a, ["CAT"; "DOG"]); (slot_d, ["CAT"; "DOG"]);
     (slot_e, ["CAT"; "DOG"])]%string = Ok (Some slot_e) /\
  var_degree set_list (fork []) slot_e < var_degree set_list (fork []) slot_a.
Proof. splits; [reflexivity | reflexivity | vm_compute; lia]. Qed.

(** C4. Two runs of [ac3] with the default arcs: the first run leaves DOG
    in the across slot, the second run removes it. *)
Theorem ac3_second_run_removes :
  ac3 set_list (cross []) None egg_store
  = Ok (true, [(slot_a, ["DOG"; "EGG"]); (slot_d, ["EEL"])]%string) /\
  ac3 set_list (cross []) None
    [(slot_a, ["DOG"; "EGG"]); (slot_d, ["EEL"])]%string
  = Ok (true, [(slot_a, ["EGG"]); (slot_d, ["EEL"])]%string).
Proof. split; reflexivity. Qed.

(** C6. [ac3] after node consistency on the crossing grid with a
    dictionary that has no word of three letters: both domains are empty
    and [ac3] returns [True]. *)
Theorem ac3_true_with_empty_domain :
  enforce_node_consistency (init_domains (cross ["AB"%string]))
  = [(slot_a, []); (slot_d, [])] /\
  ac3 set_list (cross ["AB"%string]) None [(slot_a, []); (slot_d, [])]
  = Ok (true, [(slot_a, []); (slot_d, [])]).
Proof. split; reflexivity. Qed.

(** C7. One iteration of [ac3] on the crossing grid: revising the arc
    (across, down) removes CAT and leaves the domain non-empty, and the arc
    (down, across), the reverse of the revised arc, is appended to the
    queue. *)
Theorem ac3_reenqueues_reverse_arc :
  all_arcs (cross []) = [(slot_a, slot_d); (slot_d, slot_a)] /\
  ac3_step set_list (cross []) (all_arcs (cross []))
    [(slot_a, slot_d); (slot_d, slot_a)] egg_store
  = Ok (Continue [(slot_d, slot_a); (slot_d, slot_a)]
          [(slot_a, ["DOG"; "EGG"]); (slot_d, ["EEL"])]%string).
Proof. split; reflexivity. Qed.

(** C10. [solve] on two slots that do not cross with the one-word
    dictionary CAT: no complete consistent assignment exists, and the run
    ends with a [KeyError] instead of returning [None]. *)
Theorem solve_raises_on_unsolvable :
  solve set_list (parallel ["CAT"%string]) = Raise KeyError /\
  forall a, ~ solution (parallel ["CAT"%string]) a.
Proof.
  split; [reflexivity |].
  intros a [(_ & HD & _) HC].
  destruct (HC slot_a) as (w1 & H1 & Hw1); [simpl; auto |].
  destruct (HC slot_b) as (w2 & H2 & Hw2); [simpl; auto |].
  simpl in Hw1, Hw2. destruct Hw1 as [<- | []]. destruct Hw2 as [<- | []].
  apply (HD slot_a "CAT"%string slot_b "CAT"%string H1 H2); [discriminate | reflexivity].
Qed.

(** ** The budgets are enough *)

Lemma bind_fueled {A B : Type} (c : result A) (k : A -> result B) :
  fueled c -> (forall a, c = Ok a -> fueled (k a)) -> fueled (bind c k).
Proof.
  unfold fueled. destruct c as [a | e |]; simpl; intros Hc Hk.
  - now apply Hk.
  - discriminate.
  - contradiction.
Qed.

Lemma Ok_fueled {A : Type} (a : A) : fueled (Ok a).
Proof. discriminate. Qed.

Lemma Raise_fueled {A : Type} (e : exn) : fueled (@Raise A e).
Proof. discriminate. Qed.

Lemma dict_get_fueled {K V : Type} (dec : forall a b : K, {a = b} + {a <> b})
    (k : K) (d : dict K V) :
  fueled (dict_get dec k d).
Proof. unfold dict_get. destruct (dict_find dec k d); discriminate. Qed.

Lemma letter_fueled (word : string) (k : nat) : fueled (letter word k).
Proof. unfold letter. destruct (String.get k word); discriminate. Qed.

Lemma mapM_fueled {A B : Type} (f : A -> result B) (l : list A) :
  (forall a, fueled (f a)) -> fueled (mapM f l).
Proof.
  intros Hf. induction l as [| a t IH]; simpl; [apply Ok_fueled |].
  apply bind_fueled; [apply Hf | intros b _].
  apply bind_fueled; [exact IH | intros bs _; apply Ok_fueled].
Qed.

Create HintDb fuel.

#[local] Hint Resolve Ok_fueled Raise_fueled dict_get_fueled letter_fueled
  : fuel.

Ltac fuel_bind :=
  apply bind_fueled; [auto with fuel | intros ? ?].

Lemma can_overlap_fueled (word : string) (domain : list string)
    (overlap : nat * nat) :
  fueled (can_overlap word domain overlap).
Proof.
  unfold can_overlap. destruct overlap as [i j].
  apply bind_fueled; [apply mapM_fueled; auto with fuel | intros ? ?].
  fuel_bind. auto with fuel.
Qed.

Lemma revise_loop_fueled (n : nat) :
  forall idx x y ov revised domains dx,
    dom_find x domains = Some dx ->
    1 <= n -> List.length dx + 1 <= n + idx ->
    fueled (revise_loop n idx x y ov revised domains).
Proof.
  induction n as [| n IH]; intros idx x y ov revised domains dx Hx Hn Hlen;
    [lia |].
  simpl. unfold dom_get at 1, dict_get. unfold dom_find in Hx. rewrite Hx.
  simpl. destruct (nth_error dx idx) as [word |] eqn:Hnth; [| auto with fuel].
  assert (Hidx : idx < List.length dx).
  { apply nth_error_Some. congruence. }
  apply bind_fueled; [unfold dom_get; auto with fuel | intros dy _].
  apply bind_fueled; [apply can_overlap_fueled | intros c _].
  destruct c.
  - apply (IH _ _ _ _ _ _ dx); [exact Hx | lia | lia].
  - apply (IH _ _ _ _ _ _ (list_remove string_dec word dx)).
    + unfold dom_find, dom_set. apply dict_find_set_same.
    + lia.
    + pose proof (list_remove_length string_dec word dx
                    (nth_error_In _ _ Hnth)). lia.
Qed.

Section FuelFacts.
Variable set_iter : list Var -> list Var.
Variable cw : Crossword.

Lemma overlaps_get_fueled (x y : Var) : fueled (overlaps_get cw x y).
Proof. unfold overlaps_get. auto with fuel. Qed.

Lemma revise_fueled (x y : Var) (domains : Domains) :
  fueled (revise cw x y domains).
Proof.
  unfold revise. apply bind_fueled; [apply overlaps_get_fueled | intros o _].
  destruct o as [ov |]; [| auto with fuel].
  apply bind_fueled; [unfold dom_get; auto with fuel | intros dx Hdx].
  apply dom_get_Ok in Hdx.
  apply (revise_loop_fueled _ _ _ _ _ _ _ dx); [exact Hdx | lia | lia].
Qed.

Lemma enqueue_fueled (v1 : Var) (neighbors : list Var) :
  forall queue, fueled (enqueue cw v1 neighbors queue).
Proof.
  induction neighbors as [| var t IH]; simpl; intros queue; [auto with fuel |].
  apply bind_fueled; [apply overlaps_get_fueled | intros o _].
  destruct (is_some o); apply IH.
Qed.

Lemma ac3_step_fueled (arcs queue : list Arc) (domains : Domains) :
  fueled (ac3_step set_iter cw arcs queue domains).
Proof.
  unfold ac3_step. destruct queue as [| [v1 v2] queue']; [auto with fuel |].
  apply bind_fueled; [apply revise_fueled | intros [revised domains'] _].
  destruct revised; [| auto with fuel].
  apply bind_fueled; [unfold dom_get; auto with fuel | intros d1 _].
  destruct (List.length d1 =? 0); [auto with fuel |].
  apply bind_fueled; [apply enqueue_fueled | intros q _]. auto with fuel.
Qed.

Hypothesis set_iter_nodup : forall l, NoDup (set_iter l).
Hypothesis set_iter_sub : forall l x, In x (set_iter l) -> In x l.

Lemma filter_length_le {A : Type} (f : A -> bool) (l : list A) :
  List.length (filter f l) <= List.length l.
Proof.
  induction l as [| a t IH]; simpl; [lia |]. destruct (f a); simpl; lia.
Qed.

Lemma arc_vars_length (l : list Arc) :
  List.length (flat_map arc_vars l) = 2 * List.length l.
Proof. induction l as [| a t IH]; simpl; lia. Qed.

Lemma ac3_neighbors_length (arcs : list Arc) (v1 : Var) :
  List.length (ac3_neighbors set_iter arcs v1) <= 2 * List.length arcs.
Proof.
  unfold ac3_neighbors.
  eapply Nat.le_trans;
    [apply NoDup_incl_length;
       [apply set_iter_nodup | intros x; apply set_iter_sub] |].
  eapply Nat.le_trans; [apply filter_length_le |].
  rewrite arc_vars_length.
  pose proof (filter_length_le (in_arc v1) arcs). lia.
Qed.

(** Every iteration that goes on lowers
    [total_size domains * (2 * len(arcs) + 1) + len(queue)]. *)
Lemma ac3_step_measure (arcs queue : list Arc) (domains : Domains)
    (queue' : list Arc) (domains' : Domains) :
  ac3_step set_iter cw arcs queue domains = Ok (Continue queue' domains') ->
  total_size domains' * S (2 * List.length arcs) + List.length queue'
  < total_size domains * S (2 * List.length arcs) + List.length queue.
Proof.
  unfold ac3_step. destruct queue as [| [v1 v2] q0]; [discriminate |].
  intros H. bind_inv H. destruct a as [revised d1].
  apply revise_inv in E. destruct E as (_ & _ & _ & HF & HT).
  destruct revised.
  - bind_inv H. destruct (List.length a =? 0); [discriminate |].
    bind_inv H. injection H as <- <-.
    apply enqueue_inv in E0. destruct E0 as [_ HL].
    pose proof (ac3_neighbors_length arcs v1) as HN.
    specialize (HT eq_refl). simpl. nia.
  - injection H as <- <-. rewrite (HF eq_refl). simpl. lia.
Qed.

Lemma ac3_loop_fueled (n : nat) :
  forall arcs queue domains,
    total_size domains * S (2 * List.length arcs) + List.length queue < n ->
    fueled (ac3_loop set_iter cw n arcs queue domains).
Proof.
  induction n as [| n IH]; intros arcs queue domains Hlt; [lia |].
  simpl. apply bind_fueled; [apply ac3_step_fueled | intros o Ho].
  destruct o as [b d | q d]; [auto with fuel |].
  apply IH. apply ac3_step_measure in Ho. lia.
Qed.

Lemma ac3_fueled (arcs : option (list Arc)) (domains : Domains) :
  fueled (ac3 set_iter cw arcs domains).
Proof.
  unfold ac3. apply ac3_loop_fueled. unfold ac3_fuel. lia.
Qed.
End FuelFacts.

Lemma filter_length_mono {A : Type} (p q : A -> bool) (l : list A) :
  (forall a, p a = true -> q a = true) ->
  List.length (filter p l) <= List.length (filter q l).
Proof.
  intros Hpq. induction l as [| a t IH]; simpl; [lia |].
  destruct (p a) eqn:Ep.
  - rewrite (Hpq a Ep). simpl. lia.
  - destruct (q a); simpl; lia.
Qed.

Lemma filter_length_lt {A : Type} (p q : A -> bool) (l : list A) (x : A) :
  (forall a, p a = true -> q a = true) ->
  In x l -> q x = true -> p x = false ->
  List.length (filter p l) < List.length (filter q l).
Proof.
  intros Hpq Hin Hq Hp. induction l as [| a t IH]; simpl; [contradiction |].
  destruct Hin as [-> | Hin].
  - rewrite Hp, Hq. simpl.
    pose proof (filter_length_mono p q t Hpq). lia.
  - specialize (IH Hin). destruct (p a) eqn:Ep.
    + rewrite (Hpq a Ep). simpl. lia.
    + destruct (q a); simpl; lia.
Qed.

Lemma keys_dict_set_NoDup (k : Var) (v : list string) (d : Domains) :
  NoDup (keys d) -> NoDup (keys (dom_set k v d)).
Proof.
  intros ND. destruct (dom_find k d) as [v0 |] eqn:E.
  - unfold dom_set. now rewrite (keys_dict_set Var_eq_dec k v v0 d E).
  - unfold dom_set. rewrite (dict_set_fresh Var_eq_dec k v d E).
    unfold keys. rewrite map_app. simpl.
    apply NoDup_app; [exact ND | repeat constructor; simpl; tauto |].
    intros a Ha [<- | []]. apply dict_find_None in E. contradiction.
Qed.

Section SearchFuel.
Variable set_iter : list Var -> list Var.
Variable cw : Crossword.
Hypothesis set_iter_nodup : forall l, NoDup (set_iter l).
Hypothesis set_iter_sub : forall l x, In x (set_iter l) -> In x l.

Lemma consistent_inner_fueled (v1 : Var) (word1 : string) (items : Assignment) :
  fueled (consistent_inner cw v1 word1 items).
Proof.
  induction items as [| [v2 word2] t IH]; simpl; [auto with fuel |].
  destruct (Var_eq_dec v1 v2); [exact IH |].
  apply bind_fueled; [apply overlaps_get_fueled | intros o _].
  destruct o as [[i j] |]; [| exact IH].
  fuel_bind. fuel_bind. destruct (Ascii.eqb a a0); auto with fuel.
Qed.

Lemma consistent_outer_fueled (items assignment : Assignment) :
  fueled (consistent_outer cw items assignment).
Proof.
  induction items as [| [v1 word1] t IH]; simpl; [auto with fuel |].
  apply bind_fueled; [apply consistent_inner_fueled | intros ok _].
  destruct ok; auto with fuel.
Qed.

Lemma consistent_fueled (assignment : Assignment) :
  fueled (consistent cw assignment).
Proof.
  unfold consistent. destruct (consistent_words assignment []);
    [apply consistent_outer_fueled | auto with fuel].
Qed.

Lemma min_domain_scan_fueled (vars : list Var) (domains : Domains) :
  forall acc min_len, fueled (min_domain_scan vars domains acc min_len).
Proof.
  induction vars as [| var t IH]; simpl; intros acc min_len; [auto with fuel |].
  apply bind_fueled; [unfold dom_get; auto with fuel | intros d _].
  destruct (lt_min_len (List.length d) min_len); [apply IH |].
  destruct (eq_min_len (List.length d) min_len); apply IH.
Qed.

Lemma select_unassigned_variable_fueled (assignment : Assignment)
    (domains : Domains) :
  fueled (select_unassigned_variable set_iter cw assignment domains).
Proof.
  unfold select_unassigned_variable.
  apply bind_fueled; [apply min_domain_scan_fueled | intros l _].
  destruct (1 <? List.length l); [auto with fuel |].
  destruct l; auto with fuel.
Qed.

Lemma count_mismatch_fueled (word1 : string) (i j : nat) (d : list string) :
  forall acc, fueled (count_mismatch word1 i j d acc).
Proof.
  induction d as [| word2 t IH]; simpl; intros acc; [auto with fuel |].
  fuel_bind. fuel_bind. apply IH.
Qed.

Lemma count_ruled_out_fueled (var : Var) (word1 : string)
    (neighbors : list Var) (domains : Domains) :
  forall acc, fueled (count_ruled_out cw var word1 neighbors domains acc).
Proof.
  induction neighbors as [| n t IH]; simpl; intros acc; [auto with fuel |].
  apply bind_fueled; [apply overlaps_get_fueled | intros o _].
  destruct o as [[i j] |]; [| apply IH].
  apply bind_fueled; [unfold dom_get; auto with fuel | intros d _].
  apply bind_fueled; [apply count_mismatch_fueled | intros acc' _]. apply IH.
Qed.

Lemma order_domain_values_fueled (var : Var) (assignment : Assignment)
    (domains : Domains) :
  fueled (order_domain_values set_iter cw var assignment domains).
Proof.
  unfold order_domain_values.
  apply bind_fueled; [unfold dom_get; auto with fuel | intros d _].
  apply bind_fueled; [| intros r _; auto with fuel].
  apply mapM_fueled. intros [word1 c0].
  apply bind_fueled; [apply count_ruled_out_fueled | intros c _].
  auto with fuel.
Qed.

Lemma infer_fueled (assignment : Assignment) (var : Var) (domains : Domains) :
  fueled (infer set_iter cw assignment var domains).
Proof.
  unfold infer.
  apply bind_fueled; [now apply ac3_fueled | intros [b d] _]. auto with fuel.
Qed.

Lemma restore_fueled (inferred : list Var) (old_domains : Domains) :
  forall domains, fueled (restore inferred old_domains domains).
Proof.
  induction inferred as [| n t IH]; simpl; intros domains; [auto with fuel |].
  apply bind_fueled; [unfold dom_get; auto with fuel | intros d _]. apply IH.
Qed.

Lemma asg_del_fueled (var : Var) (assignment : Assignment) :
  fueled (asg_del var assignment).
Proof.
  unfold asg_del, dict_del. destruct (dict_mem Var_eq_dec var assignment);
    auto with fuel.
Qed.

Lemma try_value_fueled (rec : State -> result (option Assignment * State))
    (var : Var) (value : string) (domains : Domains) (assignment : Assignment) :
  NoDup (keys domains) ->
  (forall d, NoDup (keys d) -> fueled (rec (d, asg_set var value assignment))) ->
  fueled (try_value set_iter cw rec var value (domains, assignment)).
Proof.
  intros ND Hrec. unfold try_value.
  apply bind_fueled; [apply consistent_fueled | intros ok _].
  destruct ok; [| auto with fuel].
  apply bind_fueled; [apply infer_fueled | intros [inferred d2] Hinf].
  unfold infer in Hinf. bind_inv Hinf. destruct a as [b d2'].
  injection Hinf as _ ->.
  pose proof (ac3_shrinks _ _ _ _ _ _ E) as [HK _].
  apply bind_fueled.
  - apply Hrec. rewrite HK. now apply keys_dict_set_NoDup.
  - intros [res [d3 a3]] _. destruct res; [auto with fuel |].
    apply bind_fueled; [unfold dom_get; auto with fuel | intros d _].
    apply bind_fueled; [apply asg_del_fueled | intros a4 _].
    apply bind_fueled; [apply restore_fueled | intros d5 _]. auto with fuel.
Qed.

Lemma try_values_fueled (rec : State -> result (option Assignment * State))
    (var : Var) (values : list string) (domains : Domains)
    (assignment : Assignment) :
  restoring rec ->
  NoDup (keys domains) ->
  asg_find var assignment = None ->
  (forall d value,
     NoDup (keys d) -> fueled (rec (d, asg_set var value assignment))) ->
  fueled (try_values set_iter cw rec var values (domains, assignment)).
Proof.
  intros Hres ND Hfresh Hrec.
  induction values as [| value t IH]; simpl; [auto with fuel |].
  apply bind_fueled; [apply try_value_fueled; auto | intros [res st1] Hst1].
  destruct res as [r |]; [auto with fuel |].
  apply try_value_restores in Hst1; auto. now subst st1.
Qed.

Lemma unassigned_shrinks (var : Var) (value : string) (assignment : Assignment) :
  In var (variables cw) ->
  asg_find var assignment = None ->
  List.length (unassigned cw (asg_set var value assignment))
  < List.length (unassigned cw assignment).
Proof.
  intros Hin Hfresh. unfold unassigned.
  apply filter_length_lt with (x := var); [| exact Hin | |].
  - intros v. unfold asg_mem, dict_mem, asg_set.
    destruct (Var_eq_dec v var) as [-> | n].
    + now rewrite dict_find_set_same.
    + now rewrite dict_find_set_other.
  - unfold asg_mem, dict_mem. unfold asg_find in Hfresh. now rewrite Hfresh.
  - unfold asg_mem, dict_mem, asg_set. now rewrite dict_find_set_same.
Qed.

(** The recursion of [backtrack] is as deep as there are unassigned slots. *)
Lemma backtrack_fueled (n : nat) :
  forall domains assignment,
    NoDup (keys domains) ->
    List.length (unassigned cw assignment) < n ->
    fueled (backtrack set_iter cw n (domains, assignment)).
Proof.
  induction n as [| n IH]; intros domains assignment ND Hlt; [lia |].
  simpl. destruct (assignment_complete cw assignment); [auto with fuel |].
  apply bind_fueled;
    [apply select_unassigned_variable_fueled | intros var Hsel].
  destruct var as [var |]; [| auto with fuel].
  apply select_unassigned_variable_sub in Hsel. destruct Hsel as [Hfresh Hin].
  apply bind_fueled; [apply order_domain_values_fueled | intros values _].
  apply try_values_fueled; auto.
  - now apply backtrack_restores.
  - intros d value NDd. apply IH; [exact NDd |].
    pose proof (unassigned_shrinks var value assignment Hin Hfresh). lia.
Qed.

Lemma keys_node_consistent :
  keys (enforce_node_consistency (init_domains cw)) = variables cw.
Proof.
  unfold enforce_node_consistency, init_domains, keys.
  rewrite !map_map. simpl. apply map_id.
Qed.

(** [solve] never exhausts the budgets of the model. *)
Lemma solve_fueled : NoDup (variables cw) -> fueled (solve set_iter cw).
Proof.
  intros ND. unfold solve.
  apply bind_fueled; [now apply ac3_fueled | intros [b d] Hac3].
  pose proof (ac3_shrinks _ _ _ _ _ _ Hac3) as [HK _].
  rewrite keys_node_consistent in HK.
  apply bind_fueled; [| intros [res st] _; auto with fuel].
  apply backtrack_fueled; [now rewrite HK |].
  unfold unassigned.
  pose proof (filter_length_le (fun var => negb (asg_mem var [])) (variables cw)).
  lia.
Qed.
End SearchFuel.

(** ** A returned assignment covers the puzzle *)

Section CompleteFacts.
Variable set_iter : list Var -> list Var.
Variable cw : Crossword.
Hypothesis set_iter_sub : forall l x, In x (set_iter l) -> In x l.

Lemma partial_set (var : Var) (value : string) (a : Assignment) :
  partial cw a -> In var (variables cw) -> asg_find var a = None ->
  partial cw (asg_set var value a).
Proof.
  intros [ND HI] Hin Hfresh. unfold partial, asg_set.
  rewrite (dict_set_fresh Var_eq_dec var value a Hfresh).
  unfold keys. rewrite map_app. simpl. split.
  - apply NoDup_app; [exact ND | repeat constructor; simpl; tauto |].
    intros x Hx [<- | []]. apply dict_find_None in Hfresh. contradiction.
  - intros x Hx. apply in_app_or in Hx.
    destruct Hx as [Hx | [<- | []]]; [now apply HI | exact Hin].
Qed.

Lemma try_values_complete (rec : State -> result (option Assignment * State))
    (var : Var) (values : list string) (domains : Domains)
    (assignment : Assignment) (a : Assignment) (st' : State) :
  restoring rec -> completing cw rec ->
  NoDup (keys domains) -> partial cw assignment ->
  In var (variables cw) -> asg_find var assignment = None ->
  try_values set_iter cw rec var values (domains, assignment)
  = Ok (Some a, st') ->
  partial cw a /\ assignment_complete cw a = true.
Proof.
  intros Hres Hcomp ND HP Hin Hfresh.
  induction values as [| value t IH]; simpl; intros H; [discriminate |].
  apply bind_Ok in H. destruct H as ([res st1] & E & H).
  destruct res as [r |].
  - injection H as -> ->. unfold try_value in E.
    apply bind_Ok in E. destruct E as (ok & _ & E).
    destruct ok; [| discriminate].
    apply bind_Ok in E. destruct E as ([inferred d2] & Hinf & E).
    unfold infer in Hinf.
    apply bind_Ok in Hinf. destruct Hinf as ([b d2'] & Hac3 & Hinf).
    injection Hinf as _ ->.
    pose proof (ac3_shrinks _ _ _ _ _ _ Hac3) as [HK _].
    apply bind_Ok in E. destruct E as ([res [d3 a3]] & Hrec & E).
    destruct res as [r0 |].
    + injection E as -> _. eapply Hcomp; [| | exact Hrec].
      * rewrite HK. now apply keys_dict_set_NoDup.
      * now apply partial_set.
    + bind_inv E. bind_inv E. bind_inv E. discriminate.
  - apply try_value_restores in E; auto. subst st1. now apply IH.
Qed.

Lemma backtrack_complete (n : nat) : completing cw (backtrack set_iter cw n).
Proof.
  induction n as [| n IH]; intros d a0 a st' ND HP H; simpl in H;
    [discriminate |].
  destruct (assignment_complete cw a0) eqn:HC.
  - injection H as <- _. auto.
  - bind_inv H. destruct a1 as [var |]; [| discriminate].
    apply select_unassigned_variable_sub in E. destruct E as [Hfresh Hin].
    bind_inv H.
    eapply try_values_complete; [| exact IH | | | | | exact H]; auto.
    now apply backtrack_restores.
Qed.

(** In an assignment that [solve] returns every slot of the puzzle has a
    word, and no slot has two. *)
Lemma solve_complete (a : Assignment) :
  NoDup (variables cw) ->
  solve set_iter cw = Ok (Some a) ->
  NoDup (keys a) /\ forall v, In v (variables cw) -> In v (keys a).
Proof.
  intros ND H. unfold solve in H. bind_inv H. destruct a0 as [b d].
  pose proof (ac3_shrinks _ _ _ _ _ _ E) as [HK _].
  rewrite keys_node_consistent in HK.
  bind_inv H. destruct a0 as [res st']. injection H as ->.
  apply backtrack_complete in E0.
  - destruct E0 as [[NDa HI] HC]. split; [exact NDa |].
    unfold assignment_complete in HC. apply Nat.eqb_eq in HC.
    apply (NoDup_length_incl NDa); [lia | exact HI].
  - now rewrite HK.
  - split; [constructor | intros x []].
Qed.
End CompleteFacts.

(** ** What the value returned by AC-3 tells *)

Section Ac3Return.
Variable set_iter : list Var -> list Var.
Variable cw : Crossword.

(** [False] is returned right after a revision has emptied a domain. *)
Lemma ac3_loop_false (n : nat) :
  forall arcs queue domains domains',
    ac3_loop set_iter cw n arcs queue domains = Ok (false, domains') ->
    exists v, dom_find v domains' = Some [].
Proof.
  induction n as [| n IH]; simpl; intros arcs queue domains domains' H;
    [discriminate |].
  bind_inv H. destruct a as [b d | q d]; [| eauto].
  injection H as -> ->. unfold ac3_step in E.
  destruct queue as [| [v1 v2] queue']; [discriminate |].
  bind_inv E. destruct a as [revised d1]. destruct revised; [| discriminate].
  bind_inv E. apply dom_get_Ok in E1.
  destruct (List.length a =? 0) eqn:HL.
  - injection E as <-. exists v1. apply Nat.eqb_eq in HL.
    destruct a; [exact E1 | discriminate].
  - bind_inv E. discriminate.
Qed.

(** When no domain is empty at the start, none is when [True] is
    returned. *)
Lemma ac3_loop_true (n : nat) :
  forall arcs queue domains domains',
    all_nonempty domains ->
    ac3_loop set_iter cw n arcs queue domains = Ok (true, domains') ->
    all_nonempty domains'.
Proof.
  induction n as [| n IH]; simpl; intros arcs queue domains domains' HN H;
    [discriminate |].
  apply bind_Ok in H. destruct H as (o & E & H). unfold ac3_step in E.
  destruct queue as [| [v1 v2] queue'].
  - injection E as <-. now injection H as <-.
  - apply bind_Ok in E. destruct E as ([revised d1] & Hrev & E).
    apply revise_inv in Hrev. destruct Hrev as (_ & HO & _ & HF & _).
    destruct revised.
    + apply bind_Ok in E. destruct E as (dv1 & Hv1 & E).
      apply dom_get_Ok in Hv1.
      destruct (List.length dv1 =? 0) eqn:HL.
      * injection E as <-. discriminate.
      * apply bind_Ok in E. destruct E as (q & _ & E). injection E as <-.
        apply (IH _ _ _ _ ) in H; [exact H |].
        intros v dv Hv. destruct (Var_eq_dec v v1) as [-> | Hneq].
        -- rewrite Hv1 in Hv. injection Hv as <-. intros ->. discriminate.
        -- rewrite (HO v Hneq) in Hv. now apply (HN v).
    + injection E as <-. rewrite (HF eq_refl) in H. now apply IH in H.
Qed.

Lemma ac3_return_value (arcs : option (list Arc)) (domains : Domains)
    (b : bool) (domains' : Domains) :
  ac3 set_iter cw arcs domains = Ok (b, domains') ->
  (b = false -> exists v, dom_find v domains' = Some []) /\
  (b = true -> all_nonempty domains -> all_nonempty domains').
Proof.
  unfold ac3. intros H. split.
  - intros ->. eapply ac3_loop_false. exact H.
  - intros -> HN. eapply ac3_loop_true; eassumption.
Qed.
End Ac3Return.

(** ** The failures above do not depend on the order of sets *)

Section AnyOrder.
Variable set_iter : list Var -> list Var.
Hypothesis set_iter_sub : forall l x, In x (set_iter l) -> In x l.

Lemma set_iter_nil : set_iter [] = [].
Proof.
  destruct (set_iter []) as [| x t] eqn:E; [reflexivity |].
  exfalso. apply (set_iter_sub [] x). rewrite E. now left.
Qed.

(** Two slots that take part in no overlap and tie on domain size: no slot
    is selected, whatever the order of sets. *)
Lemma select_parallel_any_order :
  select_unassigned_variable set_iter (parallel []) []
    [(slot_a, ["CAT"]); (slot_b, ["CAT"])]%string = Ok None.
Proof.
  cbv. rewrite set_iter_nil. reflexivity.
Qed.

Lemma solve_parallel_any_order :
  solve set_iter (parallel ["CAT"%string]) = Raise KeyError.
Proof.
  cbv. rewrite set_iter_nil. reflexivity.
Qed.
End AnyOrder.

(** * Further properties of the solver *)

(** ** Node consistency *)

Lemma dom_find_enforce (v : Var) (domains : Domains) :
  dom_find v (enforce_node_consistency domains)
  = option_map (filter (fun word => String.length word =? var_length v))
      (dom_find v domains).
Proof.
  unfold dom_find, enforce_node_consistency.
  induction domains as [| [k d] t IH]; simpl; [reflexivity |].
  destruct (Var_eq_dec v k) as [-> | n]; [reflexivity | exact IH].
Qed.

(** X1. After [enforce_node_consistency] a slot's domain holds exactly the
    words it held before that have the slot's length; no slot is added or
    dropped. *)
Theorem node_consistency_exact (domains : Domains) (v : Var) (d' : list string) :
  dom_find v (enforce_node_consistency domains) = Some d' ->
  keys (enforce_node_consistency domains) = keys domains /\
  exists d, dom_find v domains = Some d /\
    forall w, In w d' <-> In w d /\ String.length w = var_length v.
Proof.
  intros H. split.
  - unfold enforce_node_consistency, keys. rewrite map_map.
    apply map_ext. now intros [k d].
  - rewrite dom_find_enforce in H.
    destruct (dom_find v domains) as [d |]; [| discriminate].
    injection H as <-. exists d. split; [reflexivity |].
    intros w. rewrite filter_In, Nat.eqb_eq. tauto.
Qed.

Lemma node_consistency_exact_witness :
  dom_find slot_a
    (enforce_node_consistency [(slot_a, ["CAT"; "AB"; "EGGS"; "DOG"]%string)])
  = Some ["CAT"; "DOG"]%string /\
  keys (enforce_node_consistency [(slot_a, ["CAT"; "AB"; "EGGS"; "DOG"]%string)])
  = keys [(slot_a, ["CAT"; "AB"; "EGGS"; "DOG"]%string)] /\
  exists d,
    dom_find slot_a [(slot_a, ["CAT"; "AB"; "EGGS"; "DOG"]%string)] = Some d /\
    forall w, In w ["CAT"; "DOG"]%string
              <-> In w d /\ String.length w = var_length slot_a.
Proof.
  split; [reflexivity |].
  apply (node_consistency_exact
           [(slot_a, ["CAT"; "AB"; "EGGS"; "DOG"]%string)] slot_a).
  reflexivity.
Defined.

(** X2. [enforce_node_consistency] is idempotent: a second pass changes
    nothing. *)
Theorem node_consistency_idempotent (domains : Domains) :
  enforce_node_consistency (enforce_node_consistency domains)
  = enforce_node_consistency domains.
Proof.
  unfold enforce_node_consistency. rewrite map_map.
  apply map_ext. intros [var d]. f_equal.
  induction d as [| w t IH]; simpl; [reflexivity |].
  destruct (String.length w =? var_length var) eqn:E; simpl;
    [rewrite E; now f_equal | exact IH].
Qed.

Lemma enforce_init_find (cw : Crossword) (v : Var) :
  In v (variables cw) ->
  dom_find v (enforce_node_consistency (init_domains cw))
  = Some (filter (fun word => String.length word =? var_length v) (words cw)).
Proof.
  intros Hin. rewrite dom_find_enforce.
  assert (H : dom_find v (init_domains cw) = Some (words cw)); [| now rewrite H].
  unfold dom_find, init_domains.
  induction (variables cw) as [| x t IH]; simpl; [contradiction |].
  destruct (Var_eq_dec v x) as [-> | n]; [reflexivity |].
  destruct Hin as [-> | Hin]; [contradiction | now apply IH].
Qed.



(** ** Partners across an overlap *)

Lemma get_Some_lt (w : string) :
  forall k, (exists c, String.get k w = Some c) <-> k < String.length w.
Proof.
  induction w as [| a w IH]; simpl; intros k.
  - split; [intros [c H]; discriminate | lia].
  - destruct k as [| k]; simpl.
    + split; [lia | intros _; now exists a].
    + rewrite IH. lia.
Qed.

Lemma letter_Ok (w : string) (k : nat) (c : ascii) :
  letter w k = Ok c <-> String.get k w = Some c.
Proof.
  unfold letter. destruct (String.get k w); split; congruence.
Qed.

Lemma letter_Raise (w : string) (k : nat) :
  (forall c, letter w k <> Ok c) -> letter w k = Raise IndexError.
Proof.
  unfold letter. destruct (String.get k w) as [c |]; [| reflexivity].
  intros H. now destruct (H c).
Qed.

Lemma mapM_letters (j : nat) (domain : list string) (ls : list ascii) :
  mapM (fun d_word => letter d_word j) domain = Ok ls ->
  forall c, In c ls <-> exists v, In v domain /\ String.get j v = Some c.
Proof.
  revert ls. induction domain as [| v t IH]; simpl; intros ls H c.
  - injection H as <-. split; [contradiction | intros (v & [] & _)].
  - bind_inv H. bind_inv H. injection H as <-. apply letter_Ok in E.
    simpl. rewrite (IH _ E0 c). split.
    + intros [-> | (v0 & Hv0 & Hc)]; [exists v; auto | exists v0; auto].
    + intros (v0 & [<- | Hv0] & Hc); [left; congruence | right; eauto].
Qed.

Lemma mapM_letters_Ok (j : nat) (domain : list string) :
  (forall v, In v domain -> j < String.length v) ->
  exists ls, mapM (fun d_word => letter d_word j) domain = Ok ls.
Proof.
  induction domain as [| v t IH]; simpl; intros H; [now exists [] |].
  destruct (proj2 (get_Some_lt v j) (H v (or_introl eq_refl))) as [c Hc].
  destruct IH as [ls Hls]; [intros v0 Hv0; apply H; now right |].
  exists (c :: ls). apply letter_Ok in Hc. now rewrite Hc, Hls.
Qed.

Lemma mapM_letters_Raise (j : nat) (domain : list string) (v : string) :
  In v domain -> String.length v <= j ->
  mapM (fun d_word => letter d_word j) domain = Raise IndexError.
Proof.
  induction domain as [| v0 t IH]; simpl; intros Hin Hlen; [contradiction |].
  destruct (letter v0 j) as [c | e |] eqn:E; simpl.
  - destruct Hin as [-> | Hin].
    + apply letter_Ok in E.
      assert (j < String.length v) by (apply get_Some_lt; eauto). lia.
    + now rewrite (IH Hin Hlen).
  - unfold letter in E. destruct (String.get j v0); congruence.
  - unfold letter in E. destruct (String.get j v0); discriminate.
Qed.

Lemma can_overlap_supported (word : string) (domain : list string)
    (i j : nat) (b : bool) :
  can_overlap word domain (i, j) = Ok b ->
  (b = true <-> supported word domain i j).
Proof.
  unfold can_overlap. intros H. bind_inv H. rename a into ls.
  bind_inv H. rename a into c. injection H as <-. apply letter_Ok in E0.
  pose proof (mapM_letters _ _ _ E) as HL. unfold supported.
  rewrite existsb_exists. split.
  - intros (c' & Hin & Heq). apply Ascii.eqb_eq in Heq. subst c'.
    apply HL in Hin. destruct Hin as (v & Hv & Hc). now exists v, c.
  - intros (v & c' & Hv & Hw & Hc). rewrite E0 in Hw. injection Hw as <-.
    exists c. split; [apply HL; eauto | apply Ascii.eqb_refl].
Qed.

(** X4. When [can_overlap] returns, it returns [True] exactly when some
    word of the domain carries, at index [j], the letter the candidate has
    at index [i]. *)
Theorem can_overlap_meaning (word : string) (domain : list string)
    (i j : nat) (b : bool) :
  can_overlap word domain (i, j) = Ok b ->
  (b = true <-> supported word domain i j).
Proof.
  apply can_overlap_supported.
Qed.

Lemma can_overlap_meaning_witness :
  can_overlap "EGG" ["CAT"; "EEL"]%string (0, 0) = Ok true /\
  (true = true <-> supported "EGG" ["CAT"; "EEL"]%string 0 0).
Proof.
  split; [reflexivity |].
  apply (can_overlap_meaning "EGG" ["CAT"; "EEL"]%string 0 0 true).
  reflexivity.
Defined.

(** X5. [can_overlap] returns a value exactly when both indices are in
    range: [i] in the candidate and [j] in every word of the domain; in all
    other cases it raises [IndexError], also when the domain is empty. *)
Theorem can_overlap_bounds (word : string) (domain : list string) (i j : nat) :
  ((exists b, can_overlap word domain (i, j) = Ok b) <->
   i < String.length word /\
   forall v, In v domain -> j < String.length v) /\
  ((forall b, can_overlap word domain (i, j) <> Ok b) ->
   can_overlap word domain (i, j) = Raise IndexError).
Proof.
  unfold can_overlap. split; [split |].
  - intros [b H]. bind_inv H. bind_inv H. apply letter_Ok in E0. split.
    + apply get_Some_lt. eauto.
    + intros v Hv. destruct (Nat.lt_ge_cases j (String.length v)) as [| Hge];
        [assumption |].
      rewrite (mapM_letters_Raise j domain v Hv Hge) in E. discriminate.
  - intros [Hi Hj]. destruct (mapM_letters_Ok j domain Hj) as [ls Hls].
    destruct (proj2 (get_Some_lt word i) Hi) as [c Hc].
    apply letter_Ok in Hc. rewrite Hls. simpl. rewrite Hc. simpl. eauto.
  - intros H.
    destruct (mapM (fun d_word => letter d_word j) domain) as [ls | e |] eqn:E;
      simpl in *.
    + destruct (letter word i) as [c | e |] eqn:Ec; simpl in *.
      * now destruct (H (existsb (Ascii.eqb c) ls)).
      * unfold letter in Ec. destruct (String.get i word); congruence.
      * unfold letter in Ec. destruct (String.get i word); discriminate.
    + assert (G : forall l, mapM (fun d_word => letter d_word j) l = Raise e ->
                              e = IndexError).
      { induction l as [| v t IH]; simpl; [discriminate |].
        unfold letter at 1. destruct (String.get j v); simpl.
        - destruct (mapM (fun d_word => letter d_word j) t); simpl;
            [discriminate | intros [= <-]; now apply IH | discriminate].
        - now intros [= <-]. }
      now rewrite (G domain E).
    + exfalso. revert E. apply mapM_fueled. intros a. apply letter_fueled.
Qed.

(** ** What a revision keeps and what its result tells *)

Lemma list_remove_keeps {A : Type} (dec : forall a b : A, {a = b} + {a <> b})
    (x w : A) (l : list A) :
  In w l -> w <> x -> In w (list_remove dec x l).
Proof.
  induction l as [| y t IH]; simpl; [tauto |].
  intros [-> | Hin] Hne.
  - destruct (dec x w) as [-> | _]; [contradiction | now left].
  - destruct (dec x y); [exact Hin | right; auto].
Qed.

Lemma revise_loop_keeps (x y : Var) (i j : nat) (wx wy : string) (c : ascii) :
  String.get i wx = Some c -> String.get j wy = Some c ->
  (x = y -> wx = wy) ->
  forall n idx revised domains b domains',
    (exists dx, dom_find x domains = Some dx /\ In wx dx) ->
    (exists dy, dom_find y domains = Some dy /\ In wy dy) ->
    revise_loop n idx x y (i, j) revised domains = Ok (b, domains') ->
    (exists dx, dom_find x domains' = Some dx /\ In wx dx) /\
    (exists dy, dom_find y domains' = Some dy /\ In wy dy).
Proof.
  intros Hwx Hwy Hxy. induction n as [| n IH]; simpl;
    intros idx revised domains b domains' Hx Hy H; [discriminate |].
  apply bind_Ok in H. destruct H as (dx0 & Hdx0 & H). apply dom_get_Ok in Hdx0.
  destruct (nth_error dx0 idx) as [word |] eqn:Hnth.
  - apply bind_Ok in H. destruct H as (dy0 & Hdy0 & H).
    apply dom_get_Ok in Hdy0.
    apply bind_Ok in H. destruct H as (cb & Hcb & H).
    destruct cb; [eapply IH; eauto |].
    destruct Hx as (dx & Hdx & Hinx). destruct Hy as (dy & Hdy & Hiny).
    rewrite Hdx in Hdx0. injection Hdx0 as <-.
    rewrite Hdy in Hdy0. injection Hdy0 as <-.
    assert (Hne : wx <> word).
    { intros ->. apply can_overlap_supported in Hcb.
      assert (false = true) as Hc; [| discriminate].
      apply Hcb. now exists wy, c. }
    eapply IH; [| | exact H].
    + exists (list_remove string_dec word dx). split.
      * unfold dom_find, dom_set. apply dict_find_set_same.
      * now apply list_remove_keeps.
    + destruct (Var_eq_dec y x) as [-> | Hyx].
      * exists (list_remove string_dec word dx). split.
        -- unfold dom_find, dom_set. apply dict_find_set_same.
        -- rewrite <- (Hxy eq_refl). now apply list_remove_keeps.
      * exists dy. split; [| exact Hiny].
        unfold dom_find, dom_set. rewrite dict_find_set_other by exact Hyx.
        exact Hdy.
  - injection H as <- <-. auto.
Qed.

Lemma revise_loop_false (x y : Var) (i j : nat) (dx dy : list string) :
  forall n idx domains domains',
    dom_find x domains = Some dx -> dom_find y domains = Some dy ->
    revise_loop n idx x y (i, j) false domains = Ok (false, domains') ->
    forall k w, idx <= k -> nth_error dx k = Some w -> supported w dy i j.
Proof.
  induction n as [| n IH]; simpl; intros idx domains domains' Hx Hy H k w Hk Hw;
    [discriminate |].
  apply bind_Ok in H. destruct H as (dx0 & Hdx0 & H). apply dom_get_Ok in Hdx0.
  rewrite Hx in Hdx0. injection Hdx0 as <-.
  destruct (nth_error dx idx) as [word |] eqn:Hnth.
  - apply bind_Ok in H. destruct H as (dy0 & Hdy0 & H).
    apply dom_get_Ok in Hdy0. rewrite Hy in Hdy0. injection Hdy0 as <-.
    apply bind_Ok in H. destruct H as (cb & Hcb & H). destruct cb.
    + destruct (Nat.eq_dec k idx) as [-> | Hne].
      * rewrite Hnth in Hw. injection Hw as <-.
        now apply (can_overlap_supported _ _ _ _ _ Hcb).
      * apply (IH _ _ _ Hx Hy H k w); [lia | exact Hw].
    + apply revise_loop_inv in H. destruct H as (_ & _ & _ & _ & HF & _).
      destruct (HF eq_refl) as [Hc _]. discriminate.
  - apply nth_error_None in Hnth.
    assert (k < List.length dx) by (apply nth_error_Some; congruence). lia.
Qed.

Lemma revise_loop_length (x y : Var) (ov : nat * nat) :
  forall n idx revised domains b domains' dx,
    dom_find x domains = Some dx ->
    revise_loop n idx x y ov revised domains = Ok (b, domains') ->
    exists dx',
      dom_find x domains' = Some dx' /\
      List.length dx' <= List.length dx /\
      (revised = false -> b = true -> List.length dx' < List.length dx).
Proof.
  induction n as [| n IH]; simpl; intros idx revised domains b domains' dx Hx H;
    [discriminate |].
  apply bind_Ok in H. destruct H as (dx0 & Hdx0 & H). apply dom_get_Ok in Hdx0.
  rewrite Hx in Hdx0. injection Hdx0 as <-.
  destruct (nth_error dx idx) as [word |] eqn:Hnth.
  - apply bind_Ok in H. destruct H as (dy0 & _ & H).
    apply bind_Ok in H. destruct H as (cb & _ & H). destruct cb.
    + eapply IH; eauto.
    + pose proof (list_remove_length string_dec word dx (nth_error_In _ _ Hnth))
        as HL.
      destruct (IH _ _ _ _ _ (list_remove string_dec word dx)
                  (dict_find_set_same Var_eq_dec x _ domains) H)
        as (dx' & Hdx' & Hle & _).
      exists dx'. splits; [exact Hdx' | lia | intros _ _; lia].
  - injection H as <- <-. exists dx. splits; [exact Hx | lia |].
    intros -> Hb. discriminate.
Qed.

Section ReviseMore.
Variable cw : Crossword.

(** X6. [revise] never removes a word that has a partner: a word of [x]'s
    domain for which [y]'s domain holds a word with the same letter at the
    overlap is still in [x]'s domain afterwards. *)
Theorem revise_keeps_supported (x y : Var) (i j : nat) (domains : Domains)
    (dx dy : list string) (w : string) (b : bool) (domains' : Domains) :
  x <> y ->
  dict_find Arc_eq_dec (x, y) (overlaps cw) = Some (Some (i, j)) ->
  dom_find x domains = Some dx ->
  dom_find y domains = Some dy ->
  In w dx ->
  supported w dy i j ->
  revise cw x y domains = Ok (b, domains') ->
  exists dx', dom_find x domains' = Some dx' /\ In w dx'.
Proof.
  intros Hne Hov Hx Hy Hin (v & c & Hv & Hw & Hc) H. unfold revise in H.
  apply bind_Ok in H. destruct H as (o & Ho & H).
  apply dict_get_Ok in Ho. rewrite Hov in Ho. injection Ho as <-.
  apply bind_Ok in H. destruct H as (dx0 & _ & H).
  eapply (revise_loop_keeps x y i j w v c Hw Hc) in H; eauto.
  - tauto.
  - intros E. contradiction.
Qed.

(** X7. When [revise] returns [False] on an arc with an overlap, the store
    is unchanged and every word of [x]'s domain has a partner in [y]'s
    domain. *)
Theorem revise_false_arc_consistent (x y : Var) (i j : nat)
    (domains : Domains) (dx dy : list string) (domains' : Domains) :
  dict_find Arc_eq_dec (x, y) (overlaps cw) = Some (Some (i, j)) ->
  dom_find x domains = Some dx ->
  dom_find y domains = Some dy ->
  revise cw x y domains = Ok (false, domains') ->
  domains' = domains /\ forall w, In w dx -> supported w dy i j.
Proof.
  intros Hov Hx Hy H. split.
  - apply revise_inv in H. destruct H as (_ & _ & _ & HF & _). now apply HF.
  - unfold revise in H.
    apply bind_Ok in H. destruct H as (o & Ho & H).
    apply dict_get_Ok in Ho. rewrite Hov in Ho. injection Ho as <-.
    apply bind_Ok in H. destruct H as (dx0 & _ & H).
    intros w Hw. apply In_nth_error in Hw. destruct Hw as [k Hk].
    apply (revise_loop_false x y i j dx dy _ 0 _ _ Hx Hy H k w); [lia | exact Hk].
Qed.

(** X8. [revise] changes the domain of [x] at most: the slots of the store
    and every other domain stay as they are.  It returns [False] when [x]'s
    domain is unchanged and [True] when the domain has lost at least one
    word. *)
Theorem revise_result (x y : Var) (domains : Domains) (dx : list string)
    (b : bool) (domains' : Domains) :
  dom_find x domains = Some dx ->
  revise cw x y domains = Ok (b, domains') ->
  keys domains' = keys domains /\
  (forall v, v <> x -> dom_find v domains' = dom_find v domains) /\
  exists dx',
    dom_find x domains' = Some dx' /\ incl dx' dx /\
    (b = false -> dx' = dx) /\
    (b = true -> List.length dx' < List.length dx).
Proof.
  intros Hx H. pose proof (revise_inv cw _ _ _ _ _ H) as (HK & HO & HX & HF & _).
  splits; [exact HK | exact HO |].
  destruct (HX dx Hx) as (dx' & Hdx' & Hincl). exists dx'.
  splits; [exact Hdx' | exact Hincl | |].
  - intros Hb. rewrite (HF Hb) in Hdx'. congruence.
  - intros ->. unfold revise in H.
    apply bind_Ok in H. destruct H as (o & _ & H).
    destruct o as [ov |]; [| discriminate].
    apply bind_Ok in H. destruct H as (dx0 & _ & H).
    destruct (revise_loop_length _ _ _ _ _ _ _ _ _ dx Hx H)
      as (dx1 & Hdx1 & _ & Hlt).
    rewrite Hdx' in Hdx1. injection Hdx1 as <-. now apply Hlt.
Qed.
End ReviseMore.

Lemma revise_keeps_supported_witness :
  slot_a <> slot_d /\
  dict_find Arc_eq_dec (slot_a, slot_d) (overlaps (cross []))
  = Some (Some (0, 0)) /\
  dom_find slot_a egg_store = Some ["CAT"; "DOG"; "EGG"]%string /\
  dom_find slot_d egg_store = Some ["EEL"%string] /\
  In "EGG"%string ["CAT"; "DOG"; "EGG"]%string /\
  supported "EGG" ["EEL"%string] 0 0 /\
  revise (cross []) slot_a slot_d egg_store
  = Ok (true, [(slot_a, ["DOG"; "EGG"]); (slot_d, ["EEL"])]%string) /\
  exists dx',
    dom_find slot_a [(slot_a, ["DOG"; "EGG"]); (slot_d, ["EEL"])]%string
    = Some dx' /\ In "EGG"%string dx'.
Proof.
  assert (Hne : slot_a <> slot_d) by discriminate.
  assert (Hin : In "EGG"%string ["CAT"; "DOG"; "EGG"]%string)
    by (simpl; auto).
  assert (Hs : supported "EGG" ["EEL"%string] 0 0).
  { exists "EEL"%string, "E"%char. simpl. auto. }
  splits; [exact Hne | reflexivity | reflexivity | reflexivity | exact Hin
          | exact Hs | reflexivity |].
  apply (revise_keeps_supported (cross []) slot_a slot_d 0 0 egg_store
           ["CAT"; "DOG"; "EGG"]%string ["EEL"%string] "EGG"%string true
           [(slot_a, ["DOG"; "EGG"]); (slot_d, ["EEL"])]%string
           Hne eq_refl eq_refl eq_refl Hin Hs eq_refl).
Defined.

Lemma revise_false_arc_consistent_witness :
  dict_find Arc_eq_dec (slot_d, slot_a) (overlaps (cross []))
  = Some (Some (0, 0)) /\
  dom_find slot_d egg_store = Some ["EEL"%string] /\
  dom_find slot_a egg_store = Some ["CAT"; "DOG"; "EGG"]%string /\
  revise (cross []) slot_d slot_a egg_store = Ok (false, egg_store) /\
  egg_store = egg_store /\
  forall w, In w ["EEL"%string] ->
    supported w ["CAT"; "DOG"; "EGG"]%string 0 0.
Proof.
  splits; [reflexivity | reflexivity | reflexivity | reflexivity | |];
    apply (revise_false_arc_consistent (cross []) slot_d slot_a 0 0 egg_store
             ["EEL"%string] ["CAT"; "DOG"; "EGG"]%string egg_store
             eq_refl eq_refl eq_refl eq_refl).
Defined.

Lemma revise_result_witness :
  dom_find slot_a egg_store = Some ["CAT"; "DOG"; "EGG"]%string /\
  revise (cross []) slot_a slot_d egg_store
  = Ok (true, [(slot_a, ["DOG"; "EGG"]); (slot_d, ["EEL"])]%string) /\
  keys [(slot_a, ["DOG"; "EGG"]); (slot_d, ["EEL"])]%string = keys egg_store /\
  (forall v, v <> slot_a ->
     dom_find v [(slot_a, ["DOG"; "EGG"]); (slot_d, ["EEL"])]%string
     = dom_find v egg_store) /\
  exists dx',
    dom_find slot_a [(slot_a, ["DOG"; "EGG"]); (slot_d, ["EEL"])]%string
    = Some dx' /\ incl dx' ["CAT"; "DOG"; "EGG"]%string /\
    (true = false -> dx' = ["CAT"; "DOG"; "EGG"]%string) /\
    (true = true ->
     List.length dx' < List.length ["CAT"; "DOG"; "EGG"]%string).
Proof.
  split; [reflexivity |]. split; [reflexivity |].
  apply (revise_result (cross []) slot_a slot_d egg_store
           ["CAT"; "DOG"; "EGG"]%string true
           [(slot_a, ["DOG"; "EGG"]); (slot_d, ["EEL"])]%string
           eq_refl eq_refl).
Defined.

(** ** AC-3 and the solutions inside the domains *)

Section Ac3More.
Variable set_iter : list Var -> list Var.
Variable cw : Crossword.

Lemma revise_chooses (s : Assignment) (x y : Var) (domains : Domains)
    (b : bool) (domains' : Domains) :
  agrees cw s -> chooses s domains ->
  revise cw x y domains = Ok (b, domains') ->
  chooses s domains'.
Proof.
  intros Hag Hch H. pose proof (revise_inv cw _ _ _ _ _ H) as (_ & HO & _).
  unfold revise in H. apply bind_Ok in H. destruct H as (o & Ho & H).
  apply dict_get_Ok in Ho. destruct o as [[i j] |];
    [| injection H as _ <-; exact Hch].
  apply bind_Ok in H. destruct H as (dx & Hdx & H). apply dom_get_Ok in Hdx.
  destruct (Hch x dx Hdx) as (wx & Hsx & Hinx).
  assert (Hy : exists dy, dom_find y domains = Some dy).
  { destruct (dom_find y domains) as [dy |] eqn:Ey; [eauto |]. exfalso.
    simpl in H. unfold dom_get at 1, dict_get in H.
    unfold dom_find in Hdx. rewrite Hdx in H. simpl in H.
    destruct dx as [| w0 t]; [contradiction |]. simpl in H.
    unfold dom_get, dict_get in H. unfold dom_find in Ey. rewrite Ey in H.
    discriminate. }
  destruct Hy as (dy & Hdy). destruct (Hch y dy Hdy) as (wy & Hsy & Hiny).
  destruct (Hag x y i j wx wy Ho Hsx Hsy) as (c & Hcx & Hcy).
  assert (Hxy : x = y -> wx = wy) by (intros <-; congruence).
  destruct (revise_loop_keeps x y i j wx wy c Hcx Hcy Hxy _ _ _ _ _ _
              (ex_intro _ dx (conj Hdx Hinx)) (ex_intro _ dy (conj Hdy Hiny)) H)
    as [(dx' & Hdx' & Hinx') _].
  intros v d Hv. destruct (Var_eq_dec v x) as [-> | Hne].
  - rewrite Hdx' in Hv. injection Hv as <-. eauto.
  - rewrite (HO v Hne) in Hv. eauto.
Qed.

Lemma ac3_loop_chooses (s : Assignment) (n : nat) :
  agrees cw s ->
  forall arcs queue domains b domains',
    chooses s domains ->
    ac3_loop set_iter cw n arcs queue domains = Ok (b, domains') ->
    b = true /\ chooses s domains'.
Proof.
  intros Hag. induction n as [| n IH]; simpl;
    intros arcs queue domains b domains' Hch H; [discriminate |].
  apply bind_Ok in H. destruct H as (o & Ho & H). unfold ac3_step in Ho.
  destruct queue as [| [v1 v2] queue'].
  - injection Ho as <-. injection H as <- <-. auto.
  - apply bind_Ok in Ho. destruct Ho as ([revised d1] & Hrev & Ho).
    apply (revise_chooses s) in Hrev; auto.
    destruct revised.
    + apply bind_Ok in Ho. destruct Ho as (dv1 & Hv1 & Ho).
      apply dom_get_Ok in Hv1.
      destruct (List.length dv1 =? 0) eqn:HL.
      * exfalso. apply Nat.eqb_eq in HL. destruct dv1; [| discriminate].
        destruct (Hrev v1 [] Hv1) as (w & _ & []).
      * apply bind_Ok in Ho. destruct Ho as (q & _ & Ho).
        injection Ho as <-. eapply IH; eauto.
    + injection Ho as <-. eapply IH; eauto.
Qed.

(** X9. [ac3] keeps every solution that is inside the domains: when an
    assignment that agrees on all overlaps has, for every slot of the
    store, its word in that slot's domain, the same holds after [ac3] (on
    any arc list), and [ac3] returns [True]. *)
Theorem ac3_keeps_solutions (s : Assignment) (arcs : option (list Arc))
    (domains : Domains) (b : bool) (domains' : Domains) :
  agrees cw s ->
  chooses s domains ->
  ac3 set_iter cw arcs domains = Ok (b, domains') ->
  b = true /\ chooses s domains'.
Proof.
  intros Hag Hch H. unfold ac3 in H. eapply ac3_loop_chooses; eauto.
Qed.

(** X10. What the value of [ac3] tells: [False] is returned only with a
    slot whose domain is empty; [True], when no domain was empty at the
    start, is returned only with no domain empty. *)
Theorem ac3_result (arcs : option (list Arc)) (domains : Domains)
    (b : bool) (domains' : Domains) :
  ac3 set_iter cw arcs domains = Ok (b, domains') ->
  (b = false -> exists v, dom_find v domains' = Some []) /\
  (b = true -> all_nonempty domains -> all_nonempty domains').
Proof. apply ac3_return_value. Qed.

(** X11. [ac3] changes no domain of a slot that occurs in no arc of its
    arc list (the default list when none is given). *)
Theorem ac3_untouched (arcs : option (list Arc)) (domains : Domains)
    (b : bool) (domains' : Domains) (v : Var) :
  (forall l x, In x (set_iter l) -> In x l) ->
  ac3 set_iter cw arcs domains = Ok (b, domains') ->
  ~ In v (flat_map arc_vars
            (match arcs with None => all_arcs cw | Some a => a end)) ->
  dom_find v domains' = dom_find v domains.
Proof.
  intros Hsub H Hv. unfold ac3 in H.
  eapply ac3_loop_frame; [exact Hsub | exact H | | exact Hv].
  intros Hf. apply Hv. apply in_map_iff in Hf.
  destruct Hf as ([a0 b0] & <- & Hin).
  apply in_flat_map. exists (a0, b0). split; [exact Hin | now left].
Qed.

(** X12. The loop of [ac3] ends: started with a queue and a store, it makes
    fewer than [total_size domains * (2 * len(arcs) + 1) + len(queue) + 1]
    iterations, whatever the arcs and the domains. *)
Theorem ac3_loop_terminates (n : nat) (arcs queue : list Arc)
    (domains : Domains) :
  (forall l, NoDup (set_iter l)) ->
  (forall l x, In x (set_iter l) -> In x l) ->
  total_size domains * S (2 * List.length arcs) + List.length queue < n ->
  ac3_loop set_iter cw n arcs queue domains <> NoFuel.
Proof.
  intros Hnd Hsub Hlt. now apply ac3_loop_fueled.
Qed.
End Ac3More.

Lemma cross_agrees :
  agrees (cross []) [(slot_a, "EGG"); (slot_d, "EEL")]%string.
Proof.
  intros v1 v2 i j w1 w2 H H1 H2.
  unfold cross, overlaps in H. cbn [dict_find] in H.
  destruct (Arc_eq_dec (v1, v2) (slot_a, slot_d)) as [E | _].
  - injection E as -> ->. injection H as <- <-.
    vm_compute in H1, H2. injection H1 as <-. injection H2 as <-.
    now exists "E"%char.
  - destruct (Arc_eq_dec (v1, v2) (slot_d, slot_a)) as [E | _];
      [| discriminate].
    injection E as -> ->. injection H as <- <-.
    vm_compute in H1, H2. injection H1 as <-. injection H2 as <-.
    now exists "E"%char.
Qed.

Lemma egg_store_chooses :
  chooses [(slot_a, "EGG"); (slot_d, "EEL")]%string egg_store.
Proof.
  intros v d H. unfold egg_store in H. simpl in H.
  unfold asg_find. simpl.
  destruct (Var_eq_dec v slot_a) as [-> | _].
  - injection H as <-. exists "EGG"%string. simpl. auto.
  - destruct (Var_eq_dec v slot_d) as [-> | _]; [| discriminate].
    injection H as <-. exists "EEL"%string. simpl. auto.
Qed.

Lemma ac3_keeps_solutions_witness :
  agrees (cross []) [(slot_a, "EGG"); (slot_d, "EEL")]%string /\
  chooses [(slot_a, "EGG"); (slot_d, "EEL")]%string egg_store /\
  ac3 set_list (cross []) None egg_store
  = Ok (true, [(slot_a, ["DOG"; "EGG"]); (slot_d, ["EEL"])]%string) /\
  true = true /\
  chooses [(slot_a, "EGG"); (slot_d, "EEL")]%string
    [(slot_a, ["DOG"; "EGG"]); (slot_d, ["EEL"])]%string.
Proof.
  splits; [exact cross_agrees | exact egg_store_chooses | reflexivity | |];
    apply (ac3_keeps_solutions set_list (cross [])
             [(slot_a, "EGG"); (slot_d, "EEL")]%string None egg_store true
             [(slot_a, ["DOG"; "EGG"]); (slot_d, ["EEL"])]%string
             cross_agrees egg_store_chooses eq_refl).
Defined.

Lemma ac3_result_witness :
  ac3 set_list (cross []) None unsupported_store
  = Ok (false, [(slot_a, ["DOG"]); (slot_d, [])]%string) /\
  (false = false ->
   exists v,
     dom_find v [(slot_a, ["DOG"]); (slot_d, [])]%string = Some []) /\
  (false = true -> all_nonempty unsupported_store ->
   all_nonempty [(slot_a, ["DOG"]); (slot_d, [])]%string).
Proof.
  split; [reflexivity |].
  apply (ac3_result set_list (cross []) None unsupported_store false
           [(slot_a, ["DOG"]); (slot_d, [])]%string eq_refl).
Defined.

Lemma ac3_untouched_witness :
  (forall l x, In x (set_list l) -> In x l) /\
  ac3 set_list (cross []) None
    ((slot_b, ["CAT"%string]) :: egg_store)
  = Ok (true, [(slot_b, ["CAT"]); (slot_a, ["DOG"; "EGG"]);
               (slot_d, ["EEL"])]%string) /\
  ~ In slot_b (flat_map arc_vars (all_arcs (cross []))) /\
  dom_find slot_b
    [(slot_b, ["CAT"]); (slot_a, ["DOG"; "EGG"]); (slot_d, ["EEL"])]%string
  = dom_find slot_b ((slot_b, ["CAT"%string]) :: egg_store).
Proof.
  assert (Hout : ~ In slot_b (flat_map arc_vars (all_arcs (cross [])))).
  { simpl. intros [H | [H | [H | [H | []]]]]; discriminate. }
  splits; [exact set_list_sub | reflexivity | exact Hout |].
  apply (ac3_untouched set_list (cross []) None
           ((slot_b, ["CAT"%string]) :: egg_store) true
           [(slot_b, ["CAT"]); (slot_a, ["DOG"; "EGG"]);
            (slot_d, ["EEL"])]%string slot_b set_list_sub eq_refl Hout).
Defined.

Lemma ac3_loop_terminates_witness :
  (forall l, NoDup (set_list l)) /\
  (forall l x, In x (set_list l) -> In x l) /\
  total_size egg_store * S (2 * List.length (all_arcs (cross [])))
  + List.length (all_arcs (cross [])) < 23 /\
  ac3_loop set_list (cross []) 23 (all_arcs (cross [])) (all_arcs (cross []))
    egg_store <> NoFuel.
Proof.
  assert (Hlt : total_size egg_store
                * S (2 * List.length (all_arcs (cross [])))
                + List.length (all_arcs (cross [])) < 23)
    by (vm_compute; lia).
  splits; [exact set_list_nodup | exact set_list_sub | exact Hlt |].
  apply (ac3_loop_terminates set_list (cross []) 23 (all_arcs (cross []))
           (all_arcs (cross [])) egg_store set_list_nodup set_list_sub Hlt).
Defined.

(** ** Minimum remaining values *)

Section SelectMore.
Variable set_iter : list Var -> list Var.
Variable cw : Crossword.

Lemma min_domain_scan_min (domains : Domains) (vars : list Var) :
  forall acc min_len l,
    match min_len with
    | None => acc = []
    | Some m =>
        forall v, In v acc ->
          exists d, dom_find v domains = Some d /\ List.length d = m
    end ->
    min_domain_scan vars domains acc min_len = Ok l ->
    forall v, In v l ->
      exists d, dom_find v domains = Some d /\
        (forall u du, In u vars -> dom_find u domains = Some du ->
           List.length d <= List.length du) /\
        (forall m0, min_len = Some m0 -> List.length d <= m0).
Proof.
  induction vars as [| var t IH]; simpl; intros acc min_len l Hinv H v Hv.
  - injection H as <-. destruct min_len as [m |]; [| subst acc; contradiction].
    destruct (Hinv v Hv) as (d & Hd & Hm). exists d.
    splits; [exact Hd | intros u du [] | intros m0 [= <-]; lia].
  - apply bind_Ok in H. destruct H as (dv & Hdv & H). apply dom_get_Ok in Hdv.
    destruct (lt_min_len (List.length dv) min_len) eqn:Hlt.
    + destruct (IH [var] (Some (List.length dv)) l) with (v := v)
        as (d & Hd & Hmin & Hle); auto.
      { intros x [<- | []]. eauto. }
      exists d. splits; [exact Hd | |].
      * intros u du [<- | Hu] Hdu; [| eauto].
        rewrite Hdv in Hdu. injection Hdu as <-. now apply Hle.
      * intros m0 ->. simpl in Hlt. apply Nat.ltb_lt in Hlt.
        specialize (Hle _ eq_refl). lia.
    + destruct min_len as [m |]; [| discriminate]. simpl in Hlt.
      apply Nat.ltb_ge in Hlt.
      destruct (eq_min_len (List.length dv) (Some m)) eqn:Heq.
      * simpl in Heq. apply Nat.eqb_eq in Heq.
        destruct (IH (acc ++ [var]) (Some m) l) with (v := v)
          as (d & Hd & Hmin & Hle); auto.
        { intros x Hx. apply in_app_or in Hx.
          destruct Hx as [Hx | [<- | []]]; eauto. }
        exists d. splits; [exact Hd | | exact Hle].
        intros u du [<- | Hu] Hdu; [| eauto].
        rewrite Hdv in Hdu. injection Hdu as <-.
        specialize (Hle _ eq_refl). lia.
      * simpl in Heq. apply Nat.eqb_neq in Heq.
        destruct (IH acc (Some m) l) with (v := v)
          as (d & Hd & Hmin & Hle); auto.
        exists d. splits; [exact Hd | | exact Hle].
        intros u du [<- | Hu] Hdu; [| eauto].
        rewrite Hdv in Hdu. injection Hdu as <-.
        specialize (Hle _ eq_refl). lia.
Qed.

(** X13. A slot returned by [select_unassigned_variable] is a slot of the
    puzzle without a word, and no unassigned slot has a smaller domain. *)
Theorem select_minimum_remaining (assignment : Assignment)
    (domains : Domains) (v : Var) :
  select_unassigned_variable set_iter cw assignment domains = Ok (Some v) ->
  In v (variables cw) /\ asg_find v assignment = None /\
  exists d, dom_find v domains = Some d /\
    forall u du,
      In u (variables cw) -> asg_find u assignment = None ->
      dom_find u domains = Some du ->
      List.length d <= List.length du.
Proof.
  intros H.
  destruct (select_unassigned_variable_sub set_iter cw _ _ _ H) as [Hf Hin].
  splits; [exact Hin | exact Hf |].
  unfold select_unassigned_variable in H.
  apply bind_Ok in H. destruct H as (l & Hl & H).
  assert (Hv : In v l).
  { destruct (1 <? List.length l).
    - injection H as H. now apply degree_scan_sub in H.
    - destruct l as [| x t]; [discriminate |]. injection H as ->. now left. }
  destruct (min_domain_scan_min domains _ [] None l eq_refl Hl v Hv)
    as (d & Hd & Hmin & _).
  exists d. split; [exact Hd |].
  intros u du Hu Hfu Hdu. apply (Hmin u du); [| exact Hdu].
  apply filter_In. split; [exact Hu |].
  unfold asg_mem, dict_mem. unfold asg_find in Hfu. now rewrite Hfu.
Qed.
End SelectMore.

Lemma select_minimum_remaining_witness :
  select_unassigned_variable set_list (fork []) []
    [(slot_a, ["CAT"; "DOG"]); (slot_d, ["CAT"]);
     (slot_e, ["CAT"; "DOG"])]%string = Ok (Some slot_d) /\
  In slot_d (variables (fork [])) /\ asg_find slot_d [] = None /\
  exists d,
    dom_find slot_d
      [(slot_a, ["CAT"; "DOG"]); (slot_d, ["CAT"]);
       (slot_e, ["CAT"; "DOG"])]%string = Some d /\
    forall u du,
      In u (variables (fork [])) -> asg_find u [] = None ->
      dom_find u
        [(slot_a, ["CAT"; "DOG"]); (slot_d, ["CAT"]);
         (slot_e, ["CAT"; "DOG"])]%string = Some du ->
      List.length d <= List.length du.
Proof.
  split; [reflexivity |].
  apply (select_minimum_remaining set_list (fork []) []
           [(slot_a, ["CAT"; "DOG"]); (slot_d, ["CAT"]);
            (slot_e, ["CAT"; "DOG"])]%string slot_d).
  reflexivity.
Defined.

(** ** What [consistent] decides *)

Section ConsistentMore.
Variable cw : Crossword.

Lemma consistent_words_complete (items : Assignment) :
  forall acc,
    (forall v w, In (v, w) items -> String.length w = var_length v) ->
    NoDup (acc ++ map snd items) ->
    consistent_words items acc = true.
Proof.
  induction items as [| [var word] t IH]; simpl; intros acc HL ND;
    [reflexivity |].
  rewrite (proj2 (Nat.eqb_eq _ _) (HL var word (or_introl eq_refl))). simpl.
  assert (Hnot : existsb (String.eqb word) acc = false).
  { destruct (existsb (String.eqb word) acc) eqn:E; [| reflexivity].
    apply existsb_exists in E. destruct E as (w' & Hin & Heq).
    apply String.eqb_eq in Heq. subst w'.
    apply NoDup_remove_2 in ND. exfalso. apply ND.
    apply in_or_app. now left. }
  rewrite Hnot. simpl. apply IH.
  - intros v w Hin. apply HL. now right.
  - now rewrite <- app_assoc.
Qed.

Lemma sound_words_NoDup (a : Assignment) :
  NoDup (keys a) ->
  (forall v1 w1 v2 w2,
     In (v1, w1) a -> In (v2, w2) a -> v1 <> v2 -> w1 <> w2) ->
  NoDup (map snd a).
Proof.
  induction a as [| [v w] t IH]; simpl; intros ND HD; [constructor |].
  inversion ND as [| ? ? Hnot ND']; subst. constructor.
  - intros Hin. apply in_map_iff in Hin. destruct Hin as ([v' w'] & Hw & Hin).
    simpl in Hw. subst w'.
    apply (HD v w v' w); auto.
    intros ->. apply Hnot. change v' with (fst (v', w)). now apply in_map.
  - apply IH; [exact ND' |]. intros v1 w1 v2 w2 H1 H2. apply HD; auto.
Qed.

Lemma consistent_inner_complete (v1 : Var) (word1 : string)
    (items : Assignment) (b : bool) :
  (forall v2 word2 i j,
     In (v2, word2) items -> v1 <> v2 ->
     dict_find Arc_eq_dec (v1, v2) (overlaps cw) = Some (Some (i, j)) ->
     exists c, String.get i word1 = Some c /\ String.get j word2 = Some c) ->
  consistent_inner cw v1 word1 items = Ok b -> b = true.
Proof.
  induction items as [| [v2 word2] t IH]; simpl; intros HA H.
  - now injection H as <-.
  - assert (HA' : forall v0 w0 i j,
               In (v0, w0) t -> v1 <> v0 ->
               dict_find Arc_eq_dec (v1, v0) (overlaps cw) = Some (Some (i, j)) ->
               exists c, String.get i word1 = Some c /\ String.get j w0 = Some c)
      by (intros; eapply HA; eauto).
    destruct (Var_eq_dec v1 v2) as [-> | Hne]; [auto |].
    apply bind_Ok in H. destruct H as (o & Ho & H). apply dict_get_Ok in Ho.
    destruct o as [[i j] |]; [| auto].
    apply bind_Ok in H. destruct H as (c1 & Hc1 & H).
    apply bind_Ok in H. destruct H as (c2 & Hc2 & H).
    apply letter_Ok in Hc1, Hc2.
    destruct (HA v2 word2 i j (or_introl eq_refl) Hne Ho) as (c & Hx & Hy).
    assert (c1 = c2) as -> by congruence.
    rewrite Ascii.eqb_refl in H. auto.
Qed.

Lemma consistent_outer_complete (items assignment : Assignment) (b : bool) :
  (forall v1 word1, In (v1, word1) items ->
     forall b1, consistent_inner cw v1 word1 assignment = Ok b1 -> b1 = true) ->
  consistent_outer cw items assignment = Ok b -> b = true.
Proof.
  induction items as [| [v1 word1] t IH]; simpl; intros HA H.
  - now injection H as <-.
  - apply bind_Ok in H. destruct H as (ok & Hok & H).
    rewrite (HA v1 word1 (or_introl eq_refl) ok Hok) in H.
    apply IH; [| exact H]. intros v w Hin. apply HA. now right.
Qed.

Lemma sound_consistent (a : Assignment) (b : bool) :
  NoDup (keys a) -> sound cw a -> consistent cw a = Ok b -> b = true.
Proof.
  intros ND (HL & HD & HA) H. unfold consistent in H.
  rewrite (consistent_words_complete a [] HL) in H
    by (simpl; now apply sound_words_NoDup).
  eapply consistent_outer_complete; [| exact H].
  intros v1 word1 H1 b1 Hb1. eapply consistent_inner_complete; [| exact Hb1].
  intros v2 word2 i j H2 Hne Hov. eapply HA; eauto.
Qed.

(** X14. When [consistent] returns, it returns [True] exactly for the
    assignments in which every word has the length of its slot, distinct
    slots hold distinct words, and overlapping slots agree on the shared
    letter. *)
Theorem consistent_decides_sound (a : Assignment) (b : bool) :
  NoDup (keys a) ->
  consistent cw a = Ok b ->
  (b = true <-> sound cw a).
Proof.
  intros ND H. split.
  - intros ->. now apply consistent_sound.
  - intros HS. eapply sound_consistent; eauto.
Qed.
End ConsistentMore.

Lemma consistent_decides_sound_witness :
  NoDup (keys [(slot_d, "EEL"); (slot_a, "CAT")]%string) /\
  consistent (cross []) [(slot_d, "EEL"); (slot_a, "CAT")]%string = Ok false /\
  (false = true <-> sound (cross []) [(slot_d, "EEL"); (slot_a, "CAT")]%string).
Proof.
  assert (ND : NoDup (keys [(slot_d, "EEL"); (slot_a, "CAT")]%string))
    by (apply nodupb_sound; reflexivity).
  split; [exact ND |]. split; [reflexivity |].
  apply (consistent_decides_sound (cross [])
           [(slot_d, "EEL"); (slot_a, "CAT")]%string false ND eq_refl).
Defined.

(** ** Inference and search *)

Lemma asg_set_fresh (var : Var) (value : string) (a : Assignment) :
  asg_find var a = None -> asg_set var value a = a ++ [(var, value)].
Proof. apply dict_set_fresh. Qed.

Lemma mapM_fst {A B C : Type} (f : A * B -> result (A * C))
    (l : list (A * B)) (r : list (A * C)) :
  (forall a b, f a = Ok b -> fst b = fst a) ->
  mapM f l = Ok r -> map fst r = map fst l.
Proof.
  intros Hf. revert r. induction l as [| a t IH]; simpl; intros r H.
  - now injection H as <-.
  - apply bind_Ok in H. destruct H as (b & Hb & H).
    apply bind_Ok in H. destruct H as (bs & Hbs & H). injection H as <-.
    simpl. f_equal; [now apply Hf | now apply IH].
Qed.

Section SearchMore.
Variable set_iter : list Var -> list Var.
Variable cw : Crossword.

Lemma order_domain_values_sub (var : Var) (assignment : Assignment)
    (domains : Domains) (l : list string) :
  order_domain_values set_iter cw var assignment domains = Ok l ->
  exists d, dom_find var domains = Some d /\ forall w, In w l <-> In w d.
Proof.
  unfold order_domain_values. intros H.
  apply bind_Ok in H. destruct H as (d & Hd & H). apply dom_get_Ok in Hd.
  apply bind_Ok in H. destruct H as (r & Hr & H). injection H as <-.
  exists d. split; [exact Hd |].
  apply mapM_fst in Hr.
  2:{ intros [w0 c0] b Hb. apply bind_Ok in Hb. destruct Hb as (c & _ & Hb).
      now injection Hb as <-. }
  rewrite rules_out_init_spec, map_map in Hr. simpl in Hr. rewrite map_id in Hr.
  intros w. split; intros Hw.
  - apply (Permutation_in _ (Permutation_map fst (sorted_by_count_perm r))) in Hw.
    rewrite Hr in Hw. apply first_occurrences_In in Hw. tauto.
  - apply (Permutation_in _
             (Permutation_sym (Permutation_map fst (sorted_by_count_perm r)))).
    rewrite Hr. apply first_occurrences_In. simpl. tauto.
Qed.

Hypothesis set_iter_sub : forall l x, In x (set_iter l) -> In x l.


(** X16. A call of [backtrack] that returns [None] leaves the domain store
    and the assignment exactly as it found them. *)
Theorem backtrack_none_restores (n : nat) (domains : Domains)
    (assignment : Assignment) (st' : State) :
  NoDup (keys domains) ->
  backtrack set_iter cw n (domains, assignment) = Ok (None, st') ->
  st' = (domains, assignment).
Proof.
  intros ND H.
  exact (backtrack_restores set_iter cw set_iter_sub n (domains, assignment)
           st' ND H).
Qed.

Lemma try_values_extends (rec : State -> result (option Assignment * State))
    (var : Var) (values : list string) (domains : Domains)
    (assignment : Assignment) (a : Assignment) (st' : State) :
  restoring rec -> extending rec ->
  NoDup (keys domains) -> asg_find var assignment = None ->
  try_values set_iter cw rec var values (domains, assignment)
  = Ok (Some a, st') ->
  snd st' = a /\ exists rest, a = assignment ++ rest.
Proof.
  intros Hres Hext ND Hfresh.
  induction values as [| value t IH]; simpl; intros H; [discriminate |].
  apply bind_Ok in H. destruct H as ([res st1] & E & H).
  destruct res as [r |].
  - injection H as -> ->. unfold try_value in E.
    apply bind_Ok in E. destruct E as (ok & _ & E).
    destruct ok; [| discriminate].
    apply bind_Ok in E. destruct E as ([inferred d2] & Hinf & E).
    unfold infer in Hinf.
    apply bind_Ok in Hinf. destruct Hinf as ([b d2'] & Hac3 & Hinf).
    injection Hinf as _ ->.
    pose proof (ac3_shrinks _ _ _ _ _ _ Hac3) as [HK _].
    apply bind_Ok in E. destruct E as ([res [d3 a3]] & Hrec & E).
    destruct res as [r0 |].
    + injection E as -> <-. apply Hext in Hrec.
      * destruct Hrec as [Hs (rest & Hr)]. split; [exact Hs |].
        rewrite (asg_set_fresh _ _ _ Hfresh), <- app_assoc in Hr. eauto.
      * rewrite HK. now apply keys_dict_set_NoDup.
    + bind_inv E. bind_inv E. bind_inv E. discriminate.
  - apply try_value_restores in E; auto. subst st1. now apply IH.
Qed.

Lemma backtrack_extends (n : nat) : extending (backtrack set_iter cw n).
Proof.
  induction n as [| n IH]; intros d a0 a st' ND H; simpl in H;
    [discriminate |].
  destruct (assignment_complete cw a0).
  - injection H as <- <-. split; [reflexivity |]. exists []. now rewrite app_nil_r.
  - apply bind_Ok in H. destruct H as (var & Hsel & H).
    destruct var as [var |]; [| discriminate].
    apply select_unassigned_variable_sub in Hsel. destruct Hsel as [Hfresh _].
    apply bind_Ok in H. destruct H as (values & _ & H).
    eapply try_values_extends; [| exact IH | | | exact H]; auto.
    now apply backtrack_restores.
Qed.

(** X17. The assignment a successful call of [backtrack] returns is the
    assignment of the final state (the dict that was passed in, mutated),
    and it keeps the entries the call started with, in order, in front. *)
Theorem backtrack_returns_extension (n : nat) (domains : Domains)
    (assignment a : Assignment) (st' : State) :
  NoDup (keys domains) ->
  backtrack set_iter cw n (domains, assignment) = Ok (Some a, st') ->
  snd st' = a /\ exists rest, a = assignment ++ rest.
Proof.
  intros ND H. eapply backtrack_extends; eauto.
Qed.

Hypothesis set_iter_nodup : forall l, NoDup (set_iter l).

(** X18. The recursion of [backtrack] is bounded by the number of slots
    without a word: a budget above that number is never exhausted, and
    every loop of [ac3] inside the search ends. *)
Theorem backtrack_terminates (n : nat) (domains : Domains)
    (assignment : Assignment) :
  NoDup (keys domains) ->
  List.length (unassigned cw assignment) < n ->
  backtrack set_iter cw n (domains, assignment) <> NoFuel.
Proof.
  intros ND Hlt. now apply backtrack_fueled.
Qed.

(** X19. [solve] ends on every puzzle: it returns or raises within the
    budgets the embedding gives its loops and recursion. *)
Theorem solve_terminates :
  NoDup (variables cw) -> solve set_iter cw <> NoFuel.
Proof.
  intros ND. now apply solve_fueled.
Qed.
End SearchMore.


Lemma backtrack_none_restores_witness :
  (forall l x, In x (set_list l) -> In x l) /\
  NoDup (keys [(slot_a, ["CAT"]); (slot_d, ["CAT"])]%string) /\
  backtrack set_list (cross []) 3
    ([(slot_a, ["CAT"]); (slot_d, ["CAT"])]%string, [])
  = Ok (None, ([(slot_a, ["CAT"]); (slot_d, ["CAT"])]%string, [])) /\
  ([(slot_a, ["CAT"]); (slot_d, ["CAT"])]%string, @nil (Var * string))
  = ([(slot_a, ["CAT"]); (slot_d, ["CAT"])]%string, []).
Proof.
  assert (ND : NoDup (keys [(slot_a, ["CAT"]); (slot_d, ["CAT"])]%string))
    by (apply nodupb_sound; reflexivity).
  splits; [exact set_list_sub | exact ND | reflexivity |].
  apply (backtrack_none_restores set_list (cross []) set_list_sub 3
           [(slot_a, ["CAT"]); (slot_d, ["CAT"])]%string []
           ([(slot_a, ["CAT"]); (slot_d, ["CAT"])]%string, []) ND eq_refl).
Defined.

Lemma backtrack_returns_extension_witness :
  (forall l x, In x (set_list l) -> In x l) /\
  NoDup (keys [(slot_a, ["EGG"]); (slot_d, ["EEL"])]%string) /\
  backtrack set_list (cross []) 3
    ([(slot_a, ["EGG"]); (slot_d, ["EEL"])]%string, [(slot_d, "EEL"%string)])
  = Ok (Some [(slot_d, "EEL"); (slot_a, "EGG")]%string,
        ([(slot_a, ["EGG"]); (slot_d, ["EEL"])]%string,
         [(slot_d, "EEL"); (slot_a, "EGG")]%string)) /\
  snd ([(slot_a, ["EGG"]); (slot_d, ["EEL"])]%string,
       [(slot_d, "EEL"); (slot_a, "EGG")]%string)
  = [(slot_d, "EEL"); (slot_a, "EGG")]%string /\
  exists rest,
    [(slot_d, "EEL"); (slot_a, "EGG")]%string
    = [(slot_d, "EEL"%string)] ++ rest.
Proof.
  assert (ND : NoDup (keys [(slot_a, ["EGG"]); (slot_d, ["EEL"])]%string))
    by (apply nodupb_sound; reflexivity).
  split; [exact set_list_sub |]. split; [exact ND |]. split; [reflexivity |].
  apply (backtrack_returns_extension set_list (cross []) set_list_sub 3
           [(slot_a, ["EGG"]); (slot_d, ["EEL"])]%string
           [(slot_d, "EEL"%string)]
           [(slot_d, "EEL"); (slot_a, "EGG")]%string
           ([(slot_a, ["EGG"]); (slot_d, ["EEL"])]%string,
            [(slot_d, "EEL"); (slot_a, "EGG")]%string) ND eq_refl).
Defined.

Lemma backtrack_terminates_witness :
  (forall l x, In x (set_list l) -> In x l) /\
  (forall l, NoDup (set_list l)) /\
  NoDup (keys [(slot_a, ["EGG"]); (slot_d, ["EEL"])]%string) /\
  List.length (unassigned (cross []) []) < 3 /\
  backtrack set_list (cross []) 3
    ([(slot_a, ["EGG"]); (slot_d, ["EEL"])]%string, []) <> NoFuel.
Proof.
  assert (ND : NoDup (keys [(slot_a, ["EGG"]); (slot_d, ["EEL"])]%string))
    by (apply nodupb_sound; reflexivity).
  assert (Hlt : List.length (unassigned (cross []) []) < 3)
    by (vm_compute; lia).
  splits; [exact set_list_sub | exact set_list_nodup | exact ND | exact Hlt |].
  apply (backtrack_terminates set_list (cross []) set_list_sub set_list_nodup 3
           [(slot_a, ["EGG"]); (slot_d, ["EEL"])]%string [] ND Hlt).
Defined.

Lemma solve_terminates_witness :
  (forall l x, In x (set_list l) -> In x l) /\
  (forall l, NoDup (set_list l)) /\
  NoDup (variables (fork ["CAT"; "DOG"; "EGG"]%string)) /\
  solve set_list (fork ["CAT"; "DOG"; "EGG"]%string) <> NoFuel.
Proof.
  assert (ND : NoDup (variables (fork ["CAT"; "DOG"; "EGG"]%string)))
    by (apply nodupb_sound; reflexivity).
  splits; [exact set_list_sub | exact set_list_nodup | exact ND |].
  apply (solve_terminates set_list (fork ["CAT"; "DOG"; "EGG"]%string)
           set_list_sub set_list_nodup ND).
Defined.

(** ** What [solve] answers *)

Lemma init_domains_find (cw : Crossword) (v : Var) (d : list string) :
  dom_find v (init_domains cw) = Some d -> d = words cw.
Proof.
  unfold dom_find, init_domains.
  induction (variables cw) as [| x t IH]; simpl; [discriminate |].
  destruct (Var_eq_dec v x); [now intros [= <-] | exact IH].
Qed.

Lemma initial_in_dictionary (cw : Crossword) :
  in_dictionary cw (enforce_node_consistency (init_domains cw)).
Proof.
  intros v d w Hd Hw. rewrite dom_find_enforce in Hd.
  destruct (dom_find v (init_domains cw)) as [d0 |] eqn:E; [| discriminate].
  injection Hd as <-. apply filter_In in Hw. destruct Hw as [Hw _].
  now rewrite (init_domains_find cw v d0 E) in Hw.
Qed.

Lemma shrinks_in_dictionary (cw : Crossword) (d' d : Domains) :
  shrinks d' d -> in_dictionary cw d -> in_dictionary cw d'.
Proof.
  intros [_ HS] HD v dv w Hv Hw. destruct (HS v dv Hv) as (d0 & Hd0 & Hincl).
  eapply HD; [exact Hd0 | now apply Hincl].
Qed.

Lemma In_asg_find (s : Assignment) (v : Var) (w : string) :
  NoDup (keys s) -> In (v, w) s -> asg_find v s = Some w.
Proof.
  unfold asg_find. induction s as [| [v0 w0] t IH]; simpl; intros ND H;
    [contradiction |].
  inversion ND as [| ? ? Hnot ND']; subst.
  destruct (Var_eq_dec v v0) as [-> | Hne].
  - destruct H as [[= ->] | H]; [reflexivity |].
    exfalso. apply Hnot. change v0 with (fst (v0, w)). now apply in_map.
  - destruct H as [[= -> ->] | H]; [contradiction | auto].
Qed.

Section SolveMore.
Variable set_iter : list Var -> list Var.
Variable cw : Crossword.
Hypothesis set_iter_sub : forall l x, In x (set_iter l) -> In x l.

Lemma try_values_lexical (rec : State -> result (option Assignment * State))
    (var : Var) (values : list string) (domains : Domains)
    (assignment : Assignment) (a : Assignment) (st' : State) :
  restoring rec -> lexical cw rec ->
  NoDup (keys domains) -> in_dictionary cw domains ->
  words_of cw assignment -> asg_find var assignment = None ->
  (forall value, In value values -> In value (words cw)) ->
  try_values set_iter cw rec var values (domains, assignment)
  = Ok (Some a, st') ->
  words_of cw a.
Proof.
  intros Hres Hlex ND HD HW Hfresh.
  induction values as [| value t IH]; simpl; intros Hval H; [discriminate |].
  apply bind_Ok in H. destruct H as ([res st1] & E & H).
  destruct res as [r |].
  - injection H as -> ->. unfold try_value in E.
    apply bind_Ok in E. destruct E as (ok & _ & E).
    destruct ok; [| discriminate].
    apply bind_Ok in E. destruct E as ([inferred d2] & Hinf & E).
    unfold infer in Hinf.
    apply bind_Ok in Hinf. destruct Hinf as ([b d2'] & Hac3 & Hinf).
    injection Hinf as _ ->.
    pose proof (ac3_shrinks _ _ _ _ _ _ Hac3) as HS.
    apply bind_Ok in E. destruct E as ([res [d3 a3]] & Hrec & E).
    destruct res as [r0 |].
    + injection E as -> _. eapply Hlex; [| | | exact Hrec].
      * destruct HS as [HK _]. rewrite HK. now apply keys_dict_set_NoDup.
      * eapply shrinks_in_dictionary; [exact HS |].
        intros v d w Hv Hw. destruct (Var_eq_dec v var) as [-> | Hne].
        -- unfold dom_find, dom_set in Hv. rewrite dict_find_set_same in Hv.
           injection Hv as <-. destruct Hw as [<- | []]. apply Hval. now left.
        -- unfold dom_find, dom_set in Hv.
           rewrite dict_find_set_other in Hv by exact Hne. eapply HD; eauto.
      * rewrite (asg_set_fresh _ _ _ Hfresh). intros v w Hin.
        apply in_app_or in Hin. destruct Hin as [Hin | [[= <- <-] | []]];
          [eapply HW; eauto | apply Hval; now left].
    + bind_inv E. bind_inv E. bind_inv E. discriminate.
  - apply try_value_restores in E; auto. subst st1.
    apply IH; [| exact H]. intros value0 Hv0. apply Hval. now right.
Qed.

Lemma backtrack_lexical (n : nat) : lexical cw (backtrack set_iter cw n).
Proof.
  induction n as [| n IH]; intros d a0 a st' ND HD HW H; simpl in H;
    [discriminate |].
  destruct (assignment_complete cw a0).
  - now injection H as <- _.
  - apply bind_Ok in H. destruct H as (var & Hsel & H).
    destruct var as [var |]; [| discriminate].
    apply select_unassigned_variable_sub in Hsel. destruct Hsel as [Hfresh _].
    apply bind_Ok in H. destruct H as (values & Hval & H).
    apply order_domain_values_sub in Hval. destruct Hval as (dv & Hdv & Hiff).
    eapply try_values_lexical; [| exact IH | | | | | | exact H]; auto.
    + now apply backtrack_restores.
    + intros value Hv. apply Hiff in Hv. eapply HD; eauto.
Qed.

(** X20. An assignment that [solve] returns is a solution of the puzzle:
    every slot has exactly one word, every word is a word of the dictionary
    with the length of its slot, the words are pairwise distinct, and
    crossing words agree on the shared letter. *)
Theorem solve_returns_solution (a : Assignment) :
  NoDup (variables cw) ->
  solve set_iter cw = Ok (Some a) ->
  solution cw a /\ NoDup (keys a).
Proof.
  intros ND H.
  destruct (solve_complete set_iter cw set_iter_sub a ND H) as [NDa HC].
  unfold solve in H. apply bind_Ok in H. destruct H as ([b d] & Hac3 & H).
  pose proof (ac3_shrinks _ _ _ _ _ _ Hac3) as HS.
  apply bind_Ok in H. destruct H as ([res st'] & Hbt & H). injection H as ->.
  assert (HW : words_of cw a).
  { eapply backtrack_lexical; [| | | exact Hbt].
    - destruct HS as [HK _]. rewrite HK, keys_node_consistent. exact ND.
    - eapply shrinks_in_dictionary; [exact HS | apply initial_in_dictionary].
    - intros v w []. }
  split; [split |]; [| | exact NDa].
  - apply backtrack_checked in Hbt. simpl in Hbt.
    destruct Hbt as [-> | Hbt]; [apply sound_nil | now apply consistent_sound].
  - intros v Hv. apply HC in Hv. apply in_map_iff in Hv.
    destruct Hv as ([v0 w] & Hfst & Hin). simpl in Hfst. subst v0.
    exists w. split; [exact Hin | eapply HW; eauto].
Qed.

Variable s : Assignment.
Hypothesis s_agrees : agrees cw s.
Hypothesis s_sound : sound cw s.

Lemma within_sound (a : Assignment) : within a s -> sound cw a.
Proof.
  intros HW. destruct s_sound as (HL & HD & HA).
  assert (HI : forall v w, In (v, w) a -> In (v, w) s).
  { intros v w Hin. apply HW in Hin. now apply dict_find_In in Hin. }
  unfold sound. splits.
  - intros v w Hin. apply HL. auto.
  - intros v1 w1 v2 w2 H1 H2. apply HD; auto.
  - intros v1 w1 v2 w2 i j H1 H2. apply HA; auto.
Qed.

Lemma try_value_finds (rec : State -> result (option Assignment * State))
    (var : Var) (value : string) (domains : Domains)
    (assignment : Assignment) (st' : State) :
  finding s rec ->
  NoDup (keys domains) -> chooses s domains ->
  within assignment s -> NoDup (keys assignment) ->
  asg_find var assignment = None -> asg_find var s = Some value ->
  try_value set_iter cw rec var value (domains, assignment) <> Ok (None, st').
Proof.
  intros Hfind ND Hch HW NDa Hfresh Hs H. unfold try_value in H.
  assert (HW1 : within (asg_set var value assignment) s).
  { rewrite (asg_set_fresh _ _ _ Hfresh). intros v w Hin.
    apply in_app_or in Hin. destruct Hin as [Hin | [[= <- <-] | []]]; auto. }
  assert (ND1 : NoDup (keys (asg_set var value assignment))).
  { rewrite (asg_set_fresh _ _ _ Hfresh). unfold keys. rewrite map_app. simpl.
    apply NoDup_app; [exact NDa | repeat constructor; simpl; tauto |].
    intros x Hx [<- | []]. apply dict_find_None in Hfresh. contradiction. }
  apply bind_Ok in H. destruct H as (ok & Hok & H).
  rewrite (sound_consistent cw _ ok ND1 (within_sound _ HW1) Hok) in H.
  apply bind_Ok in H. destruct H as ([inferred d2] & Hinf & H).
  unfold infer in Hinf.
  apply bind_Ok in Hinf. destruct Hinf as ([b d2'] & Hac3 & Hinf).
  injection Hinf as _ ->.
  pose proof (ac3_shrinks _ _ _ _ _ _ Hac3) as [HK _].
  assert (Hch2 : chooses s d2).
  { unfold ac3 in Hac3.
    eapply (ac3_loop_chooses set_iter cw s); [exact s_agrees | | exact Hac3].
    intros v d Hv. destruct (Var_eq_dec v var) as [-> | Hne].
    - unfold dom_find, dom_set in Hv. rewrite dict_find_set_same in Hv.
      injection Hv as <-. exists value. split; [exact Hs | now left].
    - unfold dom_find, dom_set in Hv.
      rewrite dict_find_set_other in Hv by exact Hne. now apply Hch. }
  apply bind_Ok in H. destruct H as ([res [d3 a3]] & Hrec & H).
  destruct res as [r |]; [discriminate |].
  revert Hrec. apply Hfind; auto.
  rewrite HK. now apply keys_dict_set_NoDup.
Qed.

Lemma try_values_finds (rec : State -> result (option Assignment * State))
    (var : Var) (value : string) (values : list string) (domains : Domains)
    (assignment : Assignment) (st' : State) :
  restoring rec -> finding s rec ->
  NoDup (keys domains) -> chooses s domains ->
  within assignment s -> NoDup (keys assignment) ->
  asg_find var assignment = None -> asg_find var s = Some value ->
  In value values ->
  try_values set_iter cw rec var values (domains, assignment) <> Ok (None, st').
Proof.
  intros Hres Hfind ND Hch HW NDa Hfresh Hs.
  induction values as [| value0 t IH]; simpl; intros Hin H; [contradiction |].
  apply bind_Ok in H. destruct H as ([res st1] & E & H).
  destruct res as [r |]; [discriminate |].
  destruct (string_dec value0 value) as [-> | Hne].
  - revert E. now apply try_value_finds.
  - apply try_value_restores in E; auto. subst st1.
    destruct Hin as [-> | Hin]; [contradiction | now apply IH].
Qed.

Lemma backtrack_finding (n : nat) : finding s (backtrack set_iter cw n).
Proof.
  induction n as [| n IH]; intros d a0 st' ND Hch HW NDa H; simpl in H;
    [discriminate |].
  destruct (assignment_complete cw a0); [discriminate |].
  apply bind_Ok in H. destruct H as (var & Hsel & H).
  destruct var as [var |]; [| discriminate].
  apply select_unassigned_variable_sub in Hsel. destruct Hsel as [Hfresh _].
  apply bind_Ok in H. destruct H as (values & Hval & H).
  apply order_domain_values_sub in Hval. destruct Hval as (dv & Hdv & Hiff).
  destruct (Hch var dv Hdv) as (w & Hw & Hin).
  revert H. eapply try_values_finds; eauto.
  - now apply backtrack_restores.
  - now apply Hiff.
Qed.
End SolveMore.

(** X21. When the puzzle has a solution, [solve] does not answer [None]:
    the search never gives up a branch that leads to a solution, so [None]
    is returned only for puzzles without a solution. *)
Theorem solve_none_is_final (set_iter : list Var -> list Var)
    (cw : Crossword) (s : Assignment) :
  (forall l x, In x (set_iter l) -> In x l) ->
  NoDup (variables cw) ->
  (forall v, has_overlap cw v v = false) ->
  NoDup (keys s) ->
  solution cw s ->
  solve set_iter cw <> Ok None.
Proof.
  intros Hsub ND Hself NDs [HS HC] H.
  assert (Hag : agrees cw s).
  { intros v1 v2 i j w1 w2 Hov H1 H2.
    apply dict_find_In in H1. apply dict_find_In in H2.
    destruct HS as (_ & _ & HA). eapply HA; eauto.
    intros ->. specialize (Hself v2). unfold has_overlap in Hself.
    rewrite Hov in Hself. discriminate. }
  unfold solve in H. apply bind_Ok in H. destruct H as ([b d] & Hac3 & H).
  pose proof (ac3_shrinks _ _ _ _ _ _ Hac3) as [HK _].
  rewrite keys_node_consistent in HK.
  apply bind_Ok in H. destruct H as ([res st'] & Hbt & H). injection H as ->.
  revert Hbt. apply (backtrack_finding set_iter cw Hsub s Hag HS).
  - now rewrite HK.
  - unfold ac3 in Hac3.
    eapply (ac3_loop_chooses set_iter cw s); [exact Hag | | exact Hac3].
    intros v dv Hv.
    assert (Hin : In v (variables cw)).
    { rewrite <- (keys_node_consistent cw). eapply dict_find_Some_key.
      exact Hv. }
    rewrite (enforce_init_find cw v Hin) in Hv. injection Hv as <-.
    destruct (HC v Hin) as (w & Hw & Hd). exists w. split.
    + now apply In_asg_find.
    + apply filter_In. split; [exact Hd |]. apply Nat.eqb_eq.
      destruct HS as (HL & _). now apply HL.
  - intros v w [].
  - constructor.
Qed.

Lemma cross_no_self_overlap (dictionary : list string) (v : Var) :
  has_overlap (cross dictionary) v v = false.
Proof.
  unfold has_overlap, cross, overlaps. cbn [dict_find].
  destruct (Arc_eq_dec (v, v) (slot_a, slot_d)) as [E | _].
  - injection E as -> E. discriminate.
  - destruct (Arc_eq_dec (v, v) (slot_d, slot_a)) as [E | _]; [| reflexivity].
    injection E as -> E. discriminate.
Qed.

Lemma cross_solution :
  solution (cross ["CAT"; "DOG"; "EEL"; "EGG"]%string)
    [(slot_d, "EEL"); (slot_a, "EGG")]%string.
Proof.
  split.
  - apply consistent_sound. reflexivity.
  - intros v [<- | [<- | []]].
    + exists "EGG"%string. simpl. auto 10.
    + exists "EEL"%string. simpl. auto 10.
Qed.

Lemma solve_returns_solution_witness :
  (forall l x, In x (set_list l) -> In x l) /\
  NoDup (variables (cross ["CAT"; "DOG"; "EEL"; "EGG"]%string)) /\
  solve set_list (cross ["CAT"; "DOG"; "EEL"; "EGG"]%string)
  = Ok (Some [(slot_d, "EEL"); (slot_a, "EGG")]%string) /\
  solution (cross ["CAT"; "DOG"; "EEL"; "EGG"]%string)
    [(slot_d, "EEL"); (slot_a, "EGG")]%string /\
  NoDup (keys [(slot_d, "EEL"); (slot_a, "EGG")]%string).
Proof.
  assert (ND : NoDup (variables (cross ["CAT"; "DOG"; "EEL"; "EGG"]%string)))
    by (apply nodupb_sound; reflexivity).
  split; [exact set_list_sub |]. split; [exact ND |]. split; [reflexivity |].
  apply (solve_returns_solution set_list
           (cross ["CAT"; "DOG"; "EEL"; "EGG"]%string) set_list_sub
           [(slot_d, "EEL"); (slot_a, "EGG")]%string ND eq_refl).
Defined.

Lemma solve_none_is_final_witness :
  (forall l x, In x (set_list l) -> In x l) /\
  NoDup (variables (cross ["CAT"; "DOG"; "EEL"; "EGG"]%string)) /\
  (forall v,
     has_overlap (cross ["CAT"; "DOG"; "EEL"; "EGG"]%string) v v = false) /\
  NoDup (keys [(slot_d, "EEL"); (slot_a, "EGG")]%string) /\
  solution (cross ["CAT"; "DOG"; "EEL"; "EGG"]%string)
    [(slot_d, "EEL"); (slot_a, "EGG")]%string /\
  solve set_list (cross ["CAT"; "DOG"; "EEL"; "EGG"]%string) <> Ok None.
Proof.
  assert (ND : NoDup (variables (cross ["CAT"; "DOG"; "EEL"; "EGG"]%string)))
    by (apply nodupb_sound; reflexivity).
  assert (NDs : NoDup (keys [(slot_d, "EEL"); (slot_a, "EGG")]%string))
    by (apply nodupb_sound; reflexivity).
  splits; [exact set_list_sub | exact ND | apply cross_no_self_overlap
          | exact NDs | exact cross_solution |].
  apply (solve_none_is_final set_list
           (cross ["CAT"; "DOG"; "EEL"; "EGG"]%string)
           [(slot_d, "EEL"); (slot_a, "EGG")]%string set_list_sub ND
           (cross_no_self_overlap _) NDs cross_solution).
Defined.

(** ** The letter grid *)

Lemma list_assign_inv {A : Type} (x : A) (l : list A) :
  forall k l',
    list_assign k x l = Ok l' ->
    k < List.length l /\ nth_error l' k = Some x /\
    forall k', k' <> k -> nth_error l' k' = nth_error l k'.
Proof.
  induction l as [| a t IH]; intros k l' H;
    [destruct k; discriminate |].
  destruct k as [| k]; simpl in *.
  - injection H as <-. splits; [lia | reflexivity |].
    intros [| k'] Hne; [contradiction | reflexivity].
  - apply bind_Ok in H. destruct H as (t' & Ht & H). injection H as <-.
    destruct (IH _ _ Ht) as (Hlt & Hk & Ho). splits; [lia | exact Hk |].
    intros [| k'] Hne; [reflexivity |]. simpl. apply Ho. lia.
Qed.

Lemma list_assign_Ok {A : Type} (x : A) (l : list A) :
  forall k, k < List.length l -> exists l', list_assign k x l = Ok l'.
Proof.
  induction l as [| a t IH]; simpl; intros k Hk; [lia |].
  destruct k as [| k]; simpl; [eauto |].
  destruct (IH k) as [t' Ht]; [lia |]. rewrite Ht. simpl. eauto.
Qed.

Lemma grid_assign_inv (i j : nat) (c : ascii) (g g' : Grid) :
  grid_assign i j c g = Ok g' ->
  grid_at g i j <> None /\
  grid_at g' i j = Some (Some c) /\
  (forall i' j', (i', j') <> (i, j) -> grid_at g' i' j' = grid_at g i' j') /\
  (forall i' j', grid_at g' i' j' = None <-> grid_at g i' j' = None).
Proof.
  unfold grid_assign. intros H.
  destruct (nth_error g i) as [row |] eqn:Hrow; [| discriminate].
  apply bind_Ok in H. destruct H as (row' & Hrow' & H).
  apply list_assign_inv in Hrow'. destruct Hrow' as (Hj & Hnew & Hother).
  apply list_assign_inv in H. destruct H as (Hi & Hrowi & Hrows).
  assert (Hat : grid_at g i j <> None).
  { unfold grid_at. rewrite Hrow. now apply nth_error_Some. }
  assert (Hset : grid_at g' i j = Some (Some c)).
  { unfold grid_at. now rewrite Hrowi. }
  assert (Hoth : forall i' j', (i', j') <> (i, j) ->
                   grid_at g' i' j' = grid_at g i' j').
  { intros i' j' Hne. unfold grid_at.
    destruct (Nat.eq_dec i' i) as [-> | Hi'].
    - rewrite Hrowi, Hrow. apply Hother. congruence.
    - now rewrite (Hrows i' Hi'). }
  splits; [exact Hat | exact Hset | exact Hoth |].
  intros i' j'.
  destruct (Nat.eq_dec i' i) as [-> | Hi'];
    [destruct (Nat.eq_dec j' j) as [-> | Hj'] |].
  - rewrite Hset. split; [discriminate | intros E; now rewrite E in Hat].
  - rewrite Hoth by congruence. tauto.
  - rewrite Hoth by congruence. tauto.
Qed.

Lemma grid_assign_Ok (i j : nat) (c : ascii) (g : Grid) :
  grid_at g i j <> None -> exists g', grid_assign i j c g = Ok g'.
Proof.
  unfold grid_at, grid_assign. intros H.
  destruct (nth_error g i) as [row |] eqn:Hrow; [| contradiction].
  destruct (list_assign_Ok (Some c) row j) as [row' Hrow'];
    [now apply nth_error_Some |].
  rewrite Hrow'. simpl. apply list_assign_Ok.
  apply nth_error_Some. congruence.
Qed.

Lemma cell_injective (v : Var) (k1 k2 : nat) :
  cell v k1 = cell v k2 -> k1 = k2.
Proof.
  unfold cell. destruct (var_direction v); intros H; injection H; intros;
    lia.
Qed.

Lemma write_word_spec (v : Var) (word : string) :
  forall k g g',
    write_word v word k g = Ok g' ->
    (forall i j, grid_at g' i j = None <-> grid_at g i j = None) /\
    (forall m c, String.get m word = Some c ->
       grid_at g (fst (cell v (k + m))) (snd (cell v (k + m))) <> None /\
       grid_at g' (fst (cell v (k + m))) (snd (cell v (k + m)))
       = Some (Some c)) /\
    (forall i j c, grid_at g' i j = Some (Some c) ->
       grid_at g i j = Some (Some c) \/
       exists m, cell v (k + m) = (i, j) /\ String.get m word = Some c) /\
    (forall i j c, grid_at g i j = Some (Some c) ->
       exists c', grid_at g' i j = Some (Some c')).
Proof.
  induction word as [| c0 rest IH]; intros k g g' H; cbn [write_word] in H.
  - injection H as <-. splits; [tauto | discriminate | auto | eauto].
  - destruct (cell v k) as [ci cj] eqn:Hcell.
    apply bind_Ok in H. destruct H as (g1 & Hg1 & H).
    apply grid_assign_inv in Hg1. destruct Hg1 as (Hin & Hset & Hoth & Hshape).
    destruct (IH _ _ _ H) as (IHshape & IHwritten & IHcontent & IHsome).
    splits.
    + intros i j. rewrite IHshape. apply Hshape.
    + intros [| m] c Hget.
      * injection Hget as <-. rewrite Nat.add_0_r, Hcell. simpl.
        split; [exact Hin |].
        destruct (IHsome ci cj c0 Hset) as (c' & Hc').
        destruct (IHcontent ci cj c' Hc') as [Hold | (m & Hm & _)].
        -- congruence.
        -- rewrite <- Hcell in Hm. apply cell_injective in Hm. lia.
      * destruct (IHwritten m c Hget) as [Hfit Hw].
        replace (k + S m) with (S k + m) by lia. split; [| exact Hw].
        intros E. apply Hfit. now apply Hshape.
    + intros i j c Hc. destruct (IHcontent i j c Hc) as [Hold | (m & Hm & Hget)].
      * destruct (Nat.eq_dec i ci) as [-> | Hi];
          [destruct (Nat.eq_dec j cj) as [-> | Hj] |].
        -- right. exists 0. rewrite Nat.add_0_r, Hcell. split; [reflexivity |].
           simpl. congruence.
        -- left. rewrite <- Hoth by congruence. exact Hold.
        -- left. rewrite <- Hoth by congruence. exact Hold.
      * right. exists (S m). replace (k + S m) with (S k + m) by lia. auto.
    + intros i j c Hc. apply (IHsome i j)
        with (c := if Nat.eq_dec i ci
                   then if Nat.eq_dec j cj then c0 else c else c).
      destruct (Nat.eq_dec i ci) as [-> | Hi];
        [destruct (Nat.eq_dec j cj) as [-> | Hj] |].
      * exact Hset.
      * rewrite Hoth by congruence. exact Hc.
      * rewrite Hoth by congruence. exact Hc.
Qed.

Lemma write_word_Ok (v : Var) (word : string) :
  forall k g,
    (forall m, m < String.length word ->
       grid_at g (fst (cell v (k + m))) (snd (cell v (k + m))) <> None) ->
    exists g', write_word v word k g = Ok g'.
Proof.
  induction word as [| c0 rest IH]; intros k g Hfit; cbn [write_word];
    [eauto |].
  destruct (cell v k) as [ci cj] eqn:Hcell.
  destruct (grid_assign_Ok ci cj c0 g) as [g1 Hg1].
  { specialize (Hfit 0). rewrite Nat.add_0_r, Hcell in Hfit. apply Hfit.
    simpl. lia. }
  rewrite Hg1. simpl. apply IH. intros m Hm.
  apply grid_assign_inv in Hg1. destruct Hg1 as (_ & _ & _ & Hshape).
  rewrite Hshape. replace (S k + m) with (k + S m) by lia. apply Hfit.
  simpl. lia.
Qed.

Lemma write_words_spec (items : Assignment) :
  forall g g',
    write_words items g = Ok g' ->
    (forall i j, grid_at g' i j = None <-> grid_at g i j = None) /\
    (forall v word k c, In (v, word) items -> String.get k word = Some c ->
       grid_at g (fst (cell v k)) (snd (cell v k)) <> None /\
       exists c', grid_at g' (fst (cell v k)) (snd (cell v k))
                  = Some (Some c')) /\
    (forall i j c, grid_at g' i j = Some (Some c) ->
       grid_at g i j = Some (Some c) \/
       exists v word k,
         In (v, word) items /\ cell v k = (i, j) /\
         String.get k word = Some c) /\
    (forall i j c, grid_at g i j = Some (Some c) ->
       exists c', grid_at g' i j = Some (Some c')).
Proof.
  induction items as [| [v0 w0] t IH]; simpl; intros g g' H.
  - injection H as <-. splits; [tauto | intros ? ? ? ? [] | auto | eauto].
  - apply bind_Ok in H. destruct H as (g1 & Hg1 & H).
    apply write_word_spec in Hg1.
    destruct Hg1 as (Hshape & Hwritten & Hcontent & Hsome).
    destruct (IH _ _ H) as (IHshape & IHwritten & IHcontent & IHsome).
    splits.
    + intros i j. rewrite IHshape. apply Hshape.
    + intros v word k c [[= <- <-] | Hin] Hget.
      * destruct (Hwritten k c Hget) as [Hfit Hw]. simpl in Hfit, Hw.
        split; [exact Hfit | eapply IHsome; exact Hw].
      * destruct (IHwritten v word k c Hin Hget) as [Hfit Hw].
        split; [| exact Hw]. intros E. apply Hfit. now apply Hshape.
    + intros i j c Hc.
      destruct (IHcontent i j c Hc) as [Hold | (v & word & k & Hin & Hk & Hg)].
      * destruct (Hcontent i j c Hold) as [Hold' | (m & Hm & Hg)];
          [now left |].
        right. exists v0, w0, m. simpl in Hm. auto.
      * right. exists v, word, k. auto.
    + intros i j c Hc. destruct (Hsome i j c Hc) as (c' & Hc'). eauto.
Qed.

Lemma write_words_Ok (items : Assignment) :
  forall g,
    (forall v word k, In (v, word) items -> k < String.length word ->
       grid_at g (fst (cell v k)) (snd (cell v k)) <> None) ->
    exists g', write_words items g = Ok g'.
Proof.
  induction items as [| [v0 w0] t IH]; simpl; intros g Hfit; [eauto |].
  destruct (write_word_Ok v0 w0 0 g) as [g1 Hg1].
  { intros m Hm. simpl. apply (Hfit v0 w0 m); auto. }
  rewrite Hg1. simpl. apply IH. intros v word k Hin Hk.
  apply write_word_spec in Hg1. destruct Hg1 as (Hshape & _).
  rewrite Hshape. apply (Hfit v word k); auto.
Qed.

Lemma blank_grid_at (height width i j : nat) :
  grid_at (repeat (repeat None width) height) i j
  = if (i <? height) && (j <? width) then Some None else None.
Proof.
  unfold grid_at.
  destruct (i <? height) eqn:Hi.
  - apply Nat.ltb_lt in Hi. rewrite (nth_error_repeat _ Hi). simpl.
    destruct (j <? width) eqn:Hj.
    + apply Nat.ltb_lt in Hj. now rewrite (nth_error_repeat _ Hj).
    + apply Nat.ltb_ge in Hj. apply nth_error_None. now rewrite repeat_length.
  - apply Nat.ltb_ge in Hi. simpl.
    assert (nth_error (repeat (repeat (@None ascii) width) height) i = None)
      as -> by (apply nth_error_None; now rewrite repeat_length).
    reflexivity.
Qed.

Lemma blank_grid_inside (height width i j : nat) :
  grid_at (repeat (repeat None width) height) i j <> None
  <-> i < height /\ j < width.
Proof.
  rewrite blank_grid_at.
  destruct (Nat.ltb_spec i height), (Nat.ltb_spec j width); simpl;
    split; intros H1; try lia; try congruence; split; lia.
Qed.

Lemma bind_index_only {A B : Type} (c : result A) (k : A -> result B) :
  index_only c -> (forall a, index_only (k a)) -> index_only (bind c k).
Proof.
  destruct c as [a | e |]; simpl; intros Hc Hk; [apply Hk | exact Hc | exact Hc].
Qed.

Lemma list_assign_index_only {A : Type} (x : A) (l : list A) :
  forall k, index_only (list_assign k x l).
Proof.
  induction l as [| a t IH]; intros k; destruct k as [| k]; simpl; auto.
  apply bind_index_only; [apply IH | intros t'; exact I].
Qed.

Lemma grid_assign_index_only (i j : nat) (c : ascii) (g : Grid) :
  index_only (grid_assign i j c g).
Proof.
  unfold grid_assign. destruct (nth_error g i) as [row |]; [| reflexivity].
  apply bind_index_only; [apply list_assign_index_only |].
  intros row'. apply list_assign_index_only.
Qed.

Lemma write_word_index_only (v : Var) (word : string) :
  forall k g, index_only (write_word v word k g).
Proof.
  induction word as [| c0 rest IH]; intros k g; cbn [write_word]; [exact I |].
  destruct (cell v k) as [ci cj].
  apply bind_index_only; [apply grid_assign_index_only | intros g1; apply IH].
Qed.

Lemma write_words_index_only (items : Assignment) :
  forall g, index_only (write_words items g).
Proof.
  induction items as [| [v0 w0] t IH]; intros g; simpl; [exact I |].
  apply bind_index_only; [apply write_word_index_only | intros g1; apply IH].
Qed.

(** X22. [letter_grid] returns a grid exactly when every letter of every
    assigned word falls inside the [height] x [width] grid; a word that
    sticks out ends the call with [IndexError], the only way the call can
    fail.  The returned grid has [height] rows of [width] cells. *)
Theorem letter_grid_returns (height width : nat) (assignment : Assignment) :
  ((exists g, letter_grid height width assignment = Ok g) <->
   forall v word k, In (v, word) assignment -> k < String.length word ->
     fst (cell v k) < height /\ snd (cell v k) < width) /\
  (forall g, letter_grid height width assignment = Ok g ->
     forall i j, grid_at g i j <> None <-> i < height /\ j < width) /\
  index_only (letter_grid height width assignment).
Proof.
  unfold letter_grid. split; [split | split];
    [| | | apply write_words_index_only].
  - intros [g H] v word k Hin Hk. apply write_words_spec in H.
    destruct H as (_ & Hwritten & _).
    destruct (proj2 (get_Some_lt word k) Hk) as [c Hc].
    destruct (Hwritten v word k c Hin Hc) as [Hfit _].
    now apply blank_grid_inside.
  - intros Hfit. apply write_words_Ok. intros v word k Hin Hk.
    apply blank_grid_inside. eauto.
  - intros g H i j. apply write_words_spec in H. destruct H as (Hshape & _).
    rewrite <- blank_grid_inside. split; intros Hn E; apply Hn;
      now apply Hshape.
Qed.

(** X23. Every letter in the grid that [letter_grid] returns is a letter of
    an assigned word, at the cell that letter belongs to; a cell that no
    assigned word covers holds [None]. *)
Theorem letter_grid_content (height width : nat) (assignment : Assignment)
    (g : Grid) (i j : nat) (c : ascii) :
  letter_grid height width assignment = Ok g ->
  grid_at g i j = Some (Some c) ->
  exists v word k,
    In (v, word) assignment /\ cell v k = (i, j) /\
    String.get k word = Some c.
Proof.
  unfold letter_grid. intros H Hc. apply write_words_spec in H.
  destruct H as (_ & _ & Hcontent & _).
  destruct (Hcontent i j c Hc) as [Hold | Hnew]; [| exact Hnew].
  rewrite blank_grid_at in Hold.
  destruct ((i <? height) && (j <? width)); discriminate.
Qed.

(** X24. When the assigned words agree wherever two of them meet in a
    cell, the grid that [letter_grid] returns shows every assigned word in
    full: the cell of the [k]-th letter of a slot holds the [k]-th letter of
    the slot's word. *)
Theorem letter_grid_shows_words (height width : nat)
    (assignment : Assignment) (g : Grid) (v : Var) (word : string) (k : nat)
    (c : ascii) :
  (forall v1 w1 k1 c1 v2 w2 k2 c2,
     In (v1, w1) assignment -> In (v2, w2) assignment ->
     cell v1 k1 = cell v2 k2 ->
     String.get k1 w1 = Some c1 -> String.get k2 w2 = Some c2 -> c1 = c2) ->
  letter_grid height width assignment = Ok g ->
  In (v, word) assignment ->
  String.get k word = Some c ->
  grid_at g (fst (cell v k)) (snd (cell v k)) = Some (Some c).
Proof.
  unfold letter_grid. intros Hmeet H Hin Hget. apply write_words_spec in H.
  destruct H as (_ & Hwritten & Hcontent & _).
  destruct (Hwritten v word k c Hin Hget) as [_ (c' & Hc')].
  rewrite Hc'. do 2 f_equal.
  destruct (Hcontent _ _ c' Hc') as [Hold | (v2 & w2 & k2 & Hin2 & Hk2 & Hg2)].
  - rewrite blank_grid_at in Hold.
    destruct ((fst (cell v k) <? height) && (snd (cell v k) <? width));
      discriminate.
  - apply (Hmeet v2 w2 k2 c' v word k c); auto.
Qed.

Lemma letter_grid_content_witness :
  letter_grid 3 3 [(slot_d, "EEL"); (slot_a, "EGG")]%string
  = Ok [[Some "E"%char; Some "G"%char; Some "G"%char];
        [Some "E"%char; None; None]; [Some "L"%char; None; None]] /\
  grid_at [[Some "E"%char; Some "G"%char; Some "G"%char];
           [Some "E"%char; None; None]; [Some "L"%char; None; None]] 2 0
  = Some (Some "L"%char) /\
  exists v word k,
    In (v, word) [(slot_d, "EEL"); (slot_a, "EGG")]%string /\
    cell v k = (2, 0) /\ String.get k word = Some "L"%char.
Proof.
  split; [reflexivity |]. split; [reflexivity |].
  apply (letter_grid_content 3 3 [(slot_d, "EEL"); (slot_a, "EGG")]%string
           [[Some "E"%char; Some "G"%char; Some "G"%char];
            [Some "E"%char; None; None]; [Some "L"%char; None; None]]
           2 0 "L"%char eq_refl eq_refl).
Defined.

Lemma cross_words_meet :
  forall v1 w1 k1 c1 v2 w2 k2 c2,
    In (v1, w1) [(slot_d, "EEL"); (slot_a, "EGG")]%string ->
    In (v2, w2) [(slot_d, "EEL"); (slot_a, "EGG")]%string ->
    cell v1 k1 = cell v2 k2 ->
    String.get k1 w1 = Some c1 -> String.get k2 w2 = Some c2 -> c1 = c2.
Proof.
  intros v1 w1 k1 c1 v2 w2 k2 c2 H1 H2 Hc G1 G2.
  destruct H1 as [H1 | [H1 | []]]; injection H1 as <- <-;
    destruct H2 as [H2 | [H2 | []]]; injection H2 as <- <-;
    unfold cell in Hc; simpl in Hc; injection Hc; intros; subst;
    simpl in G1, G2; congruence.
Qed.

Lemma letter_grid_shows_words_witness :
  (forall v1 w1 k1 c1 v2 w2 k2 c2,
     In (v1, w1) [(slot_d, "EEL"); (slot_a, "EGG")]%string ->
     In (v2, w2) [(slot_d, "EEL"); (slot_a, "EGG")]%string ->
     cell v1 k1 = cell v2 k2 ->
     String.get k1 w1 = Some c1 -> String.get k2 w2 = Some c2 -> c1 = c2) /\
  letter_grid 3 3 [(slot_d, "EEL"); (slot_a, "EGG")]%string
  = Ok [[Some "E"%char; Some "G"%char; Some "G"%char];
        [Some "E"%char; None; None]; [Some "L"%char; None; None]] /\
  In (slot_a, "EGG"%string) [(slot_d, "EEL"); (slot_a, "EGG")]%string /\
  String.get 2 "EGG" = Some "G"%char /\
  grid_at [[Some "E"%char; Some "G"%char; Some "G"%char];
           [Some "E"%char; None; None]; [Some "L"%char; None; None]]
    (fst (cell slot_a 2)) (snd (cell slot_a 2)) = Some (Some "G"%char).
Proof.
  assert (Hin : In (slot_a, "EGG"%string)
                  [(slot_d, "EEL"); (slot_a, "EGG")]%string)
    by (simpl; auto).
  split; [exact cross_words_meet |]. split; [reflexivity |].
  split; [exact Hin |]. split; [reflexivity |].
  apply (letter_grid_shows_words 3 3
           [(slot_d, "EEL"); (slot_a, "EGG")]%string
           [[Some "E"%char; Some "G"%char; Some "G"%char];
            [Some "E"%char; None; None]; [Some "L"%char; None; None]]
           slot_a "EGG"%string 2 "G"%char cross_words_meet eq_refl Hin eq_refl).
Defined.
